(** * Edge-of-stability experiments: curvature analysis core

    A shallow embedding of the analysis and utility modules of the
    repository:

    - [utils/activation.py]            ([get_activation])
    - [utils/initialization.py]        ([initialize_weights])
    - [analysis/eigenvector_analysis.py]
      ([create_parameter_mapping], [analyze_eigenvector])
    - [analysis/hessian.py]
      ([compute_hvp], [lanczos], [compute_trajectory_length],
       [get_hessian_eigenvalues], [get_hessian_eigenvalues_and_vectors])
    - [experiment.py]                  (the trajectory metric of
      [run_experiment])
    - [optimizers/gradient_descent.py], [optimizers/mirror_descent.py],
      [optimizers/optimizer_utils.py]
      ([GradientDescent], [SGD], [MirrorDescent], [create_optimizer])
    - [models/architectures.py]        ([create_fc_network])

    Scalars are exact rationals ([Qc]); Python exceptions are values of
    [exn]; a function that may raise returns a [result]. *)

From Stdlib Require Import QArith Qcanon Qcabs Field Ascii String.
From stdpp Require Import base option list numbers strings pretty gmap sorting.

Local Open Scope Z_scope.

Global Instance Qc_inhabited : Inhabited Qc := populate 0%Qc.

(** A vector of integers, as rationals. *)
Definition rationals (zs : list Z) : list Qc := Qc_of_Z <$> zs.

(** ** Exceptions and results *)

(** A raised Python exception: its class name (the part an [except]
    clause looks at) and its message or offending key. *)
Inductive exn : Type :=
  | Raise (cls : string) (msg : string).

Inductive result (A : Type) : Type :=
  | Ok (a : A)
  | Err (e : exn).
Arguments Ok {A} a.
Arguments Err {A} e.

Global Instance result_ret : MRet result := λ A a, Ok a.
Global Instance result_bind : MBind result := λ A B f r,
  match r with
  | Ok a => f a
  | Err e => Err e
  end.

(** [r] is an exception of class [cls]. *)
Definition fails_with {A} (cls : string) (r : result A) : Prop :=
  ∃ msg, r = Err (Raise cls msg).

Definition succeeds {A} (r : result A) : Prop := ∃ a, r = Ok a.

(** Whatever [r] raises is of one of the [classes]. *)
Definition raises_only {A} (classes : list string) (r : result A) : Prop :=
  ∀ cls msg, r = Err (Raise cls msg) → cls ∈ classes.

(** The numbers of a returned vector, as reduced fractions. *)
Definition values (r : result (list Qc)) : option (list Q) :=
  match r with
  | Ok xs => Some (this <$> xs)
  | Err _ => None
  end.

(** A [for] loop whose body may raise: the accumulator is threaded through
    the iterations and the first exception ends the loop. *)
Fixpoint for_each {A S} (body : S → A → result S) (xs : list A) (s : S)
  : result S :=
  match xs with
  | [] => Ok s
  | x :: xs' => s' ← body s x; for_each body xs' s'
  end.

(** ** Strings (ASCII) *)

Definition lower_char (c : ascii) : ascii :=
  let n := nat_of_ascii c in
  if ((65 <=? n) && (n <=? 90))%nat then ascii_of_nat (n + 32) else c.

(** [str.lower()] on ASCII text: the letters [A] to [Z] become [a] to
    [z], every other character stays. *)
Fixpoint lower (s : string) : string :=
  match s with
  | EmptyString => EmptyString
  | String c s' => String (lower_char c) (lower s')
  end.

Definition dot : ascii := "."%char.

(** ['.' in name] *)
Fixpoint contains_dot (s : string) : bool :=
  match s with
  | EmptyString => false
  | String c s' => if Ascii.eqb c dot then true else contains_dot s'
  end.

(** [name.split('.')[0]] *)
Fixpoint split_dot_first (s : string) : string :=
  match s with
  | EmptyString => EmptyString
  | String c s' =>
      if Ascii.eqb c dot then EmptyString else String c (split_dot_first s')
  end.

(** [s.endswith(suffix)]: compare the last [len(suffix)] characters. *)
Definition endswith (s suffix : string) : bool :=
  let n := String.length s in
  let k := String.length suffix in
  if (k <=? n)%nat
  then String.eqb (String.substring (n - k) k s) suffix
  else false.

(** [c] occurs in [s]. *)
Definition occurs (c : ascii) (s : string) : Prop :=
  ∃ s1 s2, s = s1 +:+ String c s2.

(** [s] ends with [suffix]. *)
Definition has_suffix (suffix s : string) : Prop :=
  ∃ pre, s = pre +:+ suffix.

(** ** utils/activation.py *)

Module Activation.

(** The [torch.nn] modules the table holds, with their constructor
    arguments. *)
Inductive module : Type :=
  | ReLU
  | Sigmoid
  | Tanh
  | Softmax (dim : Z)
  | LeakyReLU (negative_slope : Qc).

Definition activations : gmap string module :=
  <["relu" := ReLU]>
  (<["sigmoid" := Sigmoid]>
  (<["tanh" := Tanh]>
  (<["softmax" := Softmax 1]>
  (<["leaky_relu" := LeakyReLU (Q2Qc (1 # 100))]> ∅)))).

(** [get_activation], with the [str.lower] of the Python runtime as
    [str_lower]: it lowercases every cased character of Unicode, also
    those outside ASCII (the Kelvin sign becomes [k]).  A name is the
    text as the caller wrote it, in any encoding that leaves ASCII
    characters as they are. *)
Definition get_activation_with (str_lower : string → string)
    (activation_name : string) : result module :=
  let activation_name := str_lower activation_name in
  match activations !! activation_name with
  | None =>
      Err (Raise "ValueError"
             ("Activation function '" +:+ activation_name +:+ "' not recognized"))
  | Some m => Ok m
  end.

(** The function on ASCII names. *)
Definition get_activation (activation_name : string) : result module :=
  get_activation_with lower activation_name.

Definition activation_exists (activation_name : string) : bool :=
  bool_decide (lower activation_name ∈
    ["relu"; "sigmoid"; "tanh"; "softmax"; "leaky_relu"]).

(** The names the table knows. *)
Definition supported : list string :=
  ["relu"; "sigmoid"; "tanh"; "softmax"; "leaky_relu"].

End Activation.

(** ** utils/initialization.py *)

Module Initialization.

Record tensor : Type := { shape : list nat; data : list Qc }.

(** An attribute of a Python object: absent ([hasattr] is false), present
    and [None], or present with a value. *)
Inductive attr (A : Type) : Type :=
  | NoAttr
  | AttrNone
  | Attr (a : A).
Arguments NoAttr {A}.
Arguments AttrNone {A}.
Arguments Attr {A} a.

Record layer : Type := { weight : attr tensor; bias : attr tensor }.

(** The [torch.nn.init] in-place initializers the function calls. *)
Inductive init_fn : Type :=
  | uniform_ (a b : Qc)
  | xavier_uniform_
  | kaiming_normal_ (mode nonlinearity : string)
  | zeros_
  | ones_
  | normal_ (mean std : Qc).

Definition fill (c : Qc) (t : tensor) : tensor :=
  {| shape := shape t; data := (λ _, c) <$> data t |}.

Section WithTorchInit.

(** [torch.nn.init] is not part of the repository: [nn_init f t] is the
    tensor [t] holds after [f] ran on it (the random draws included),
    or the exception [f] raised. *)
Variable nn_init : init_fn → tensor → result tensor.

(** [nn.init.<f>(layer.weight)]; on [None] the initializer fails on its
    first attribute access. *)
Definition init_weight (f : init_fn) (l : layer) : layer * result () :=
  match weight l with
  | Attr w =>
      match nn_init f w with
      | Ok w' => ({| weight := Attr w'; bias := bias l |}, Ok ())
      | Err e => (l, Err e)
      end
  | _ => (l, Err (Raise "AttributeError" "'NoneType' object"))
  end.

(** The layer is updated in place: the first component is the layer
    after the call, also when the call raises. *)
Definition initialize_weights (l : layer) (method : string)
  : layer * result () :=
  match weight l with
  | NoAttr => (l, Ok ())
  | _ =>
      let method := lower method in
      let '(l1, r) :=
        if String.eqb method "uniform" then
          init_weight (uniform_ (- Q2Qc (1 # 10)) (Q2Qc (1 # 10))) l
        else if String.eqb method "xavier" then
          init_weight xavier_uniform_ l
        else if String.eqb method "kaiming" then
          init_weight (kaiming_normal_ "fan_in" "relu") l
        else if String.eqb method "zeros" then
          init_weight zeros_ l
        else if String.eqb method "ones" then
          init_weight ones_ l
        else if String.eqb method "normal" then
          init_weight (normal_ 0 (Q2Qc (1 # 100))) l
        else
          (l, Err (Raise "ValueError"
                     ("Initialization method '" +:+ method +:+ "' not recognized")))
      in
      match r with
      | Err e => (l1, Err e)
      | Ok _ =>
          match bias l1 with
          | Attr b =>
              ({| weight := weight l1; bias := Attr (fill 0 b) |}, Ok ())
          | _ => (l1, Ok ())
          end
      end
  end.

End WithTorchInit.

Definition initialization_exists (method : string) : bool :=
  bool_decide (lower method ∈
    ["uniform"; "xavier"; "kaiming"; "zeros"; "ones"; "normal"]).

(** [torch.nn.init] as far as raising goes, on a tensor without a
    zero-sized dimension: the two initializers that compute fan-in and
    fan-out reject a tensor of fewer than two dimensions, the others
    accept every tensor.  The values written stand for one outcome of the
    random draw. *)
Definition torch_init (f : init_fn) (t : tensor) : result tensor :=
  match f with
  | zeros_ => Ok (fill 0 t)
  | ones_ => Ok (fill 1 t)
  | uniform_ a b => Ok (fill a t)
  | normal_ mean std => Ok (fill mean t)
  | xavier_uniform_ | kaiming_normal_ _ _ =>
      if (length (shape t) <? 2)%nat
      then Err (Raise "ValueError"
                  "Fan in and fan out can not be computed for tensor with fewer than 2 dimensions")
      else Ok (fill (Q2Qc (1 # 100)) t)
  end.

(** A fully connected layer with two inputs and two outputs. *)
Definition linear_layer : layer :=
  {| weight := Attr {| shape := [2; 2]%nat; data := [1; 1; 1; 1]%Qc |};
     bias := Attr {| shape := [2]%nat; data := [1; 1]%Qc |} |}.

(** A normalisation layer: weight and bias are both one-dimensional. *)
Definition norm_layer : layer :=
  {| weight := Attr {| shape := [3]%nat; data := [1; 1; 1]%Qc |};
     bias := Attr {| shape := [3]%nat; data := [1; 1; 1]%Qc |} |}.

End Initialization.

(** ** analysis/eigenvector_analysis.py *)

Module EigenvectorAnalysis.

(** [param.numel()]: the product of the dimensions. *)
Definition numel (shape : list nat) : nat := foldr Nat.mul 1%nat shape.

(** Row-major (C order) coordinates of the [i]-th element. *)
Fixpoint unravel (i : nat) (shape : list nat) : list nat :=
  match shape with
  | [] => []
  | _ :: rest => (i / numel rest)%nat :: unravel (i mod numel rest)%nat rest
  end.

(** [np.unravel_index(i, shape)] *)
Definition unravel_index (i : nat) (shape : list nat) : result (list nat) :=
  if (i <? numel shape)%nat then Ok (unravel i shape)
  else Err (Raise "ValueError" "index is out of bounds for array").

(** The inverse direction: the offset of a coordinate inside its
    tensor. *)
Fixpoint ravel (coord shape : list nat) : nat :=
  match coord, shape with
  | c :: coord', _ :: rest => (c * numel rest + ravel coord' rest)%nat
  | _, _ => 0%nat
  end.

(** A coordinate of a tensor of the given shape. *)
Definition valid_coord (coord shape : list nat) : Prop :=
  Forall2 lt coord shape.

(** The value of one key of the mapping. *)
Record param_info : Type := {
  name : string;
  layer : string;
  coordinates : list nat;
  shape : list nat;
  type : string
}.

(** [model.named_parameters()]: the parameter names with the shapes of
    their tensors, in enumeration order. *)
Abbreviation named_parameters := (list (string * list nat)).

Definition layer_of (name : string) : string :=
  if contains_dot name then split_dot_first name else name.

Definition type_of (name : string) : string :=
  if endswith name "bias" then "bias" else "weight".

(** The inner loop body: [mapping[flat_idx + i] = {...}]. *)
Definition add_entry (name : string) (shape : list nat) (flat_idx : nat)
    (mapping : gmap nat param_info) (i : nat)
  : result (gmap nat param_info) :=
  coord ← unravel_index i shape;
  Ok (<[(flat_idx + i)%nat :=
         {| name := name;
            layer := layer_of name;
            coordinates := coord;
            shape := shape;
            type := type_of name |}]> mapping).

(** The outer loop body, on the pair [(mapping, flat_idx)]. *)
Definition add_parameter (st : gmap nat param_info * nat)
    (p : string * list nat) : result (gmap nat param_info * nat) :=
  let '(mapping, flat_idx) := st in
  let '(name, shape) := p in
  let param_size := numel shape in
  mapping' ← for_each (add_entry name shape flat_idx) (seq 0 param_size) mapping;
  Ok (mapping', (flat_idx + param_size)%nat).

Definition create_parameter_mapping (model : named_parameters)
  : result (gmap nat param_info) :=
  st ← for_each add_parameter model (∅, 0%nat);
  Ok (fst st).

(** Total parameter count and the flat offset of the [t]-th tensor. *)
Definition total_numel (model : named_parameters) : nat :=
  sum_list ((λ p, numel (snd p)) <$> model).

Definition offset (model : named_parameters) (t : nat) : nat :=
  total_numel (take t model).

(** The value stored for the [i]-th element of a tensor. *)
Definition entry_at (name : string) (shape : list nat) (i : nat) : param_info :=
  {| name := name;
     layer := layer_of name;
     coordinates := unravel i shape;
     shape := shape;
     type := type_of name |}.

(** The entry of flat offset [k] when the tensors of [model] are laid out
    one after the other from offset [flat_idx] on. *)
Fixpoint locate (model : named_parameters) (flat_idx k : nat)
  : option param_info :=
  match model with
  | [] => None
  | (name, shape) :: rest =>
      if decide (flat_idx ≤ k < flat_idx + numel shape)%nat
      then Some (entry_at name shape (k - flat_idx))
      else locate rest (flat_idx + numel shape)%nat k
  end.

(** The two naming rules, in words: the layer is the part of the name
    before its first dot, or the name when it has no dot; the kind is
    bias when the name ends in "bias" and weight otherwise. *)
Definition layer_rule (name layer : string) : Prop :=
  (¬ occurs dot name ∧ layer = name)
  ∨ (∃ rest, name = layer +:+ String dot rest ∧ ¬ occurs dot layer).

Definition kind_rule (name kind : string) : Prop :=
  (has_suffix "bias" name ∧ kind = "bias")
  ∨ (¬ has_suffix "bias" name ∧ kind = "weight").

(** One element of the list [analyze_eigenvector] returns. *)
Record contributor : Type := {
  index : nat;
  param_name : string;
  c_layer : string;
  c_coordinates : list nat;
  contribution : Qc;
  abs_contribution : Qc;
  param_type : string
}.

(** The function returns a dict when [by_layer] is set and a list
    otherwise. *)
Inductive analysis : Type :=
  | LayerContributions (d : gmap string Qc)
  | TopContributors (l : list contributor).

(** [d[key]] on a dict. *)
Definition getitem (param_mapping : gmap nat param_info) (idx : nat)
  : result param_info :=
  match param_mapping !! idx with
  | Some info => Ok info
  | None => Err (Raise "KeyError" (pretty idx))
  end.

(** [t[idx]] on a one-dimensional tensor. *)
Definition tensor_item (t : list Qc) (idx : nat) : result Qc :=
  match t !! idx with
  | Some x => Ok x
  | None => Err (Raise "IndexError" "index out of range")
  end.

(** [l[start:]] with Python's treatment of a negative or too large
    start. *)
Definition slice_from {A} (start : Z) (l : list A) : list A :=
  let n := Z.of_nat (length l) in
  let s := if start <? 0 then Z.max (start + n) 0 else Z.min start n in
  drop (Z.to_nat s) l.

(** What [np.argsort] promises with its default kind: a permutation of
    the positions that lists the values in ascending order.  The order
    of positions holding equal values is not part of the promise. *)
Definition argsort_spec (argsort : list Qc → list nat) : Prop :=
  ∀ a, Permutation (argsort a) (seq 0 (length a))
     ∧ StronglySorted Qcle ((λ i, a !!! i) <$> argsort a).

(** The stable instance (insertion sort, what the default kind runs on
    short arrays): a position moves left only past strictly larger
    values. *)
Fixpoint insert_index (a : list Qc) (i : nat) (sorted : list nat) : list nat :=
  match sorted with
  | [] => [i]
  | j :: rest =>
      if decide (a !!! i < a !!! j)%Qc then i :: j :: rest
      else j :: insert_index a i rest
  end.

Definition argsort_stable (a : list Qc) : list nat :=
  foldl (λ sorted i, insert_index a i sorted) [] (seq 0 (length a)).

(** The order a stable ascending sort leaves the positions in: by
    value, positions of equal values by position. *)
Definition stable_order (a : list Qc) (i j : nat) : Prop :=
  (a !!! i < a !!! j)%Qc ∨ (a !!! i = a !!! j ∧ (i < j)%nat).

(** An element of the result describes position [index c] of the
    eigenvector and of the index. *)
Definition describes (eigenvector : list Qc)
    (param_mapping : gmap nat param_info) (c : contributor) : Prop :=
  eigenvector !! index c = Some (contribution c)
  ∧ abs_contribution c = Qcabs (contribution c)
  ∧ ∃ info, param_mapping !! index c = Some info
            ∧ param_name c = name info
            ∧ c_layer c = layer info
            ∧ c_coordinates c = coordinates info
            ∧ param_type c = type info.

Section WithArgsort.

Variable argsort : list Qc → list nat.

(** The [by_layer] loop body. *)
Definition add_layer_contribution (param_mapping : gmap nat param_info)
    (layer_contributions : gmap string Qc) (iv : nat * Qc)
  : result (gmap string Qc) :=
  let '(idx, val) := iv in
  info ← getitem param_mapping idx;
  let layer := layer info in
  let layer_contributions :=
    match layer_contributions !! layer with
    | None => <[layer := 0%Qc]> layer_contributions
    | Some _ => layer_contributions
    end in
  Ok (<[layer := (default 0%Qc (layer_contributions !! layer) + val)%Qc]>
        layer_contributions).

(** The loop body that builds the list of top contributors. *)
Definition add_contributor (eigenvector : list Qc)
    (param_mapping : gmap nat param_info)
    (top_contributors : list contributor) (idx : nat)
  : result (list contributor) :=
  param_info ← getitem param_mapping idx;
  contribution ← tensor_item eigenvector idx;
  Ok (top_contributors ++
        [{| index := idx;
            param_name := name param_info;
            c_layer := layer param_info;
            c_coordinates := coordinates param_info;
            contribution := contribution;
            abs_contribution := Qcabs contribution;
            param_type := type param_info |}]).

(** [np.argsort(abs_contrib)[-top_k:][::-1]] *)
Definition select_top (abs_contrib : list Qc) (top_k : Z) : list nat :=
  reverse (slice_from (- top_k) (argsort abs_contrib)).

Definition analyze_eigenvector (eigenvector : list Qc)
    (param_mapping : gmap nat param_info) (top_k : Z) (by_layer : bool)
  : result analysis :=
  let abs_contrib := Qcabs <$> eigenvector in
  if by_layer then
    layer_contributions ←
      for_each (add_layer_contribution param_mapping)
               (zip (seq 0 (length abs_contrib)) abs_contrib) ∅;
    Ok (LayerContributions layer_contributions)
  else
    let top_indices := select_top abs_contrib top_k in
    top_contributors ←
      for_each (add_contributor eigenvector param_mapping) top_indices [];
    Ok (TopContributors top_contributors).

End WithArgsort.

(** Sample models: a layer with two weights and one bias, and a single
    tensor of two elements, with their indices. *)
Definition small_model : named_parameters :=
  [("fc.weight", [1; 2]%nat); ("fc.bias", [1]%nat)].

Definition pair_model : named_parameters := [("w", [2]%nat)].

Definition index_of (model : named_parameters) : gmap nat param_info :=
  match create_parameter_mapping model with
  | Ok mapping => mapping
  | Err _ => ∅
  end.

Definition small_index : gmap nat param_info := index_of small_model.

Definition pair_index : gmap nat param_info := index_of pair_model.

End EigenvectorAnalysis.

(** ** analysis/hessian.py *)

Module Hessian.

Import EigenvectorAnalysis.

(** *** Tensors and automatic differentiation *)

(** Elementwise binary operation on one-dimensional tensors, with the
    broadcasting of a one-element operand; other size mismatches
    raise. *)
Definition broadcast2 {A B C} (f : A → B → C) (a : list A) (b : list B)
  : result (list C) :=
  if decide (length a = length b) then Ok (zip_with f a b)
  else match a, b with
       | _, [y] => Ok ((λ x, f x y) <$> a)
       | [x], _ => Ok (f x <$> b)
       | _, _ =>
           Err (Raise "RuntimeError"
                  "The size of tensor a must match the size of tensor b")
       end.

(** A scalar that depends on the model parameters, as autograd sees it
    at the current parameter values: its first and second partial
    derivatives with respect to the flat parameter vector, which the two
    calls of [torch.autograd.grad] give when they return. *)
Record dscalar : Type := {
  grad : nat → Qc;
  hess : nat → nat → Qc
}.

(** One entry of a tensor computed with [create_graph=True]: its value
    and its own gradient with respect to the parameters. *)
Record dvalue : Type := {
  val : Qc;
  dval : nat → Qc
}.

(** [loss * batch_size / len(dataset)] *)
Definition mul_div (loss : dscalar) (batch_size len : nat) : dscalar :=
  let b := Qc_of_Z (Z.of_nat batch_size) in
  let n := Qc_of_Z (Z.of_nat len) in
  {| grad := λ i, (grad loss i * b / n)%Qc;
     hess := λ i j, (hess loss i j * b / n)%Qc |}.

(** [parameters_to_vector(torch.autograd.grad(loss, model.parameters(),
    create_graph=True))] *)
Definition flat_grad_of (num_params : nat) (loss : dscalar) : list dvalue :=
  (λ i, {| val := grad loss i; dval := hess loss i |}) <$> seq 0 num_params.

(** One entry of [flat_grad * vector]; the vector carries no graph. *)
Definition dmul (g : dvalue) (c : Qc) : dvalue :=
  {| val := (val g * c)%Qc; dval := λ j, (dval g j * c)%Qc |}.

Definition dadd (x y : dvalue) : dvalue :=
  {| val := (val x + val y)%Qc; dval := λ j, (dval x j + dval y j)%Qc |}.

(** [torch.sum] *)
Definition dsum (xs : list dvalue) : dvalue :=
  foldr dadd {| val := 0%Qc; dval := λ _, 0%Qc |} xs.

(** [parameters_to_vector(torch.autograd.grad(dot_product,
    model.parameters()))] *)
Definition flat_hvp_of (num_params : nat) (dot_product : dvalue) : list Qc :=
  dval dot_product <$> seq 0 num_params.

(** The products [flat_grad * vector] written out: which entry of the
    gradient meets which coefficient once a one-element operand has been
    broadcast, or [None] when the sizes do not match. *)
Definition coefficients (num_params : nat) (vector : list Qc)
  : option (list (nat * Qc)) :=
  if decide (num_params = length vector)
  then Some (zip (seq 0 num_params) vector)
  else match vector with
       | [y] => Some ((λ i, (i, y)) <$> seq 0 num_params)
       | _ =>
           if decide (num_params = 1%nat)
           then Some ((λ c, (0%nat, c)) <$> vector)
           else None
       end.

(** Entry [j] of the gradient of [sum_i coefficient_i * gradient_i]. *)
Definition weighted (cs : list (nat * Qc)) (h : nat → nat → Qc) (j : nat)
  : Qc :=
  foldr (λ ic acc, (h (fst ic) j * snd ic + acc)%Qc) 0%Qc cs.

(** *** What autograd raises *)

(** The graph of one differentiated scalar, as far as
    [torch.autograd.grad(y, model.parameters())] looks at it: the call
    returns when [y] requires grad and its graph reaches every
    parameter, and raises [RuntimeError] otherwise (a loss that does not
    hang on a parameter, a gradient that carries no graph because the
    loss is linear in the parameters).  [loss_error] is [None] when the
    call on the loss returns and the message of the exception otherwise;
    [grad_error] is the same for the call on the sum of the products of
    the gradient with a vector that carries no graph. *)
Record autograd : Type := {
  loss_error : option string;
  grad_error : option string
}.

(** [torch.autograd.grad]: the derivatives, or the exception. *)
Definition autograd_grad {A} (error : option string) (derivatives : A)
  : result A :=
  match error with
  | None => Ok derivatives
  | Some msg => Err (Raise "RuntimeError" msg)
  end.

(** Both calls return, whatever the batch the loader hands out. *)
Definition differentiable {A} (graph : list A → autograd) : Prop :=
  ∀ batch, batch ≠ [] →
    loss_error (graph batch) = None ∧ grad_error (graph batch) = None.

(** The batches of a dataset give graphs of one shape: the model runs
    the same operations on every batch. *)
Definition uniform {A} (graph : list A → autograd) : Prop :=
  ∀ batch1 batch2, batch1 ≠ [] → batch2 ≠ [] → graph batch1 = graph batch2.

(** *** Data loading *)

Fixpoint batches_fuel {A} (fuel batch_size : nat) (dataset : list A)
  : list (list A) :=
  match fuel with
  | O => []
  | S fuel' =>
      match dataset with
      | [] => []
      | _ => take batch_size dataset
             :: batches_fuel fuel' batch_size (drop batch_size dataset)
      end
  end.

(** [DataLoader(dataset, batch_size=batch_size, shuffle=False)]: the
    batches in order, the last one possibly shorter. *)
Definition DataLoader {A} (dataset : list A) (batch_size : Z)
  : result (list (list A)) :=
  if batch_size <=? 0
  then Err (Raise "ValueError" "batch_size should be a positive integer value")
  else Ok (batches_fuel (length dataset) (Z.to_nat batch_size) dataset).

(** Reductions a loss function applies to the per-example losses of a
    batch. *)
Definition sum_loss {A} (per_example : A → dscalar) (batch : list A)
  : dscalar :=
  {| grad := λ i, foldr (λ e acc, (grad (per_example e) i + acc)%Qc) 0%Qc batch;
     hess := λ i j,
       foldr (λ e acc, (hess (per_example e) i j + acc)%Qc) 0%Qc batch |}.

Definition mean_loss {A} (per_example : A → dscalar) (batch : list A)
  : dscalar :=
  let b := Qc_of_Z (Z.of_nat (length batch)) in
  {| grad := λ i, (grad (sum_loss per_example batch) i / b)%Qc;
     hess := λ i j, (hess (sum_loss per_example batch) i j / b)%Qc |}.

(** Entry [j] of what the examples of a batch add to the product when
    every example weighs [1 / len]. *)
Definition share {A} (per_example : A → dscalar) (cs : list (nat * Qc))
    (len : nat) (batch : list A) (j : nat) : Qc :=
  weighted cs
    (λ i j, hess (sum_loss per_example batch) i j
            / Qc_of_Z (Z.of_nat len))%Qc j.

Section WithTorch.

(** The elementwise square root of the tensor library. *)
Variable tsqrt : Qc → Qc.

(** The examples of the dataset. *)
Variable example : Type.

(** *** compute_hvp *)

(** The body shared by the two branches: from the batch to the flat
    Hessian-vector product of its weighted loss.  [batch_loss batch]
    is [loss_fn(model(data), targets)] on that batch and [graph batch]
    its graph. *)
Definition hvp_of_batch (num_params : nat)
    (batch_loss : list example → dscalar) (graph : list example → autograd)
    (dataset_len : nat) (vector : list Qc) (batch : list example)
  : result (list Qc) :=
  let batch_size := length batch in
  let loss := mul_div (batch_loss batch) batch_size dataset_len in
  flat_grad ← autograd_grad (loss_error (graph batch))
                (flat_grad_of num_params loss);
  prod ← broadcast2 dmul flat_grad vector;
  let dot_product := dsum prod in
  autograd_grad (grad_error (graph batch))
    (flat_hvp_of num_params dot_product).

(** [parameters] lists the shapes of [model.parameters()]. *)
Definition compute_hvp (parameters : list (list nat))
    (batch_loss : list example → dscalar) (graph : list example → autograd)
    (dataset : list example)
    (vector : list Qc) (physical_batch_size : option Z)
    (P : option (list Qc)) : result (list Qc) :=
  _ ← match parameters with
      | [] => Err (Raise "StopIteration" "")
      | _ => Ok ()
      end;
  let num_params := sum_list (numel <$> parameters) in
  let len := length dataset in
  vector ← match P with
           | Some p => broadcast2 Qcdiv vector (tsqrt <$> p)
           | None => Ok vector
           end;
  flat_hvp ←
    (if match physical_batch_size with
        | None => true
        | Some b => Z.of_nat len <=? b
        end
     then
       loader ← DataLoader dataset (Z.of_nat len);
       match loader with
       | [] => Err (Raise "StopIteration" "")
       | batch :: _ =>
           hvp_of_batch num_params batch_loss graph len vector batch
       end
     else
       loader ← DataLoader dataset (default 0 physical_batch_size);
       for_each
         (λ flat_hvp batch,
            hvp_batch ← hvp_of_batch num_params batch_loss graph len vector
                          batch;
            Ok (zip_with Qcplus flat_hvp hvp_batch))
         loader (replicate num_params 0%Qc));
  match P with
  | Some p => broadcast2 Qcdiv flat_hvp (tsqrt <$> p)
  | None => Ok flat_hvp
  end.

(** *** lanczos *)

(** The output of the eigensolver: [k] eigenvalues and a [dim] by [k]
    array whose column [i] is the eigenvector of eigenvalue [i]. *)
Abbreviation eigenpairs := (list Qc * list (list Qc))%type.

Definition column (i : nat) (eigenvectors : list (list Qc)) : list Qc :=
  (λ row, row !!! i) <$> eigenvectors.

(** The product of [scipy]'s [LinearOperator((dim, dim), matvec=mv)]
    with a vector: the vector must have [dim] entries, and the product is
    reshaped to [dim] entries. *)
Definition matvec (dim : nat) (mv : list Qc → result (list Qc))
    (x : list Qc) : result (list Qc) :=
  if decide (length x = dim) then
    y ← mv x;
    if decide (length y = dim) then Ok y
    else Err (Raise "ValueError" "cannot reshape array")
  else Err (Raise "ValueError" "dimension mismatch").

(** [LinearOperator((dim, dim), matvec=mv)]: no [dtype] is given, and
    the constructor multiplies the zero vector to find it; what [mv]
    raises there is raised by the constructor. *)
Definition LinearOperator (dim : nat) (mv : list Qc → result (list Qc))
  : result (list Qc → result (list Qc)) :=
  _ ← matvec dim mv (replicate dim 0%Qc);
  Ok (matvec dim mv).

Section WithSolver.

(** [scipy.sparse.linalg.eigsh(operator, k, which='LM', tol=1e-8)]: the
    iteration starts from a random vector, so that the answer depends on
    the state of the random generator at the call; it may fail (no
    convergence, [k] not below the dimension). *)
Variable generator : Type.
Variable eigsh : generator → (list Qc → result (list Qc)) → nat → nat
                 → result eigenpairs.

Definition lanczos (g : generator)
    (hvp_function : list Qc → result (list Qc))
    (dim neigs : nat) : result eigenpairs :=
  let mv := λ v, hvp_function v in
  operator ← LinearOperator dim mv;
  match eigsh g operator dim neigs with
  | Ok (eigenvalues, eigenvectors) =>
      Ok (reverse eigenvalues, reverse <$> eigenvectors)
  | Err e => Err e
  end.

Definition get_hessian_eigenvalues_and_vectors (g : generator)
    (parameters : list (list nat)) (batch_loss : list example → dscalar)
    (graph : list example → autograd)
    (dataset : list example) (neigs : nat)
    (physical_batch_size : option Z) (P : option (list Qc))
  : result eigenpairs :=
  let num_params := sum_list (numel <$> parameters) in
  let hvp_delta := λ delta,
    compute_hvp parameters batch_loss graph dataset delta
      physical_batch_size P in
  lanczos g hvp_delta num_params neigs.

End WithSolver.

(** *** compute_trajectory_length *)

(** [torch.norm(x)]: the Euclidean norm. *)
Definition norm (x : list Qc) : Qc :=
  tsqrt (foldr (λ c acc, (c * c + acc)%Qc) 0%Qc x).

(** [np.cumsum]: running sums, left to right. *)
Fixpoint cumsum_from (acc : Qc) (xs : list Qc) : list Qc :=
  match xs with
  | [] => []
  | x :: xs' => (acc + x)%Qc :: cumsum_from (acc + x)%Qc xs'
  end.

Definition cumsum (xs : list Qc) : list Qc :=
  match xs with
  | [] => []
  | x :: xs' => x :: cumsum_from x xs'
  end.

(** The distance of snapshot [i] from the one before it. *)
Definition step_distance (param_history : list (list Qc)) (i : nat) : Qc :=
  norm (zip_with Qcminus (param_history !!! i)
          (param_history !!! (i - 1)%nat)).

(** [param_history[i]] *)
Definition history_item (param_history : list (list Qc)) (i : nat)
  : result (list Qc) :=
  match param_history !! i with
  | Some s => Ok s
  | None => Err (Raise "IndexError" "list index out of range")
  end.

Definition compute_trajectory_length (param_history : list (list Qc))
  : result (list Qc) :=
  let n := length param_history in
  if (n <=? 1)%nat then Ok (replicate n 0%Qc)
  else
    distances ←
      for_each
        (λ distances i,
           cur ← history_item param_history i;
           prev ← history_item param_history (i - 1);
           diff ← broadcast2 Qcminus cur prev;
           Ok (distances ++ [norm diff]))
        (seq 1 (n - 1)) [];
    let cum_distances := 0%Qc :: cumsum distances in
    let cum_distances :=
      if (n <? length cum_distances)%nat then take n cum_distances
      else if (length cum_distances <? n)%nat then
        cum_distances
          ++ replicate (n - length cum_distances) (List.last cum_distances 0%Qc)
      else cum_distances in
    Ok cum_distances.

End WithTorch.

(** The squared Euclidean distance of two vectors of [d] entries,
    written out: the sum over [j] of [(x[j] - y[j])^2]. *)
Definition squared_distance (d : nat) (x y : list Qc) : Qc :=
  foldr (λ j acc, ((x !!! j - y !!! j) * (x !!! j - y !!! j) + acc)%Qc)
        0%Qc (seq 0 d).

(** A per-example loss with the symmetric Hessian [e * (i + j + 1)]. *)
Definition sample_loss (e : Z) : dscalar :=
  {| grad := λ _, 0%Qc;
     hess := λ i j, Qc_of_Z (e * (Z.of_nat i + Z.of_nat j + 1)) |}.

(** A per-example loss with the Hessian of diagonal 1, 2, 3, whatever
    the example. *)
Definition diagonal_loss (e : Z) : dscalar :=
  {| grad := λ _, 0%Qc;
     hess := λ i j,
       if decide (i = j) then Qc_of_Z (Z.of_nat i + 1) else 0%Qc |}.

(** A square root that is exact on the squares of rationals. *)
Definition sqrt_exact (x : Qc) : Qc :=
  Q2Qc (Z.sqrt (Qnum x) # Pos.sqrt (Qden x)).

(** An answer of the solver for the diagonal operator with the entries
    1, 2, 3 when asked for [k] eigenvalues of largest magnitude: the [k]
    largest in ascending order, the unit vectors of their positions as
    columns; [k] must be positive and below the dimension. *)
Definition eigsh_diagonal (g : ()) (operator : list Qc → result (list Qc))
    (dim k : nat) : result (list Qc * list (list Qc)) :=
  if (k =? 0)%nat then Err (Raise "ValueError" "k must be greater than 0.")
  else if (dim <=? k)%nat
  then Err (Raise "TypeError"
              "Cannot use scipy.linalg.eigh for LinearOperator A with k >= N.")
  else Ok (drop (3 - k) (rationals [1; 2; 3]),
           (λ row, drop (3 - k)%nat (rationals row))
             <$> [[1; 0; 0]; [0; 1; 0]; [0; 0; 1]]).

(** The product with the diagonal matrix of the entries 1, 2, 3. *)
Definition diagonal_operator (v : list Qc) : result (list Qc) :=
  Ok (zip_with Qcmult (rationals [1; 2; 3]) v).

(** Graphs: both derivatives exist; the loss is linear in the
    parameters, so that its gradient carries no graph. *)
Definition full_graph {A} (batch : list A) : autograd :=
  {| loss_error := None; grad_error := None |}.

Definition linear_graph {A} (batch : list A) : autograd :=
  {| loss_error := None;
     grad_error :=
       Some "element 0 of tensors does not require grad and does not have a grad_fn"%string |}.

End Hessian.

(** ** utils/initialization.py: whole models *)

Module InitializeModel.

Import Initialization.

(** The class test of [initialize_model]: [nn.Linear], [nn.Conv2d] (or a
    subclass of one of them), or anything else. *)
Inductive module_class : Type :=
  | Linear
  | Conv2d
  | OtherModule.

(** One module of [model.modules()]: its class and the attributes
    [initialize_weights] looks at. *)
Record module : Type := { kind : module_class; attrs : layer }.

(** [isinstance(module, (nn.Linear, nn.Conv2d))] *)
Definition is_linear_or_conv (c : module_class) : bool :=
  match c with
  | Linear | Conv2d => true
  | OtherModule => false
  end.

(** The exception for an unknown method name. *)
Definition not_recognized (method : string) : exn :=
  Raise "ValueError"
    ("Initialization method '" +:+ lower method +:+ "' not recognized").

(** The bias after a call that returned. *)
Definition zeroed (b : attr tensor) : attr tensor :=
  match b with
  | Attr t => Attr (fill 0%Qc t)
  | other => other
  end.

(** The modules are visited in order and updated in place; an exception
    ends the loop, the modules after the failing one are not visited. *)
Fixpoint initialize_model (nn_init : init_fn → tensor → result tensor)
    (modules : list module) (method : string) : list module * result () :=
  match modules with
  | [] => ([], Ok ())
  | m :: rest =>
      if is_linear_or_conv (kind m) then
        let '(l, r) := initialize_weights nn_init (attrs m) method in
        match r with
        | Ok _ =>
            let '(rest', r') := initialize_model nn_init rest method in
            ({| kind := kind m; attrs := l |} :: rest', r')
        | Err e => ({| kind := kind m; attrs := l |} :: rest, Err e)
        end
      else
        let '(rest', r') := initialize_model nn_init rest method in
        (m :: rest', r')
  end.

(** A module the loop hands to [initialize_weights] and that has a weight
    attribute. *)
Definition is_target (m : module) : bool :=
  is_linear_or_conv (kind m)
  && match weight (attrs m) with NoAttr => false | _ => true end.

(** A sample model: a flatten module, a linear layer, a normalisation
    layer that is not touched. *)
Definition sample_modules : list module :=
  [ {| kind := OtherModule; attrs := {| weight := NoAttr; bias := NoAttr |} |};
    {| kind := Linear; attrs := linear_layer |};
    {| kind := OtherModule; attrs := norm_layer |} ].

End InitializeModel.

(** ** analysis/eigenvector_analysis.py: layer sizes *)

Module LayerInfo.

Import EigenvectorAnalysis.

(** The value of one key of [layer_info]. *)
Record layer_counts : Type := {
  weights : nat;
  biases : nat;
  total : nat
}.

(** The loop body of [extract_layer_info], on the pair
    [(layer_info, layer_sizes)]. *)
Definition add_layer_info
    (st : gmap string layer_counts * gmap string nat)
    (p : string * list nat) : gmap string layer_counts * gmap string nat :=
  let '(layer_info, layer_sizes) := st in
  let '(name, shape) := p in
  let layer := layer_of name in
  let param_type := type_of name in
  let layer_info :=
    match layer_info !! layer with
    | None => <[layer := {| weights := 0; biases := 0; total := 0 |}]> layer_info
    | Some _ => layer_info
    end in
  let c := default {| weights := 0; biases := 0; total := 0 |}
             (layer_info !! layer) in
  let c :=
    if String.eqb param_type "weight"
    then {| weights := weights c + numel shape; biases := biases c;
            total := total c |}
    else {| weights := weights c; biases := biases c + numel shape;
            total := total c |} in
  let c := {| weights := weights c; biases := biases c;
              total := total c + numel shape |} in
  (<[layer := c]> layer_info, <[name := numel shape]> layer_sizes).

Definition extract_layer_info (model : named_parameters)
  : gmap string layer_counts * gmap string nat :=
  foldl add_layer_info (∅, ∅) model.

(** The elements of the parameters of one layer and one kind. *)
Definition numel_of (model : named_parameters) (layer kind : string) : nat :=
  sum_list ((λ p, numel (snd p))
              <$> filter (λ p, layer_of (fst p) = layer ∧ type_of (fst p) = kind)
                    model).

(** What [layer_info] holds for a layer name. *)
Definition counts_of (model : named_parameters) (layer_name : string)
  : option layer_counts :=
  if decide (layer_name ∈ (λ p, layer_of (fst p)) <$> model)
  then Some {| weights := numel_of model layer_name "weight";
               biases := numel_of model layer_name "bias";
               total := numel_of model layer_name "weight"
                        + numel_of model layer_name "bias" |}
  else None.

(** The sum of the absolute components of the flat offsets listed in
    [l] that the index puts in [layer]. *)
Definition layer_mass (param_mapping : gmap nat param_info)
    (l : list (nat * Qc)) (layer_name : string) : Qc :=
  foldr (λ iv acc,
           if decide (layer <$> param_mapping !! fst iv = Some layer_name)
           then (snd iv + acc)%Qc else acc) 0%Qc l.

(** Some offset listed in [l] is in [layer]. *)
Definition has_layer (param_mapping : gmap nat param_info)
    (l : list (nat * Qc)) (layer_name : string) : bool :=
  existsb (λ iv, bool_decide (layer <$> param_mapping !! fst iv = Some layer_name)) l.

(** The sum of the values of a dict. *)
Definition dict_sum (d : gmap string Qc) : Qc :=
  map_fold (λ _ v acc, (v + acc)%Qc) 0%Qc d.

(** [sum(xs)] *)
Definition qsum (xs : list Qc) : Qc := foldr Qcplus 0%Qc xs.

End LayerInfo.

(** ** analysis/hessian.py: the spectrum functions, and the matrix behind
    [compute_hvp] *)

Module HessianOperator.

Import EigenvectorAnalysis Hessian.

Section WithTorch.

Variable tsqrt : Qc → Qc.
Variable example : Type.
(** The state of the random generator the solver starts from, and the
    solver. *)
Variable generator : Type.
Variable eigsh : generator → (list Qc → result (list Qc)) → nat → nat
                 → result (list Qc * list (list Qc)).

Definition get_hessian_eigenvalues (g : generator)
    (parameters : list (list nat)) (batch_loss : list example → dscalar)
    (graph : list example → autograd)
    (dataset : list example) (neigs : nat)
    (physical_batch_size : option Z) (P : option (list Qc))
  : result (list Qc) :=
  let num_params := sum_list (numel <$> parameters) in
  let hvp_delta := λ delta,
    compute_hvp tsqrt example parameters batch_loss graph dataset delta
      physical_batch_size P in
  match lanczos generator eigsh g hvp_delta num_params neigs with
  | Ok (eigenvalues, _) => Ok eigenvalues
  | Err e => Err e
  end.

(** The batches a call of [compute_hvp] differentiates: the whole
    dataset, or its chunks. *)
Definition batches_of (dataset : list example)
    (physical_batch_size : option Z) : list (list example) :=
  match physical_batch_size with
  | None => [dataset]
  | Some b =>
      if Z.of_nat (length dataset) <=? b then [dataset]
      else batches_fuel (length dataset) (Z.to_nat b) dataset
  end.

(** The sum over the batches of the second derivatives of the weighted
    batch losses. *)
Definition chunk_hessian (batch_loss : list example → dscalar) (len : nat)
    (loader : list (list example)) (i j : nat) : Qc :=
  foldr (λ batch acc,
           (hess (mul_div (batch_loss batch) (length batch) len) i j + acc)%Qc)
        0%Qc loader.

(** The same with row [i] and column [j] divided by the square roots of
    the preconditioner's entries. *)
Definition hvp_matrix (batch_loss : list example → dscalar)
    (dataset : list example) (physical_batch_size : option Z)
    (P : option (list Qc)) (i j : nat) : Qc :=
  let h := chunk_hessian batch_loss (length dataset)
             (batches_of dataset physical_batch_size) in
  match P with
  | None => h i j
  | Some p => (h i j / tsqrt (p !!! i) / tsqrt (p !!! j))%Qc
  end.

End WithTorch.

(** [sum(f(i) for i in l)] *)
Definition lsum (l : list nat) (f : nat → Qc) : Qc :=
  foldr (λ i acc, (f i + acc)%Qc) 0%Qc l.

(** [sum_i f(i) * x[i]] over the [n] entries of a vector. *)
Definition dot (n : nat) (f : nat → Qc) (x : list Qc) : Qc :=
  lsum (seq 0 n) (λ i, (f i * x !!! i)%Qc).

(** [torch.dot(a, b)] for vectors of [n] entries. *)
Definition inner (n : nat) (a b : list Qc) : Qc :=
  dot n (λ i, a !!! i) b.

(** [a * v + w], entry by entry. *)
Definition axpy (a : Qc) (v w : list Qc) : list Qc :=
  zip_with (λ x y, (a * x + y)%Qc) v w.

End HessianOperator.

(** ** experiment.py: the trajectory length of a run *)

Module Experiment.

Import Hessian.

(** [l[:stop]] with Python's treatment of a negative or too large
    stop. *)
Definition slice_to {A} (stop : Z) (l : list A) : list A :=
  let n := Z.of_nat (length l) in
  let s := if stop <? 0 then Z.max (stop + n) 0 else Z.min stop n in
  take (Z.to_nat s) l.

(** [l[-1]] *)
Definition last_item (l : list Qc) : result Qc :=
  match reverse l with
  | x :: _ => Ok x
  | [] => Err (Raise "IndexError" "list index out of range")
  end.

(** [run_experiment], after the call of [compute_trajectory_length]:
    the list is cut or padded to [max_iterations] entries. *)
Definition fit_trajectory_length (traj_length : list Qc) (max_iterations : Z)
  : result (list Qc) :=
  let len := Z.of_nat (length traj_length) in
  if max_iterations <? len then Ok (slice_to max_iterations traj_length)
  else if len <? max_iterations then
    final ← last_item traj_length;
    Ok (traj_length ++ replicate (Z.to_nat (max_iterations - len)) final)
  else Ok traj_length.

Section WithTraining.

(** The square root of the tensor library. *)
Variable tsqrt : Qc → Qc.

(** What one pass of the training loop does to the model and the
    optimizer, when it returns, and the flat parameter vector of the
    model. *)
Variable run : Type.
Variable iteration : run → run.
Variable parameters_to_vector : run → list Qc.

(** The training loop of [run_experiment], as far as it fills
    [parameter_history]: the initial parameters, then the parameters
    after every iteration. *)
Fixpoint training_loop (iterations : nat) (r : run)
    (parameter_history : list (list Qc)) : list (list Qc) :=
  match iterations with
  | O => parameter_history
  | S k =>
      let r := iteration r in
      training_loop k r (parameter_history ++ [parameters_to_vector r])
  end.

(** The entry ['trajectory_length'] of the metrics of a run whose
    iterations return. *)
Definition trajectory_length_metric (initial : run) (max_iterations : Z)
  : result (list Qc) :=
  let parameter_history :=
    training_loop (Z.to_nat max_iterations) initial
      [parameters_to_vector initial] in
  traj_length ← compute_trajectory_length tsqrt parameter_history;
  fit_trajectory_length traj_length max_iterations.

End WithTraining.

End Experiment.

(** ** optimizers/gradient_descent.py and optimizers/mirror_descent.py *)

Module Optimizers.

Local Open Scope Qc_scope.

(** A parameter tensor, flattened: its values, its [.grad] ([None] or a
    tensor of the parameter's shape, as torch keeps it), and the two
    attributes the optimizers read. *)
Record parameter : Type := {
  data : list Qc;
  grad : option (list Qc);
  requires_grad : bool;
  is_simplex : bool
}.

Definition with_data (p : parameter) (d : list Qc) : parameter :=
  {| data := d; grad := grad p; requires_grad := requires_grad p;
     is_simplex := is_simplex p |}.

(** [p.grad = g], what the backward pass of an iteration leaves. *)
Definition with_grad (p : parameter) (g : list Qc) : parameter :=
  {| data := data p; grad := Some g; requires_grad := requires_grad p;
     is_simplex := is_simplex p |}.

(** [x.add(y, alpha=alpha)] for tensors of one shape. *)
Definition add (x y : list Qc) (alpha : Qc) : list Qc :=
  zip_with (λ a b, a + alpha * b) x y.

(** [x.mul(c)] *)
Definition mul (x : list Qc) (c : Qc) : list Qc := (λ a, a * c) <$> x.

Definition zeros_like (x : list Qc) : list Qc := (λ _, 0) <$> x.

(** [torch.clamp(x, min=lo, max=hi)] *)
Definition clamp (lo hi : option Qc) (x : list Qc) : list Qc :=
  (λ a,
     let a := match lo with
              | Some l => if Qclt_le_dec a l then l else a
              | None => a
              end in
     match hi with
     | Some h => if Qclt_le_dec h a then h else a
     | None => a
     end) <$> x.

Module GradientDescent.

Record t : Type := { lr : Qc; params : list parameter }.

(** The loop body of [step]. *)
Definition update (lr : Qc) (p : parameter) : parameter :=
  match grad p with
  | None => p
  | Some grad => with_data p (add (data p) grad (- lr))
  end.

(** [step()], without a closure. *)
Definition step (o : t) : t :=
  {| lr := lr o; params := update (lr o) <$> params o |}.

End GradientDescent.

Module SGD.

(** The optimizer and, for every parameter, the ['momentum_buffer'] of
    its state, [None] while the state has none. *)
Record t : Type := {
  lr : Qc;
  momentum : Qc;
  dampening : Qc;
  weight_decay : Qc;
  nesterov : bool;
  params : list parameter;
  state : list (option (list Qc))
}.

(** The loop body of [step]: the parameter and its buffer afterwards. *)
Definition update (o : t) (p : parameter) (buffer : option (list Qc))
  : parameter * option (list Qc) :=
  match grad p with
  | None => (p, buffer)
  | Some grad =>
      let grad :=
        if decide (weight_decay o ≠ 0) then add grad (data p) (weight_decay o)
        else grad in
      let '(grad, buffer) :=
        if decide (momentum o ≠ 0) then
          let buf :=
            match buffer with
            | None => add (mul (zeros_like (data p)) (momentum o)) grad 1
            | Some buf => add (mul buf (momentum o)) grad (1 - dampening o)
            end in
          (if nesterov o then add grad buf (momentum o) else buf, Some buf)
        else (grad, buffer) in
      (with_data p (add (data p) grad (- lr o)), buffer)
  end.

(** [step()], without a closure. *)
Definition step (o : t) : t :=
  let updated :=
    zip_with (update o) (params o)
      (state o ++ replicate (length (params o) - length (state o)) None) in
  {| lr := lr o; momentum := momentum o; dampening := dampening o;
     weight_decay := weight_decay o; nesterov := nesterov o;
     params := fst <$> updated; state := snd <$> updated |}.

End SGD.

Module MirrorDescent.

(** The optimizer and, for every parameter, the ['dual'] of its state,
    [None] while the state has none. *)
Record t : Type := {
  lr : Qc;
  dgf : string;
  epsilon : Qc;
  params : list parameter;
  state : list (option (list Qc))
}.

Section WithTorch.

(** [torch.exp], and the division of a tensor by its sums along its
    first dimension. *)
Variable texp : Qc → Qc.
Variable div_sum_dim0 : list Qc → list Qc.

(** The loop body of [step]: the parameter and its dual afterwards. *)
Definition update (o : t) (p : parameter) (dual : option (list Qc))
  : result (parameter * option (list Qc)) :=
  match grad p with
  | None => Ok (p, dual)
  | Some grad =>
      if String.eqb (dgf o) "squared_l2" then
        let d := add (data p) grad (- lr o) in
        Ok (with_data p d, Some d)
      else if String.eqb (dgf o) "neg_entropy" then
        match dual with
        | None => Err (Raise "KeyError" "dual")
        | Some dual =>
            let dual := add dual grad (- lr o) in
            let d := texp <$> clamp (Some (- Qc_of_Z 88)) (Some (Qc_of_Z 88)) dual in
            let d := if is_simplex p then div_sum_dim0 d else d in
            Ok (with_data p d, Some dual)
        end
      else Ok (p, dual)
  end.

(** The loop of [step] over the parameters that are left, after those
    in [done]: an exception leaves the later parameters as they
    were. *)
Fixpoint update_all (o : t) (todo : list (parameter * option (list Qc)))
  : list (parameter * option (list Qc)) * result () :=
  match todo with
  | [] => ([], Ok ())
  | (p, dual) :: rest =>
      match update o p dual with
      | Ok pd =>
          let '(rest', r) := update_all o rest in (pd :: rest', r)
      | Err e => (todo, Err e)
      end
  end.

(** [step()], without a closure. *)
Definition step (o : t) : t * result () :=
  let '(updated, r) :=
    update_all o
      (zip (params o)
         (state o ++ replicate (length (params o) - length (state o)) None)) in
  ({| lr := lr o; dgf := dgf o; epsilon := epsilon o;
      params := fst <$> updated; state := snd <$> updated |}, r).

End WithTorch.

End MirrorDescent.

(** *** Constructors *)

Section WithOptimizer.

(** [torch.optim.Optimizer.__init__]: it raises for the parameter lists
    it does not accept. *)
Variable optimizer_init : list parameter → result ().

(** [torch.log] *)
Variable tlog : Qc → Qc.

(** [torch.optim.Adam] and its constructor. *)
Variable adam : Type.
Variable Adam : list parameter → Qc → Qc * Qc → Qc → Qc → result adam.

Definition GradientDescent_init (params : list parameter) (lr : Qc)
  : result GradientDescent.t :=
  _ ← optimizer_init params;
  Ok {| GradientDescent.lr := lr; GradientDescent.params := params |}.

Definition SGD_init (params : list parameter)
    (lr momentum dampening weight_decay : Qc) (nesterov : bool)
  : result SGD.t :=
  if nesterov
     && (bool_decide (momentum ≤ 0) || bool_decide (dampening ≠ 0))
  then Err (Raise "ValueError"
              "Nesterov momentum requires a momentum and zero dampening")
  else
    _ ← optimizer_init params;
    Ok {| SGD.lr := lr; SGD.momentum := momentum; SGD.dampening := dampening;
          SGD.weight_decay := weight_decay; SGD.nesterov := nesterov;
          SGD.params := params; SGD.state := [] |}.

(** The message of the first exception carries the number as Python
    prints it; it is left out here. *)
Definition MirrorDescent_init (params : list parameter) (lr : Qc)
    (dgf : string) (epsilon : Qc) : result MirrorDescent.t :=
  if bool_decide (lr < 0)
  then Err (Raise "ValueError" "Invalid learning rate")
  else if negb (bool_decide (dgf ∈ ["squared_l2"; "neg_entropy"]%string))
  then Err (Raise "ValueError"
              ("Invalid dgf: " +:+ dgf
               +:+ ". Must be one of ['squared_l2', 'neg_entropy']"))
  else
    _ ← optimizer_init params;
    Ok {| MirrorDescent.lr := lr; MirrorDescent.dgf := dgf;
          MirrorDescent.epsilon := epsilon;
          MirrorDescent.params := params;
          MirrorDescent.state :=
            (λ p, if requires_grad p then
                    if String.eqb dgf "squared_l2" then Some (data p)
                    else if String.eqb dgf "neg_entropy" then
                      Some (tlog <$> clamp (Some epsilon) None (data p))
                    else None
                  else None) <$> params |}.

Definition create_gradient_descent (params : list parameter) (lr : Qc)
  : result GradientDescent.t :=
  GradientDescent_init params lr.

Definition create_sgd (params : list parameter) (lr : Qc)
    (batch_size : option Z) (momentum weight_decay : Qc) (nesterov : bool)
  : result SGD.t :=
  SGD_init params lr momentum 0 weight_decay nesterov.

Definition create_polyak_momentum (params : list parameter)
    (lr beta weight_decay : Qc) : result SGD.t :=
  SGD_init params lr beta 0 weight_decay false.

Definition create_nesterov_momentum (params : list parameter)
    (lr beta weight_decay : Qc) : result SGD.t :=
  SGD_init params lr beta 0 weight_decay true.

Definition create_mirror_descent (params : list parameter) (lr : Qc)
    (dgf : string) : result MirrorDescent.t :=
  MirrorDescent_init params lr dgf (Q2Qc (1 # 100000000)).

(** *** optimizers/optimizer_utils.py *)

(** The keyword arguments [create_optimizer] reads, each absent or of
    the type the constructors compute with. *)
Record kwargs : Type := {
  learning_rate : option Qc;
  batch_size : option (option Z);
  kw_momentum : option Qc;
  kw_weight_decay : option Qc;
  kw_nesterov : option bool;
  beta1 : option Qc;
  beta2 : option Qc;
  kw_epsilon : option Qc;
  kw_dgf : option string;
  beta : option Qc
}.

Inductive optimizer : Type :=
  | OfGradientDescent (o : GradientDescent.t)
  | OfSGD (o : SGD.t)
  | OfAdam (o : adam)
  | OfMirrorDescent (o : MirrorDescent.t).

(** [return] of the optimizer a constructor gave, or its exception. *)
Definition returned {A} (tag : A → optimizer) (r : result A)
  : result optimizer :=
  match r with
  | Ok o => Ok (tag o)
  | Err e => Err e
  end.

Definition create_optimizer (optimizer_type : string)
    (params : list parameter) (kw : kwargs) : result optimizer :=
  let optimizer_type := lower optimizer_type in
  let lr := default (Q2Qc (1 # 100)) (learning_rate kw) in
  if String.eqb optimizer_type "gd" then
    returned OfGradientDescent (create_gradient_descent params lr)
  else if String.eqb optimizer_type "sgd" then
    let batch_size := default None (batch_size kw) in
    let momentum := default 0 (kw_momentum kw) in
    let weight_decay := default 0 (kw_weight_decay kw) in
    let nesterov := default false (kw_nesterov kw) in
    returned OfSGD (create_sgd params lr batch_size momentum weight_decay nesterov)
  else if String.eqb optimizer_type "adam" then
    let beta1 := default (Q2Qc (9 # 10)) (beta1 kw) in
    let beta2 := default (Q2Qc (999 # 1000)) (beta2 kw) in
    let epsilon := default (Q2Qc (1 # 100000000)) (kw_epsilon kw) in
    let weight_decay := default 0 (kw_weight_decay kw) in
    returned OfAdam (Adam params lr (beta1, beta2) epsilon weight_decay)
  else if String.eqb optimizer_type "mirror" then
    let dgf := default "squared_l2"%string (kw_dgf kw) in
    returned OfMirrorDescent (create_mirror_descent params lr dgf)
  else if String.eqb optimizer_type "polyak" then
    let beta := default (Q2Qc (9 # 10)) (beta kw) in
    let weight_decay := default 0 (kw_weight_decay kw) in
    returned OfSGD (create_polyak_momentum params lr beta weight_decay)
  else if String.eqb optimizer_type "nesterov" then
    let beta := default (Q2Qc (9 # 10)) (beta kw) in
    let weight_decay := default 0 (kw_weight_decay kw) in
    returned OfSGD (create_nesterov_momentum params lr beta weight_decay)
  else
    Err (Raise "ValueError"
           ("Optimizer type '" +:+ optimizer_type +:+ "' not recognized")).

End WithOptimizer.

Definition optimizer_exists (optimizer_type : string) : bool :=
  bool_decide
    (lower optimizer_type
     ∈ ["gd"; "sgd"; "adam"; "mirror"; "polyak"; "nesterov"]%string).

(** A parameter of three entries with a gradient, and defaults for
    the library's constructors. *)
Definition sample_parameter : parameter :=
  {| data := rationals [1; 2; 3]%Z; grad := Some (rationals [1; 0; -1]%Z);
     requires_grad := true; is_simplex := false |}.

Definition accept_nonempty (params : list parameter) : result () :=
  match params with
  | [] => Err (Raise "ValueError" "optimizer got an empty parameter list")
  | _ => Ok ()
  end.

Definition sample_sgd (momentum : Qc) : SGD.t :=
  {| SGD.lr := Q2Qc (1 # 2); SGD.momentum := momentum; SGD.dampening := 0;
     SGD.weight_decay := 0; SGD.nesterov := false;
     SGD.params := [sample_parameter]; SGD.state := [] |}.

Definition sample_mirror : MirrorDescent.t :=
  {| MirrorDescent.lr := Q2Qc (1 # 2); MirrorDescent.dgf := "squared_l2";
     MirrorDescent.epsilon := Q2Qc (1 # 100000000);
     MirrorDescent.params := [sample_parameter];
     MirrorDescent.state := [Some (rationals [1; 2; 3]%Z)] |}.

Definition no_kwargs : kwargs :=
  {| learning_rate := None; batch_size := None; kw_momentum := None;
     kw_weight_decay := None; kw_nesterov := None; beta1 := None;
     beta2 := None; kw_epsilon := None; kw_dgf := None; beta := None |}.

End Optimizers.

(** ** models/architectures.py: the fully connected network *)

Module Architectures.

Import Activation Initialization.

(** The modules [create_fc_network] puts in the [nn.Sequential]. *)
Inductive sequential_item : Type :=
  | OfLinear (l : layer)
  | OfActivation (m : Activation.module).

Section WithTorch.

(** [nn.Linear(in_features, out_features)] and [torch.nn.init]. *)
Variable nn_Linear : Z → Z → result layer.
Variable nn_init : init_fn → tensor → result tensor.

(** The loop body, for index [i] of [layer_sizes]. *)
Definition add_fc_layer (layer_sizes : list Z)
    (activation init_method : string) (layers : list sequential_item)
    (i : nat) : result (list sequential_item) :=
  layer ← nn_Linear (layer_sizes !!! i) (layer_sizes !!! (i + 1)%nat);
  let '(layer, r) := initialize_weights nn_init layer init_method in
  _ ← r;
  let layers := layers ++ [OfLinear layer] in
  if (i <? length layer_sizes - 2)%nat then
    act ← get_activation activation;
    Ok (layers ++ [OfActivation act])
  else Ok layers.

Definition create_fc_network (input_size output_size : Z)
    (hidden_sizes : list Z) (activation init_method : string)
  : result (list sequential_item) :=
  let layer_sizes := [input_size] ++ hidden_sizes ++ [output_size] in
  for_each (add_fc_layer layer_sizes activation init_method)
    (seq 0 (length layer_sizes - 1)) [].

End WithTorch.

(** The items of a network of [k] hidden layers: layer [i] as [built]
    gives it, an activation after every layer but the last. *)
Definition fc_items (built : nat → layer) (act : Activation.module)
    (k : nat) : list sequential_item :=
  flat_map (λ i, [OfLinear (built i); OfActivation act]) (seq 0 k)
  ++ [OfLinear (built k)].

(** A constructor that gives every layer a weight matrix and a bias
    vector of ones. *)
Definition sample_Linear (in_features out_features : Z) : result layer :=
  let i := Z.to_nat in_features in
  let o := Z.to_nat out_features in
  Ok {| weight := Attr {| shape := [o; i]; data := replicate (o * i) 1%Qc |};
        bias := Attr {| shape := [o]; data := replicate o 1%Qc |} |}.

(** Layer [i] of a network over [layer_sizes], built by [sample_Linear]
    and initialized by [torch_init]. *)
Definition sample_built (layer_sizes : list Z) (init_method : string)
    (i : nat) : layer :=
  match sample_Linear (layer_sizes !!! i) (layer_sizes !!! (i + 1)%nat) with
  | Ok l => fst (initialize_weights torch_init l init_method)
  | Err _ => linear_layer
  end.

End Architectures.

(** * Properties *)

(** ** Results and loops *)

Lemma for_each_cons {A S} (body : S → A → result S) (x : A) (xs : list A)
    (s : S) :
  for_each body (x :: xs) s = s' ← body s x; for_each body xs s'.
Proof. reflexivity. Qed.

Lemma for_each_app {A S} (body : S → A → result S) (xs ys : list A) (s : S) :
  for_each body (xs ++ ys) s = s' ← for_each body xs s; for_each body ys s'.
Proof.
  revert s. induction xs as [|x xs IH]; intros s; simpl; [done|].
  destruct (body s x); simpl; [apply IH | done].
Qed.

(** Membership in a list that is written out. *)
Ltac in_list := by repeat first [left | right].

Lemma fails_with_Ok {A} (cls : string) (a : A) : ¬ fails_with cls (Ok a).
Proof. intros [msg H]. discriminate. Qed.

Lemma fails_with_Err {A} (cls cls' msg : string) :
  fails_with (A:=A) cls (Err (Raise cls' msg)) ↔ cls = cls'.
Proof.
  split.
  - intros [msg' H]. by inversion H.
  - intros ->. by exists msg.
Qed.

(** ** Strings *)

Lemma lower_char_idemp (c : ascii) : lower_char (lower_char c) = lower_char c.
Proof.
  destruct c as [[] [] [] [] [] [] [] []]; reflexivity.
Qed.

Lemma lower_idemp (s : string) : lower (lower s) = lower s.
Proof.
  induction s as [|c s IH]; simpl; [done|].
  by rewrite lower_char_idemp, IH.
Qed.

(** ** utils/activation.py *)

Module ActivationProps.
Import Activation.

Example get_activation_mixed_case : get_activation "TanH" = Ok Tanh.
Proof. reflexivity. Qed.

Example get_activation_unknown :
  get_activation "GELU"
  = Err (Raise "ValueError" "Activation function 'gelu' not recognized").
Proof. reflexivity. Qed.

Lemma lookup_activations (s : string) :
  activations !! s =
    if decide (s = "relu") then Some ReLU
    else if decide (s = "sigmoid") then Some Sigmoid
    else if decide (s = "tanh") then Some Tanh
    else if decide (s = "softmax") then Some (Softmax 1)
    else if decide (s = "leaky_relu") then Some (LeakyReLU (Q2Qc (1 # 100)))
    else None.
Proof.
  unfold activations.
  repeat (rewrite lookup_insert; case_decide; simplify_eq;
          [by repeat (case_decide; simplify_eq)|]).
  rewrite lookup_empty.
  by repeat (case_decide; simplify_eq).
Qed.

(** C10. The lookup is case-insensitive, for every name and whatever
    [str.lower] does outside ASCII: the result depends only on the
    lowercased name; when the lowercased name is one of the five keys the
    module of that key is returned, and [ValueError] is raised exactly
    when it is none of them. *)
Theorem get_activation_case_insensitive (str_lower : string → string)
    (activation_name : string) :
  (∀ other, str_lower other = str_lower activation_name →
       get_activation_with str_lower other
       = get_activation_with str_lower activation_name)
  ∧ (str_lower (str_lower activation_name) = str_lower activation_name →
       get_activation_with str_lower activation_name
       = get_activation_with str_lower (str_lower activation_name))
  ∧ (str_lower activation_name = "relu" →
       get_activation_with str_lower activation_name = Ok ReLU)
  ∧ (str_lower activation_name = "sigmoid" →
       get_activation_with str_lower activation_name = Ok Sigmoid)
  ∧ (str_lower activation_name = "tanh" →
       get_activation_with str_lower activation_name = Ok Tanh)
  ∧ (str_lower activation_name = "softmax" →
       get_activation_with str_lower activation_name = Ok (Softmax 1))
  ∧ (str_lower activation_name = "leaky_relu" →
       get_activation_with str_lower activation_name
       = Ok (LeakyReLU (Q2Qc (1 # 100))))
  ∧ (str_lower activation_name ∈ supported →
       succeeds (get_activation_with str_lower activation_name))
  ∧ (fails_with "ValueError" (get_activation_with str_lower activation_name)
       ↔ str_lower activation_name ∉ supported)
  ∧ (∀ cls, fails_with cls (get_activation_with str_lower activation_name) →
       cls = "ValueError"%string).
Proof.
  unfold get_activation_with, supported.
  split; [by intros other ->|].
  split; [by intros ->|].
  rewrite lookup_activations.
  repeat split.
  - by intros ->.
  - by intros ->.
  - by intros ->.
  - by intros ->.
  - by intros ->.
  - intros Hin. repeat case_decide; try by eexists.
    exfalso. repeat (apply elem_of_cons in Hin as [?|Hin]; [done|]).
    by apply elem_of_nil in Hin.
  - intros Hf. repeat case_decide; try by (apply fails_with_Ok in Hf).
    intros Hin. repeat (apply elem_of_cons in Hin as [?|Hin]; [done|]).
    by apply elem_of_nil in Hin.
  - intros Hnin.
    repeat (case_decide;
            [exfalso; apply Hnin;
             match goal with H : str_lower _ = _ |- _ => rewrite H end;
             in_list|]).
    by apply fails_with_Err.
  - intros cls Hf. repeat case_decide; try by (apply fails_with_Ok in Hf).
    by apply fails_with_Err in Hf.
Qed.

Lemma get_activation_case_insensitive_witness :
  get_activation_with lower "Leaky_ReLU" = Ok (LeakyReLU (Q2Qc (1 # 100)))
  ∧ get_activation_with lower "RELU" = get_activation_with lower "relu".
Proof.
  split.
  - apply (get_activation_case_insensitive lower "Leaky_ReLU"). reflexivity.
  - apply (get_activation_case_insensitive lower "relu"). reflexivity.
Defined.

End ActivationProps.

(** ** utils/initialization.py *)

Module InitializationProps.
Import Initialization.

Lemma fill_zero_data (t : tensor) : Forall (λ x, x = 0%Qc) (data (fill 0%Qc t)).
Proof.
  unfold fill; simpl. induction (data t); constructor; auto.
Qed.

Lemma init_weight_cases nn_init f (l : layer) w :
  weight l = Attr w →
  (∃ w', nn_init f w = Ok w'
         ∧ init_weight nn_init f l = ({| weight := Attr w'; bias := bias l |}, Ok ()))
  ∨ (∃ e, nn_init f w = Err e ∧ init_weight nn_init f l = (l, Err e)).
Proof.
  intros Hw. unfold init_weight. rewrite Hw.
  destruct (nn_init f w) as [w'|e]; [left|right]; eauto.
Qed.

(** C9 (amended). For a layer whose weight and bias hold tensors and a
    supported method name (in any letter case): when the call returns,
    every entry of the bias is zero and the weight is what its
    initializer produced; when the weight initializer raises, the call
    raises the same exception and leaves the layer as it was; the call
    returns whenever the initializers accept the weight. *)
Theorem initialize_weights_bias_zero
    (nn_init : init_fn → tensor → result tensor)
    (l : layer) (method : string) (w b : tensor) :
  weight l = Attr w →
  bias l = Attr b →
  initialization_exists method = true →
  match initialize_weights nn_init l method with
  | (l', Ok _) =>
      bias l' = Attr (fill 0%Qc b)
      ∧ Forall (λ x, x = 0%Qc) (data (fill 0%Qc b))
      ∧ ∃ f w', nn_init f w = Ok w' ∧ weight l' = Attr w'
  | (l', Err e) => l' = l ∧ ∃ f, nn_init f w = Err e
  end
  ∧ ((∀ f, succeeds (nn_init f w)) →
     snd (initialize_weights nn_init l method) = Ok ()).
Proof.
  intros Hw Hb Hm.
  unfold initialization_exists in Hm. apply bool_decide_eq_true in Hm.
  unfold initialize_weights. rewrite Hw.
  assert (Hcase : ∀ f,
    match
      (let '(l1, r) := init_weight nn_init f l in
       match r with
       | Err e => (l1, Err e)
       | Ok _ =>
           match bias l1 with
           | Attr b0 => ({| weight := weight l1; bias := Attr (fill 0%Qc b0) |}, Ok ())
           | _ => (l1, Ok ())
           end
       end)
    with
    | (l', Ok _) =>
        bias l' = Attr (fill 0%Qc b)
        ∧ Forall (λ x, x = 0%Qc) (data (fill 0%Qc b))
        ∧ ∃ f w', nn_init f w = Ok w' ∧ weight l' = Attr w'
    | (l', Err e) => l' = l ∧ ∃ f, nn_init f w = Err e
    end
    ∧ ((∀ f, succeeds (nn_init f w)) →
       snd (let '(l1, r) := init_weight nn_init f l in
            match r with
            | Err e => (l1, Err e)
            | Ok _ =>
                match bias l1 with
                | Attr b0 => ({| weight := weight l1; bias := Attr (fill 0%Qc b0) |}, Ok ())
                | _ => (l1, Ok ())
                end
            end) = Ok ())).
  { intros f.
    destruct (init_weight_cases nn_init f l w Hw) as [(w' & Hi & ->)|(e & Hi & ->)];
      simpl; rewrite ?Hb; simpl.
    - split; [|done]. split; [done|]. split; [apply fill_zero_data|]. eauto.
    - split; [eauto|]. intros Hall. destruct (Hall f) as [w' Hw']. congruence. }
  repeat (apply elem_of_cons in Hm as [->|Hm]; [apply Hcase|]).
  by apply elem_of_nil in Hm.
Qed.

Lemma initialize_weights_bias_zero_witness :
  bias (fst (initialize_weights torch_init linear_layer "Kaiming"))
    = Attr {| shape := [2]%nat; data := [0; 0]%Qc |}.
Proof.
  pose proof (initialize_weights_bias_zero torch_init linear_layer "Kaiming" _ _
                eq_refl eq_refl eq_refl) as [H _].
  destruct (initialize_weights torch_init linear_layer "Kaiming")
    as [l' [[]|e]] eqn:E.
  - apply H.
  - exfalso. vm_compute in E. discriminate.
Defined.

(** C9 fails as stated: a layer with a one-dimensional weight (a
    normalisation layer) and the method 'xavier'.  The initializer of
    the weight raises and the bias keeps its entries. *)
Lemma initialize_weights_bias_not_zero :
  initialization_exists "xavier" = true
  ∧ fails_with "ValueError"
      (snd (initialize_weights torch_init norm_layer "xavier"))
  ∧ bias (fst (initialize_weights torch_init norm_layer "xavier"))
      = Attr {| shape := [3]%nat; data := [1; 1; 1]%Qc |}.
Proof.
  split; [reflexivity|]. split; [|reflexivity].
  eexists. reflexivity.
Qed.

End InitializationProps.

(** ** analysis/eigenvector_analysis.py: the parameter index *)

Module StringProps.

Lemma append_cons (c : ascii) (s1 s2 : string) :
  String c s1 +:+ s2 = String c (s1 +:+ s2).
Proof. reflexivity. Qed.

Lemma append_nil (s : string) : "" +:+ s = s.
Proof. reflexivity. Qed.

Lemma contains_dot_occurs (s : string) :
  contains_dot s = true ↔ occurs dot s.
Proof.
  induction s as [|c s IH]; simpl.
  - split; [done|]. intros (s1 & s2 & H). by destruct s1.
  - destruct (Ascii.eqb_spec c dot) as [->|Hne].
    + split; [|done]. intros _. by exists "", s.
    + rewrite IH. split.
      * intros (s1 & s2 & ->). by exists (String c s1), s2.
      * intros (s1 & s2 & H). destruct s1 as [|c1 s1]; simpl in H.
        -- by inversion H.
        -- inversion H; subst. by exists s1, s2.
Qed.

Lemma split_dot_first_no_dot (s : string) :
  contains_dot (split_dot_first s) = false.
Proof.
  induction s as [|c s IH]; simpl; [done|].
  destruct (Ascii.eqb c dot) eqn:E; simpl; [done|]. by rewrite E.
Qed.

Lemma split_dot_first_prefix (s : string) :
  contains_dot s = true →
  ∃ rest, s = split_dot_first s +:+ String dot rest.
Proof.
  induction s as [|c s IH]; simpl; [done|].
  destruct (Ascii.eqb_spec c dot) as [->|Hne].
  - intros _. by exists s.
  - intros H. destruct (IH H) as [rest Hr]. exists rest.
    change (String c s = String c (split_dot_first s +:+ String dot rest)).
    by rewrite <-Hr.
Qed.

Lemma substring_all (s : string) : substring 0 (String.length s) s = s.
Proof. induction s; simpl; congruence. Qed.

Lemma substring_app_r (pre suffix : string) :
  substring (String.length pre) (String.length suffix) (pre +:+ suffix) = suffix.
Proof.
  induction pre as [|c pre IH]; [apply substring_all|].
  rewrite append_cons. simpl. exact IH.
Qed.

Lemma length_app (s1 s2 : string) :
  String.length (s1 +:+ s2) = (String.length s1 + String.length s2)%nat.
Proof.
  induction s1; [done|]. rewrite append_cons. simpl. congruence.
Qed.

Lemma substring_split (s : string) (m : nat) :
  (m ≤ String.length s)%nat →
  s = substring 0 m s +:+ substring m (String.length s - m) s.
Proof.
  revert m. induction s as [|c s IH]; intros m Hm; simpl in *.
  - by destruct m.
  - destruct m as [|m]; simpl.
    + by rewrite append_nil, substring_all.
    + rewrite append_cons. f_equal. apply IH. lia.
Qed.

Lemma endswith_has_suffix (s suffix : string) :
  endswith s suffix = true ↔ has_suffix suffix s.
Proof.
  unfold endswith, has_suffix. split.
  - destruct (Nat.leb_spec (String.length suffix) (String.length s)) as [Hle|]; [|done].
    intros H. apply String.eqb_eq in H.
    exists (substring 0 (String.length s - String.length suffix) s).
    pose proof (substring_split s (String.length s - String.length suffix)) as Hs.
    replace (String.length s - (String.length s - String.length suffix))%nat
      with (String.length suffix) in Hs by lia.
    rewrite H in Hs. apply Hs. lia.
  - intros [pre ->]. rewrite length_app.
    destruct (Nat.leb_spec (String.length suffix)
                (String.length pre + String.length suffix)) as [_|]; [|lia].
    replace (String.length pre + String.length suffix - String.length suffix)%nat
      with (String.length pre) by lia.
    rewrite substring_app_r. apply String.eqb_refl.
Qed.

End StringProps.

Module IndexProps.
Import EigenvectorAnalysis StringProps.

Local Open Scope nat_scope.

Example small_index_weight :
  small_index !! 1
  = Some {| name := "fc.weight"; layer := "fc"; coordinates := [0; 1];
            shape := [1; 2]; type := "weight" |}.
Proof. reflexivity. Qed.

Example small_index_bias :
  small_index !! 2
  = Some {| name := "fc.bias"; layer := "fc"; coordinates := [0];
            shape := [1]; type := "bias" |}.
Proof. reflexivity. Qed.

Example small_index_end : small_index !! 3 = None.
Proof. reflexivity. Qed.

Example unravel_index_matrix : unravel_index 5 [2; 3] = Ok [1; 2].
Proof. reflexivity. Qed.

(** *** Coordinates *)

Lemma numel_cons (d : nat) (rest : list nat) :
  numel (d :: rest) = d * numel rest.
Proof. reflexivity. Qed.

Lemma unravel_valid (shape : list nat) (i : nat) :
  i < numel shape → valid_coord (unravel i shape) shape.
Proof.
  revert i. induction shape as [|d rest IH]; intros i Hi; simpl.
  - constructor.
  - rewrite numel_cons in Hi.
    assert (0 < numel rest) by (destruct (numel rest); lia).
    constructor.
    + apply Nat.Div0.div_lt_upper_bound. lia.
    + apply IH. apply Nat.mod_upper_bound. lia.
Qed.

Lemma ravel_unravel (shape : list nat) (i : nat) :
  i < numel shape → ravel (unravel i shape) shape = i.
Proof.
  revert i. induction shape as [|d rest IH]; intros i Hi; simpl.
  - unfold numel in Hi; simpl in Hi. lia.
  - rewrite numel_cons in Hi.
    assert (0 < numel rest) by (destruct (numel rest); lia).
    rewrite IH by (apply Nat.mod_upper_bound; lia).
    pose proof (Nat.div_mod_eq i (numel rest)). lia.
Qed.

Lemma ravel_lt (coord shape : list nat) :
  valid_coord coord shape → ravel coord shape < numel shape.
Proof.
  induction 1 as [|c d coord rest Hc _ IH]; simpl.
  - unfold numel; simpl. lia.
  - fold (numel rest) in *. nia.
Qed.

Lemma unravel_ravel (coord shape : list nat) :
  valid_coord coord shape → unravel (ravel coord shape) shape = coord.
Proof.
  induction 1 as [|c d coord rest Hc Hv IH]; simpl; [done|].
  pose proof (ravel_lt _ _ Hv) as Hlt.
  f_equal.
  - symmetry. apply (Nat.div_unique _ _ _ (ravel coord rest)); lia.
  - rewrite <-IH at 2. f_equal.
    symmetry. apply (Nat.mod_unique _ _ c); lia.
Qed.

(** *** The inner loop *)

Section Inner.
Variables (nm : string) (shp : list nat) (base : nat).

Lemma add_entries (n : nat) (m : gmap nat param_info) :
  n ≤ numel shp →
  ∃ m', for_each (add_entry nm shp base) (seq 0 n) m = Ok m'
        ∧ ∀ k, m' !! k =
            if decide (base ≤ k < base + n)
            then Some (entry_at nm shp (k - base))
            else m !! k.
Proof.
  induction n as [|n IH]; intros Hn.
  - exists m. split; [done|]. intros k. case_decide; [lia|done].
  - destruct IH as (m1 & Hm1 & Hl); [lia|].
    rewrite seq_S, for_each_app, Hm1. simpl.
    unfold add_entry at 1, unravel_index.
    destruct (Nat.ltb_spec n (numel shp)) as [_|]; [|lia]. simpl.
    eexists. split; [done|].
    intros k. rewrite lookup_insert. case_decide as Hk.
    + subst k. case_decide; [|lia].
      unfold entry_at. by replace (base + n - base) with n by lia.
    + rewrite Hl. repeat case_decide; try done; lia.
Qed.

End Inner.

(** *** The outer loop *)

Lemma total_numel_cons (p : string * list nat) (model : named_parameters) :
  total_numel (p :: model) = numel (snd p) + total_numel model.
Proof. reflexivity. Qed.

Lemma locate_below (model : named_parameters) (base k : nat) :
  k < base → locate model base k = None.
Proof.
  revert base. induction model as [|[nm shp] model IH]; intros base Hk; simpl; [done|].
  case_decide; [lia|]. apply IH. lia.
Qed.

Lemma add_parameters (model : named_parameters) (m : gmap nat param_info)
    (base : nat) :
  ∃ m', for_each add_parameter model (m, base)
          = Ok (m', base + total_numel model)
        ∧ ∀ k, m' !! k =
            match locate model base k with
            | Some info => Some info
            | None => m !! k
            end.
Proof.
  revert m base. induction model as [|[nm shp] model IH]; intros m base.
  - exists m. split; [|done]. simpl. unfold total_numel. simpl.
    by rewrite Nat.add_0_r.
  - simpl.
    destruct (add_entries nm shp base (numel shp) m) as (m1 & -> & Hl1); [done|].
    simpl.
    destruct (IH m1 (base + numel shp)) as (m2 & -> & Hl2).
    exists m2. split.
    + rewrite total_numel_cons. simpl. by rewrite Nat.add_assoc.
    + intros k. rewrite Hl2, Hl1.
      case_decide as Hk.
      * rewrite locate_below by lia. done.
      * done.
Qed.

Lemma create_parameter_mapping_lookup (model : named_parameters) :
  ∃ mapping, create_parameter_mapping model = Ok mapping
             ∧ ∀ k, mapping !! k = locate model 0 k.
Proof.
  unfold create_parameter_mapping.
  destruct (add_parameters model ∅ 0) as (m & -> & Hl).
  exists m. split; [done|].
  intros k. rewrite Hl, lookup_empty. by destruct (locate model 0 k).
Qed.

(** *** Which tensor a flat offset falls in *)

Lemma offset_0 (model : named_parameters) : offset model 0 = 0.
Proof. reflexivity. Qed.

Lemma offset_S (p : string * list nat) (model : named_parameters) (t : nat) :
  offset (p :: model) (S t) = numel (snd p) + offset model t.
Proof. reflexivity. Qed.

Lemma offset_end (model : named_parameters) (t : nat) (nm : string)
    (shp : list nat) :
  model !! t = Some (nm, shp) →
  offset model t + numel shp ≤ total_numel model.
Proof.
  revert t. induction model as [|p model IH]; intros t Ht; [done|].
  destruct t as [|t]; simpl in Ht.
  - inversion Ht; subst. rewrite offset_0, total_numel_cons. simpl. lia.
  - rewrite offset_S, total_numel_cons. specialize (IH _ Ht). lia.
Qed.

Lemma offset_mono (model : named_parameters) (t t' : nat) (nm : string)
    (shp : list nat) :
  model !! t = Some (nm, shp) → t < t' →
  offset model t + numel shp ≤ offset model t'.
Proof.
  revert t t'. induction model as [|p model IH]; intros t t' Ht Hlt; [done|].
  destruct t' as [|t']; [lia|].
  rewrite offset_S. destruct t as [|t]; simpl in Ht.
  - inversion Ht; subst. rewrite offset_0. simpl. lia.
  - rewrite offset_S. specialize (IH t t' Ht). lia.
Qed.

Lemma locate_Some (model : named_parameters) (base k : nat) (info : param_info) :
  locate model base k = Some info →
  ∃ t nm shp, model !! t = Some (nm, shp)
              ∧ base + offset model t ≤ k < base + offset model t + numel shp
              ∧ info = entry_at nm shp (k - (base + offset model t)).
Proof.
  revert base. induction model as [|[nm shp] model IH]; intros base; simpl; [done|].
  case_decide as Hk.
  - intros [= <-]. exists 0, nm, shp. rewrite offset_0, Nat.add_0_r. done.
  - intros H. destruct (IH _ H) as (t & nm' & shp' & Ht & Hr & ->).
    exists (S t), nm', shp'. rewrite offset_S. simpl.
    split; [done|]. split; [lia|]. f_equal. lia.
Qed.

Lemma locate_at (model : named_parameters) (base t i : nat) (nm : string)
    (shp : list nat) :
  model !! t = Some (nm, shp) → i < numel shp →
  locate model base (base + offset model t + i) = Some (entry_at nm shp i).
Proof.
  revert base t. induction model as [|[nm' shp'] model IH]; intros base t Ht Hi; [done|].
  destruct t as [|t]; simpl in Ht |- *.
  - inversion Ht; subst. rewrite offset_0. case_decide; [|lia].
    do 2 f_equal. lia.
  - rewrite offset_S. simpl. case_decide; [lia|].
    replace (base + (numel shp' + offset model t) + i)
      with (base + numel shp' + offset model t + i) by lia.
    by apply IH.
Qed.

Lemma locate_is_Some (model : named_parameters) (base k : nat) :
  is_Some (locate model base k) ↔ base ≤ k < base + total_numel model.
Proof.
  revert base. induction model as [|[nm shp] model IH]; intros base; simpl.
  - unfold total_numel; simpl. split; [by intros [? ?]|lia].
  - rewrite total_numel_cons. simpl. case_decide as Hk.
    + split; [lia|eauto].
    + rewrite IH. lia.
Qed.

(** *** The index as a whole *)

Lemma layer_of_rule (nm : string) : layer_rule nm (layer_of nm).
Proof.
  unfold layer_rule, layer_of.
  destruct (contains_dot nm) eqn:E.
  - right. destruct (split_dot_first_prefix nm E) as [rest Hr].
    exists rest. split; [done|].
    rewrite <-contains_dot_occurs, split_dot_first_no_dot. done.
  - left. split; [|done]. rewrite <-contains_dot_occurs, E. done.
Qed.

Lemma type_of_rule (nm : string) : kind_rule nm (type_of nm).
Proof.
  unfold kind_rule, type_of.
  destruct (endswith nm "bias") eqn:E.
  - left. split; [|done]. by apply endswith_has_suffix.
  - right. split; [|done]. rewrite <-endswith_has_suffix, E. done.
Qed.

(** C4. The index of a model is built without error; its keys are the
    flat offsets below the total parameter count; every entry is the
    (tensor, coordinate) pair of its offset and every such pair has its
    entry, no two pairs sharing an offset; the layer of an entry is the
    part of its name before the first dot (the name itself when it has
    none) and its kind is bias exactly when the name ends in "bias". *)
Theorem create_parameter_mapping_bijective (model : named_parameters) :
  ∃ mapping,
    create_parameter_mapping model = Ok mapping
    ∧ (∀ k, is_Some (mapping !! k) ↔ k < total_numel model)
    ∧ (∀ k info, mapping !! k = Some info →
         (∃ t, model !! t = Some (name info, shape info)
               ∧ k = offset model t + ravel (coordinates info) (shape info))
         ∧ valid_coord (coordinates info) (shape info)
         ∧ layer_rule (name info) (layer info)
         ∧ kind_rule (name info) (type info)
         ∧ (type info = "bias" ↔ has_suffix "bias" (name info)))
    ∧ (∀ t nm shp coord,
         model !! t = Some (nm, shp) → valid_coord coord shp →
         ∃ info, mapping !! (offset model t + ravel coord shp) = Some info
                 ∧ name info = nm ∧ shape info = shp
                 ∧ coordinates info = coord)
    ∧ (∀ t nm shp coord t' nm' shp' coord',
         model !! t = Some (nm, shp) → valid_coord coord shp →
         model !! t' = Some (nm', shp') → valid_coord coord' shp' →
         offset model t + ravel coord shp = offset model t' + ravel coord' shp' →
         t = t' ∧ coord = coord').
Proof.
  destruct (create_parameter_mapping_lookup model) as (mapping & Hc & Hl).
  exists mapping. split; [done|]. split; [|split; [|split]].
  - intros k. rewrite Hl, locate_is_Some. lia.
  - intros k info. rewrite Hl. intros H.
    apply locate_Some in H as (t & nm & shp & Ht & Hr & ->). simpl in *.
    assert (k - offset model t < numel shp) as Hi by lia.
    split; [|split; [|split; [|split]]].
    + exists t. split; [done|]. rewrite ravel_unravel by done. lia.
    + by apply unravel_valid.
    + apply layer_of_rule.
    + apply type_of_rule.
    + destruct (type_of_rule nm) as [[? ->]|[? ->]]; [done|].
      split; [done|]. intros. done.
  - intros t nm shp coord Ht Hv.
    exists (entry_at nm shp (ravel coord shp)). rewrite Hl.
    split; [|split; [done|split; [done|]]].
    + apply (locate_at model 0). done. by apply ravel_lt.
    + simpl. by apply unravel_ravel.
  - intros t nm shp coord t' nm' shp' coord' Ht Hv Ht' Hv' Heq.
    pose proof (ravel_lt _ _ Hv) as Hlt.
    pose proof (ravel_lt _ _ Hv') as Hlt'.
    assert (t = t') as <-.
    { destruct (Nat.lt_trichotomy t t') as [Hc'|[Hc'|Hc']]; [|done|].
      - pose proof (offset_mono model t t' nm shp Ht Hc'). lia.
      - pose proof (offset_mono model t' t nm' shp' Ht' Hc'). lia. }
    split; [done|].
    rewrite Ht in Ht'. inversion Ht'; subst.
    rewrite <-(unravel_ravel coord shp') by done.
    rewrite <-(unravel_ravel coord' shp') by done.
    f_equal. lia.
Qed.

(** C7 (amended). A model whose parameters hold no element at all, one
    without parameters included, gets the empty index; no exception is
    raised. *)
Theorem create_parameter_mapping_empty (model : named_parameters) :
  total_numel model = 0 → create_parameter_mapping model = Ok ∅.
Proof.
  intros H0.
  destruct (create_parameter_mapping_lookup model) as (mapping & -> & Hl).
  f_equal. apply map_eq. intros k. rewrite Hl, lookup_empty.
  apply eq_None_not_Some. rewrite locate_is_Some. lia.
Qed.

Lemma create_parameter_mapping_empty_witness :
  create_parameter_mapping [("running.count", [0])] = Ok ∅.
Proof. apply create_parameter_mapping_empty. reflexivity. Defined.

(** C7 fails as stated: the model without parameters is indexed, by the
    empty index. *)
Lemma create_parameter_mapping_no_parameters :
  create_parameter_mapping [] = Ok ∅
  ∧ ¬ fails_with "ConfigurationError" (create_parameter_mapping []).
Proof.
  split; [reflexivity|]. apply fails_with_Ok.
Qed.

End IndexProps.

(** ** analysis/eigenvector_analysis.py: attribution *)

Module AnalysisProps.
Import EigenvectorAnalysis IndexProps.

Local Open Scope nat_scope.

Example argsort_stable_ties :
  argsort_stable (rationals [3; 1; 3; 0; 1]%Z) = [3; 1; 4; 0; 2].
Proof. vm_compute. reflexivity. Qed.

Example select_top_two :
  select_top argsort_stable (rationals [3; 1; 3; 0; 1]%Z) 2 = [2; 0].
Proof. vm_compute. reflexivity. Qed.

Example select_top_zero_is_all :
  select_top argsort_stable (rationals [3; 1; 3; 0; 1]%Z) 0 = [2; 0; 4; 1; 3].
Proof. vm_compute. reflexivity. Qed.

(** *** Sorting *)

Lemma StronglySorted_reverse {A} (R : relation A) (l : list A) :
  StronglySorted R l → StronglySorted (flip R) (reverse l).
Proof.
  induction 1 as [|x l Hl IH Hx].
  - constructor.
  - rewrite reverse_cons. apply StronglySorted_app.
    split; [|split; [done|repeat constructor]].
    intros x1 x2 H1 H2. apply list_elem_of_singleton in H2 as ->.
    rewrite elem_of_reverse in H1.
    rewrite Forall_forall in Hx. unfold flip. by apply Hx.
Qed.

Lemma StronglySorted_drop {A} (R : relation A) (n : nat) (l : list A) :
  StronglySorted R l → StronglySorted R (drop n l).
Proof.
  intros H. rewrite <-(take_drop n l) in H.
  by apply StronglySorted_app_1_r in H.
Qed.

Lemma StronglySorted_fmap_impl {A B} (R : relation A) (R' : relation B)
    (f : A → B) (l : list A) :
  (∀ x y, R x y → R' (f x) (f y)) →
  StronglySorted R l → StronglySorted R' (f <$> l).
Proof.
  intros HR. induction 1 as [|x l Hl IH Hx]; simpl; constructor; [done|].
  apply Forall_fmap. eapply Forall_impl; [done|]. intros y. apply HR.
Qed.

Lemma insert_index_Permutation (a : list Qc) (i : nat) (sorted : list nat) :
  insert_index a i sorted ≡ₚ i :: sorted.
Proof.
  induction sorted as [|j rest IH]; simpl; [done|].
  case_decide; [done|]. rewrite IH. apply Permutation_swap.
Qed.

Lemma insert_index_sorted (a : list Qc) (i : nat) (sorted : list nat) :
  Forall (λ j, j < i) sorted →
  StronglySorted (stable_order a) sorted →
  StronglySorted (stable_order a) (insert_index a i sorted).
Proof.
  intros Hlt Hs. induction Hs as [|j rest Hrest IH Hj]; simpl.
  - repeat constructor.
  - apply Forall_cons in Hlt as [Hji Hlt].
    case_decide as Hc.
    + constructor; [by constructor|].
      constructor; [by left|].
      eapply Forall_impl; [exact Hj|]. intros x [Hx|[Hx _]]; left.
      * by eapply Qclt_trans.
      * by rewrite <-Hx.
    + constructor; [by apply IH|].
      rewrite insert_index_Permutation. constructor; [|done].
      apply Qcnot_lt_le in Hc.
      destruct (Qcle_lt_or_eq _ _ Hc) as [?|Heq]; [by left|by right].
Qed.

Lemma argsort_stable_sorted (a : list Qc) (n : nat) :
  foldl (λ sorted i, insert_index a i sorted) [] (seq 0 n) ≡ₚ seq 0 n
  ∧ StronglySorted (stable_order a)
      (foldl (λ sorted i, insert_index a i sorted) [] (seq 0 n)).
Proof.
  induction n as [|n [IHp IHs]].
  - split; [done|constructor].
  - rewrite seq_S, foldl_app. simpl. split.
    + rewrite insert_index_Permutation, IHp.
      by rewrite <-Permutation_cons_append.
    + apply insert_index_sorted; [|done].
      rewrite IHp. apply Forall_forall. intros j Hj.
      apply elem_of_seq in Hj. lia.
Qed.

Lemma argsort_stable_spec : argsort_spec argsort_stable.
Proof.
  intros a. destruct (argsort_stable_sorted a (length a)) as [Hp Hs].
  split; [done|].
  eapply StronglySorted_fmap_impl; [|exact Hs].
  intros i j [H|[-> _]]; [by apply Qclt_le_weak|apply Qcle_refl].
Qed.

(** *** Slicing *)

Lemma slice_from_drop {A} (start : Z) (l : list A) :
  ∃ n, slice_from start l = drop n l.
Proof. unfold slice_from. eauto. Qed.

Lemma slice_from_all {A} (l : list A) :
  slice_from (- Z.of_nat (length l)) l = l.
Proof.
  unfold slice_from.
  destruct (Z.ltb_spec (- Z.of_nat (length l)) 0).
  - replace (Z.to_nat _) with 0 by lia. done.
  - replace (Z.to_nat _) with 0 by lia. done.
Qed.

Section WithArgsort.
Variable argsort : list Qc → list nat.
Hypothesis argsort_ok : argsort_spec argsort.

Lemma select_top_sublist (abs_contrib : list Qc) (top_k : Z) :
  ∃ n, select_top argsort abs_contrib top_k
       = reverse (drop n (argsort abs_contrib)).
Proof.
  unfold select_top.
  destruct (slice_from_drop (- top_k) (argsort abs_contrib)) as [n ->].
  by exists n.
Qed.

Lemma select_top_lt (abs_contrib : list Qc) (top_k : Z) (idx : nat) :
  idx ∈ select_top argsort abs_contrib top_k → idx < length abs_contrib.
Proof.
  destruct (select_top_sublist abs_contrib top_k) as [n ->].
  rewrite elem_of_reverse. intros H.
  apply (elem_of_sublist _ (argsort abs_contrib)) in H; [|apply sublist_drop].
  destruct (argsort_ok abs_contrib) as [Hp _].
  rewrite Hp in H. apply elem_of_seq in H. lia.
Qed.

Lemma select_top_NoDup (abs_contrib : list Qc) (top_k : Z) :
  NoDup (select_top argsort abs_contrib top_k).
Proof.
  destruct (select_top_sublist abs_contrib top_k) as [n ->].
  rewrite reverse_Permutation.
  eapply sublist_NoDup; [|apply sublist_drop].
  destruct (argsort_ok abs_contrib) as [Hp _].
  rewrite Hp. apply NoDup_seq.
Qed.

Lemma select_top_descending (abs_contrib : list Qc) (top_k : Z) :
  StronglySorted (flip Qcle)
    ((λ i, abs_contrib !!! i) <$> select_top argsort abs_contrib top_k).
Proof.
  destruct (select_top_sublist abs_contrib top_k) as [n ->].
  rewrite fmap_reverse, fmap_drop.
  apply StronglySorted_reverse, StronglySorted_drop.
  apply argsort_ok.
Qed.

Lemma select_top_all (abs_contrib : list Qc) :
  select_top argsort abs_contrib (Z.of_nat (length abs_contrib))
    ≡ₚ seq 0 (length abs_contrib).
Proof.
  unfold select_top.
  destruct (argsort_ok abs_contrib) as [Hp _].
  rewrite reverse_Permutation.
  replace (length abs_contrib) with (length (argsort abs_contrib)) at 1.
  - by rewrite slice_from_all.
  - by rewrite Hp, length_seq.
Qed.

End WithArgsort.

(** *** The two loops *)

Lemma add_contributor_Some (eigenvector : list Qc)
    (param_mapping : gmap nat param_info) (acc : list contributor)
    (idx : nat) (info : param_info) (x : Qc) :
  param_mapping !! idx = Some info → eigenvector !! idx = Some x →
  add_contributor eigenvector param_mapping acc idx
  = Ok (acc ++
      [{| index := idx; param_name := name info; c_layer := layer info;
          c_coordinates := coordinates info; contribution := x;
          abs_contribution := Qcabs x; param_type := type info |}]).
Proof.
  intros Hi Hx. unfold add_contributor, getitem, tensor_item.
  by rewrite Hi, Hx.
Qed.

Lemma add_contributor_None (eigenvector : list Qc)
    (param_mapping : gmap nat param_info) (acc : list contributor)
    (idx : nat) :
  param_mapping !! idx = None →
  add_contributor eigenvector param_mapping acc idx
  = Err (Raise "KeyError" (pretty idx)).
Proof.
  intros Hi. unfold add_contributor, getitem. by rewrite Hi.
Qed.

Lemma add_layer_contribution_Some (param_mapping : gmap nat param_info)
    (d : gmap string Qc) (idx : nat) (v : Qc) :
  is_Some (param_mapping !! idx) →
  succeeds (add_layer_contribution param_mapping d (idx, v)).
Proof.
  intros [info Hi]. unfold add_layer_contribution, getitem.
  rewrite Hi. simpl. by eexists.
Qed.

Lemma add_layer_contribution_None (param_mapping : gmap nat param_info)
    (d : gmap string Qc) (idx : nat) (v : Qc) :
  param_mapping !! idx = None →
  add_layer_contribution param_mapping d (idx, v)
  = Err (Raise "KeyError" (pretty idx)).
Proof.
  intros Hi. unfold add_layer_contribution, getitem. by rewrite Hi.
Qed.

Lemma add_contributors (eigenvector : list Qc)
    (param_mapping : gmap nat param_info) (l : list nat)
    (acc : list contributor) :
  Forall (λ idx, is_Some (param_mapping !! idx)
                 ∧ is_Some (eigenvector !! idx)) l →
  ∃ out, for_each (add_contributor eigenvector param_mapping) l acc
           = Ok (acc ++ out)
         ∧ index <$> out = l
         ∧ Forall (describes eigenvector param_mapping) out.
Proof.
  intros Hl. revert acc.
  induction Hl as [|idx l [[info Hi] [x Hx]] _ IH]; intros acc.
  - exists []. by rewrite app_nil_r.
  - simpl. rewrite (add_contributor_Some _ _ _ _ _ _ Hi Hx). simpl.
    destruct (IH (acc ++
      [{| index := idx; param_name := name info; c_layer := layer info;
          c_coordinates := coordinates info; contribution := x;
          abs_contribution := Qcabs x; param_type := type info |}]))
      as (out & -> & Hidx & Hout).
    eexists (_ :: out). split; [by rewrite <-app_assoc|].
    split; [by rewrite fmap_cons, Hidx|].
    constructor; [|done].
    split; [done|]. split; [done|]. by exists info.
Qed.

Lemma add_contributors_KeyError (eigenvector : list Qc)
    (param_mapping : gmap nat param_info) (l : list nat)
    (acc : list contributor) :
  Forall (λ idx, is_Some (eigenvector !! idx)) l →
  Exists (λ idx, param_mapping !! idx = None) l →
  fails_with "KeyError"
    (for_each (add_contributor eigenvector param_mapping) l acc).
Proof.
  intros Hl. revert acc.
  induction Hl as [|idx l [x Hx] _ IH]; intros acc Hex.
  - by apply Exists_nil in Hex.
  - simpl.
    destruct (param_mapping !! idx) as [info|] eqn:Hi.
    + rewrite (add_contributor_Some _ _ _ _ _ _ Hi Hx). simpl. apply IH.
      apply Exists_cons in Hex as [Hex|Hex]; [congruence|done].
    + rewrite (add_contributor_None _ _ _ _ Hi). by eexists.
Qed.

Lemma add_layer_contributions (param_mapping : gmap nat param_info)
    (l : list (nat * Qc)) (d : gmap string Qc) :
  Forall (λ iv, is_Some (param_mapping !! fst iv)) l →
  succeeds (for_each (add_layer_contribution param_mapping) l d).
Proof.
  intros Hl. revert d.
  induction Hl as [|[idx v] l [info Hi] _ IH]; intros d.
  - by exists d.
  - rewrite for_each_cons.
    destruct (add_layer_contribution_Some param_mapping d idx v) as [d' ->];
      [by exists info|].
    simpl. apply IH.
Qed.

Lemma enumerate_split (abs_contrib : list Qc) (n : nat) :
  n < length abs_contrib →
  ∃ v rest,
    zip (seq 0 (length abs_contrib)) abs_contrib
    = zip (seq 0 n) (take n abs_contrib) ++ (n, v) :: rest.
Proof.
  intros Hn.
  destruct (lookup_lt_is_Some_2 abs_contrib n Hn) as [v Hv].
  exists v, (zip (seq (S n) (length abs_contrib - S n)) (drop (S n) abs_contrib)).
  rewrite <-(take_drop_middle abs_contrib n v Hv) at 2.
  replace (length abs_contrib) with (n + S (length abs_contrib - S n)) at 1 by lia.
  rewrite seq_app. simpl.
  rewrite zip_with_app; [done|].
  rewrite length_seq, length_take. lia.
Qed.

Lemma by_layer_KeyError (param_mapping : gmap nat param_info)
    (abs_contrib : list Qc) (n : nat) :
  (∀ k, is_Some (param_mapping !! k) ↔ k < n) →
  n < length abs_contrib →
  for_each (add_layer_contribution param_mapping)
    (zip (seq 0 (length abs_contrib)) abs_contrib) ∅
  = Err (Raise "KeyError" (pretty n)).
Proof.
  intros Hdom Hn.
  destruct (enumerate_split abs_contrib n Hn) as (v & rest & ->).
  rewrite for_each_app.
  destruct (add_layer_contributions param_mapping
              (zip (seq 0 n) (take n abs_contrib)) ∅) as [d ->].
  - apply Forall_forall. intros [i x] Hin. simpl.
    apply elem_of_zip_l in Hin. apply elem_of_seq in Hin.
    apply Hdom. lia.
  - cbn [mbind result_bind]. rewrite for_each_cons, add_layer_contribution_None; [done|].
    apply eq_None_not_Some. rewrite Hdom. lia.
Qed.

(** *** The index of a model *)

Lemma mapping_dom (model : named_parameters)
    (mapping : gmap nat param_info) :
  create_parameter_mapping model = Ok mapping →
  ∀ k, is_Some (mapping !! k) ↔ k < total_numel model.
Proof.
  intros Hc k.
  destruct (create_parameter_mapping_lookup model) as (m & Hm & Hl).
  rewrite Hm in Hc. inversion Hc; subst m.
  rewrite Hl, locate_is_Some. lia.
Qed.

Lemma describes_abs (eigenvector : list Qc)
    (mapping : gmap nat param_info) (out : list contributor) :
  Forall (describes eigenvector mapping) out →
  abs_contribution <$> out
  = (λ i, (Qcabs <$> eigenvector) !!! i) <$> (index <$> out).
Proof.
  induction 1 as [|c out (Hx & Ha & _) _ IH]; [done|].
  rewrite !fmap_cons, IH. f_equal.
  rewrite Ha. symmetry. apply list_lookup_total_correct.
  by rewrite list_lookup_fmap, Hx.
Qed.

(** *** Top contributors *)

(** C2 (amended). For an eigenvector as long as the index of the model
    and every [top_k], the list of top contributors is returned, in
    descending order of absolute contribution; its elements describe
    distinct flat offsets, and with [top_k = N] every offset occurs.
    No order among equal absolute values is stated. *)
Theorem analyze_eigenvector_top_descending
    (argsort : list Qc → list nat) (model : named_parameters)
    (mapping : gmap nat param_info) (eigenvector : list Qc) (top_k : Z) :
  argsort_spec argsort →
  create_parameter_mapping model = Ok mapping →
  length eigenvector = total_numel model →
  ∃ out,
    analyze_eigenvector argsort eigenvector mapping top_k false
      = Ok (TopContributors out)
    ∧ StronglySorted (flip Qcle) (abs_contribution <$> out)
    ∧ Forall (describes eigenvector mapping) out
    ∧ NoDup (index <$> out)
    ∧ (top_k = Z.of_nat (total_numel model) →
       index <$> out ≡ₚ seq 0 (total_numel model)).
Proof.
  intros Hspec Hmap Hlen.
  pose proof (mapping_dom model mapping Hmap) as Hdom.
  unfold analyze_eigenvector.
  destruct (add_contributors eigenvector mapping
              (select_top argsort (Qcabs <$> eigenvector) top_k) [])
    as (out & -> & Hidx & Hout).
  { apply Forall_forall. intros idx Hin.
    apply (select_top_lt argsort Hspec) in Hin.
    rewrite length_fmap in Hin. split.
    - apply Hdom. lia.
    - by apply lookup_lt_is_Some_2. }
  exists out. split; [done|].
  split; [|split; [done|split]].
  - rewrite (describes_abs _ _ _ Hout), Hidx.
    by apply select_top_descending.
  - rewrite Hidx. by apply select_top_NoDup.
  - intros ->. rewrite Hidx, <-Hlen.
    rewrite <-(length_fmap Qcabs eigenvector).
    by apply select_top_all.
Qed.

Lemma analyze_eigenvector_top_descending_witness :
  ∃ out,
    analyze_eigenvector argsort_stable (rationals [1; -3; 2]%Z) small_index 3 false
      = Ok (TopContributors out)
    ∧ index <$> out ≡ₚ [0; 1; 2].
Proof.
  destruct (analyze_eigenvector_top_descending argsort_stable small_model
              small_index (rationals [1; -3; 2]%Z) 3 argsort_stable_spec)
    as (out & H & _ & _ & _ & Hall).
  - reflexivity.
  - vm_compute. reflexivity.
  - exists out. split; [exact H|]. apply Hall. vm_compute. reflexivity.
Defined.

(** With the stable sort, equal absolute values come out by flat offset
    descending: the ascending order reversed. *)
Lemma select_top_stable_ties (abs_contrib : list Qc) (top_k : Z) :
  StronglySorted (flip (stable_order abs_contrib))
    (select_top argsort_stable abs_contrib top_k).
Proof.
  destruct (select_top_sublist argsort_stable abs_contrib top_k) as [n ->].
  apply StronglySorted_reverse, StronglySorted_drop.
  apply argsort_stable_sorted.
Qed.

(** C2 fails as stated: two equal components.  The flat offset 1 comes
    before the flat offset 0. *)
Lemma analyze_eigenvector_ties_descending :
  match analyze_eigenvector argsort_stable [1; 1]%Qc pair_index 2 false with
  | Ok (TopContributors out) =>
      (λ c, (index c, this (abs_contribution c))) <$> out
  | _ => []
  end = [(1, 1%Q); (0, 1%Q)].
Proof. vm_compute. reflexivity. Qed.

(** *** Eigenvectors of the wrong length *)

(** C8 (amended). Against the index of a model with [N] parameters: an
    eigenvector shorter than [N] makes neither function fail; a longer
    one makes the per-layer sum fail with [KeyError] at key [N], and the
    top contributors fail with [KeyError] when one of the selected
    offsets is outside the index and succeed otherwise. *)
Theorem analyze_eigenvector_length_mismatch
    (argsort : list Qc → list nat) (model : named_parameters)
    (mapping : gmap nat param_info) (eigenvector : list Qc) (top_k : Z) :
  argsort_spec argsort →
  create_parameter_mapping model = Ok mapping →
  length eigenvector ≠ total_numel model →
  (length eigenvector < total_numel model →
     succeeds (analyze_eigenvector argsort eigenvector mapping top_k true)
     ∧ succeeds (analyze_eigenvector argsort eigenvector mapping top_k false))
  ∧ (total_numel model < length eigenvector →
     analyze_eigenvector argsort eigenvector mapping top_k true
       = Err (Raise "KeyError" (pretty (total_numel model)))
     ∧ (Forall (λ idx, idx < total_numel model)
          (select_top argsort (Qcabs <$> eigenvector) top_k) →
        succeeds (analyze_eigenvector argsort eigenvector mapping top_k false))
     ∧ (Exists (λ idx, total_numel model ≤ idx)
          (select_top argsort (Qcabs <$> eigenvector) top_k) →
        fails_with "KeyError"
          (analyze_eigenvector argsort eigenvector mapping top_k false))).
Proof.
  intros Hspec Hmap Hne.
  pose proof (mapping_dom model mapping Hmap) as Hdom.
  assert (Hev : Forall (λ idx, is_Some (eigenvector !! idx))
                  (select_top argsort (Qcabs <$> eigenvector) top_k)).
  { apply Forall_forall. intros idx Hin.
    apply (select_top_lt argsort Hspec) in Hin.
    rewrite length_fmap in Hin. by apply lookup_lt_is_Some_2. }
  assert (Htop : Forall (λ idx, idx < total_numel model)
                   (select_top argsort (Qcabs <$> eigenvector) top_k) →
                 succeeds (analyze_eigenvector argsort eigenvector mapping
                             top_k false)).
  { intros Hin. unfold analyze_eigenvector.
    destruct (add_contributors eigenvector mapping
                (select_top argsort (Qcabs <$> eigenvector) top_k) [])
      as (out & -> & _).
    - rewrite Forall_forall in Hin, Hev. apply Forall_forall.
      intros idx Hidx. split; [apply Hdom|]; auto.
    - by eexists. }
  split.
  - intros Hlt. split.
    + unfold analyze_eigenvector.
      destruct (add_layer_contributions mapping
                  (zip (seq 0 (length (Qcabs <$> eigenvector)))
                     (Qcabs <$> eigenvector)) ∅) as [d ->]; [|by eexists].
      apply Forall_forall. intros [i x] Hin. simpl.
      apply elem_of_zip_l in Hin. apply elem_of_seq in Hin.
      rewrite length_fmap in Hin. apply Hdom. lia.
    + apply Htop. rewrite Forall_forall in Hev. apply Forall_forall.
      intros idx Hin. apply Hev in Hin.
      apply lookup_lt_is_Some_1 in Hin. simpl. lia.
  - intros Hgt. split; [|split; [done|]].
    + unfold analyze_eigenvector.
      rewrite (by_layer_KeyError mapping _ (total_numel model)); [done|done|].
      by rewrite length_fmap.
    + intros Hex. unfold analyze_eigenvector.
      destruct (add_contributors_KeyError eigenvector mapping
                  (select_top argsort (Qcabs <$> eigenvector) top_k) [] Hev)
        as [msg ->]; [|by eexists].
      eapply Exists_impl; [exact Hex|].
      intros idx Hidx. simpl in *. apply eq_None_not_Some. rewrite Hdom. lia.
Qed.

Lemma analyze_eigenvector_length_mismatch_witness :
  succeeds (analyze_eigenvector argsort_stable [1; 2]%Qc small_index 2 true)
  ∧ succeeds (analyze_eigenvector argsort_stable [1; 2]%Qc small_index 2 false).
Proof.
  apply (analyze_eigenvector_length_mismatch argsort_stable small_model
           small_index [1; 2]%Qc 2 argsort_stable_spec).
  - reflexivity.
  - vm_compute. lia.
  - vm_compute. lia.
Defined.

(** C8 fails as stated: against an index of three parameters, an
    eigenvector of two components is analysed without error, and one of
    four components raises [KeyError], not [IndexError]. *)
Lemma analyze_eigenvector_no_IndexError :
  succeeds (analyze_eigenvector argsort_stable [1; 2]%Qc small_index 2 true)
  ∧ succeeds (analyze_eigenvector argsort_stable [1; 2]%Qc small_index 2 false)
  ∧ analyze_eigenvector argsort_stable (rationals [1; 2; 3; 4]%Z) small_index 2 true
    = Err (Raise "KeyError" "3")
  ∧ analyze_eigenvector argsort_stable (rationals [1; 2; 3; 4]%Z) small_index 2 false
    = Err (Raise "KeyError" "3").
Proof.
  split; [vm_compute; by eexists|].
  split; [vm_compute; by eexists|].
  split; vm_compute; reflexivity.
Qed.

End AnalysisProps.

(** ** analysis/hessian.py: the spectrum solver and the trajectory *)

Module SolverProps.
Import Hessian AnalysisProps.

Local Open Scope nat_scope.

Lemma column_reverse (eigenvectors : list (list Qc)) (k i : nat) :
  Forall (λ row, length row = k) eigenvectors → i < k →
  column i (reverse <$> eigenvectors) = column (k - 1 - i) eigenvectors.
Proof.
  intros Hrows Hi. unfold column. rewrite <-list_fmap_compose.
  induction Hrows as [|row rows Hrow _ IH]; [done|].
  rewrite !fmap_cons, IH. f_equal. simpl.
  apply list_lookup_total_correct.
  rewrite reverse_lookup by lia.
  rewrite Hrow. replace (k - S i) with (k - 1 - i) by lia.
  apply list_lookup_lookup_total_lt. lia.
Qed.

Lemma LinearOperator_probe (dim : nat)
    (mv : list Qc → result (list Qc)) (y : list Qc) :
  mv (replicate dim 0%Qc) = Ok y → length y = dim →
  LinearOperator dim mv = Ok (matvec dim mv).
Proof.
  intros Hy Hlen. unfold LinearOperator.
  assert (matvec dim mv (replicate dim 0%Qc) = Ok y) as ->; [|done].
  unfold matvec. rewrite length_replicate, decide_True by done.
  rewrite Hy. cbn [mbind result_bind]. by rewrite decide_True.
Qed.

Lemma LinearOperator_raises (dim : nat)
    (mv : list Qc → result (list Qc)) (e : exn) :
  mv (replicate dim 0%Qc) = Err e → LinearOperator dim mv = Err e.
Proof.
  intros He. unfold LinearOperator, matvec.
  rewrite length_replicate, decide_True by done. by rewrite He.
Qed.

Lemma lanczos_propagates_probe (generator : Type)
    (eigsh : generator → (list Qc → result (list Qc)) → nat → nat
             → result (list Qc * list (list Qc)))
    (g : generator) (hvp_function : list Qc → result (list Qc))
    (dim neigs : nat) (e : exn) :
  hvp_function (replicate dim 0%Qc) = Err e →
  lanczos generator eigsh g hvp_function dim neigs = Err e.
Proof.
  intros H. unfold lanczos.
  change (λ v, hvp_function v) with hvp_function.
  by rewrite (LinearOperator_raises _ _ _ H).
Qed.

Lemma lanczos_propagates_failure (generator : Type)
    (eigsh : generator → (list Qc → result (list Qc)) → nat → nat
             → result (list Qc * list (list Qc)))
    (g : generator) (hvp_function : list Qc → result (list Qc))
    (dim neigs : nat) (operator : list Qc → result (list Qc)) (e : exn) :
  LinearOperator dim hvp_function = Ok operator →
  eigsh g operator dim neigs = Err e →
  lanczos generator eigsh g hvp_function dim neigs = Err e.
Proof.
  intros Ho H. unfold lanczos.
  change (λ v, hvp_function v) with hvp_function. rewrite Ho.
  cbn [mbind result_bind]. by rewrite H.
Qed.



End SolverProps.

Module TrajectoryProps.
Import Hessian.

Local Open Scope nat_scope.

Example trajectory_of_four :
  values (compute_trajectory_length sqrt_exact
            (rationals <$> [[0; 0]; [3; 4]; [3; 4]; [0; 0]]%Z))
  = Some [0%Q; 5%Q; 5%Q; 10%Q].
Proof. vm_compute. reflexivity. Qed.

Example trajectory_of_none :
  compute_trajectory_length sqrt_exact [] = Ok [].
Proof. reflexivity. Qed.

Lemma broadcast2_same_length {A B C} (f : A → B → C) (a : list A)
    (b : list B) :
  length a = length b → broadcast2 f a b = Ok (zip_with f a b).
Proof. intros H. unfold broadcast2. by rewrite decide_True. Qed.

Lemma cumsum_from_zero (xs : list Qc) : cumsum xs = cumsum_from 0%Qc xs.
Proof.
  destruct xs as [|x xs]; [done|]. simpl. by rewrite Qcplus_0_l.
Qed.

Lemma length_cumsum_from (acc : Qc) (xs : list Qc) :
  length (cumsum_from acc xs) = length xs.
Proof. revert acc. induction xs; intros acc; simpl; auto. Qed.

Lemma cumsum_from_step (acc : Qc) (xs : list Qc) (i : nat) (x : Qc) :
  xs !! i = Some x →
  ∃ a, (acc :: cumsum_from acc xs) !! i = Some a
       ∧ (acc :: cumsum_from acc xs) !! S i = Some (a + x)%Qc.
Proof.
  revert acc i. induction xs as [|y xs IH]; intros acc i Hx; [done|].
  destruct i as [|i]; simpl in *.
  - inversion Hx; subst. by exists acc.
  - apply (IH (acc + y)%Qc) in Hx. exact Hx.
Qed.

Section WithSqrt.
Variable tsqrt : Qc → Qc.
Variable param_history : list (list Qc).
Variable d : nat.
Hypothesis same_length : Forall (λ s, length s = d) param_history.

Lemma history_item_lt (i : nat) :
  i < length param_history →
  history_item param_history i = Ok (param_history !!! i)
  ∧ length (param_history !!! i) = d.
Proof.
  intros Hi. unfold history_item.
  destruct (lookup_lt_is_Some_2 _ _ Hi) as [s Hs].
  rewrite Hs, (list_lookup_total_correct _ _ _ Hs).
  split; [done|].
  rewrite Forall_forall in same_length. apply same_length.
  by eapply list_elem_of_lookup_2.
Qed.

Lemma distances_loop (k : nat) (acc : list Qc) :
  k < length param_history →
  for_each
    (λ distances i,
       cur ← history_item param_history i;
       prev ← history_item param_history (i - 1);
       diff ← broadcast2 Qcminus cur prev;
       Ok (distances ++ [norm tsqrt diff]))
    (seq 1 k) acc
  = Ok (acc ++ (step_distance tsqrt param_history <$> seq 1 k)).
Proof.
  induction k as [|k IH]; intros Hk.
  - simpl. by rewrite app_nil_r.
  - rewrite seq_S, for_each_app, IH by lia.
    cbn [mbind result_bind for_each].
    destruct (history_item_lt (1 + k)) as [-> Hl1]; [lia|].
    destruct (history_item_lt (1 + k - 1)) as [-> Hl2]; [lia|].
    cbn [mbind result_bind].
    rewrite broadcast2_same_length by congruence.
    cbn [mbind result_bind].
    by rewrite fmap_app, app_assoc.
Qed.

End WithSqrt.

Lemma sum_squares_seq (l : list Qc) (m : nat) (g : nat → Qc) :
  (∀ k x, l !! k = Some x → g (m + k) = (x * x)%Qc) →
  foldr (λ c acc, (c * c + acc)%Qc) 0%Qc l
  = foldr (λ j acc, (g j + acc)%Qc) 0%Qc (seq m (length l)).
Proof.
  revert m. induction l as [|x l IH]; intros m Hg; [done|].
  cbn [length seq foldr]. rewrite (IH (S m)).
  - f_equal. symmetry. rewrite <-(Nat.add_0_r m). by apply Hg.
  - intros k y Hk. replace (S m + k) with (m + S k) by lia. by apply Hg.
Qed.

Lemma norm_squared_distance (tsqrt : Qc → Qc) (d : nat) (x y : list Qc) :
  length x = d → length y = d →
  norm tsqrt (zip_with Qcminus x y) = tsqrt (squared_distance d x y).
Proof.
  intros Hx Hy. unfold norm, squared_distance. f_equal.
  rewrite (sum_squares_seq _ 0
             (λ j, (x !!! j - y !!! j) * (x !!! j - y !!! j))%Qc).
  - rewrite length_zip_with. by replace (length x `min` length y) with d by lia.
  - intros k c Hk.
    apply lookup_zip_with_Some in Hk as (a & b & -> & Ha & Hb). simpl.
    by rewrite (list_lookup_total_correct _ _ _ Ha),
      (list_lookup_total_correct _ _ _ Hb).
Qed.

(** C5. For a non-empty history of snapshots of one parameter vector of
    [d] entries: one cumulative length per snapshot is returned, the first
    is zero, and each next one adds the Euclidean distance of its snapshot
    from the previous one, the square root of the sum over the entries of
    the squared differences; a single snapshot gives the one-element
    sequence holding zero. *)
Theorem compute_trajectory_length_cumulative (tsqrt : Qc → Qc)
    (param_history : list (list Qc)) (d : nat) :
  param_history ≠ [] →
  Forall (λ s, length s = d) param_history →
  ∃ lengths,
    compute_trajectory_length tsqrt param_history = Ok lengths
    ∧ length lengths = length param_history
    ∧ lengths !! 0 = Some 0%Qc
    ∧ (∀ i prev cur,
         param_history !! i = Some prev →
         param_history !! S i = Some cur →
         ∃ a, lengths !! i = Some a
              ∧ lengths !! S i
                = Some (a + tsqrt (squared_distance d cur prev))%Qc)
    ∧ (length param_history = 1 → lengths = [0%Qc]).
Proof.
  intros Hne Hall. unfold compute_trajectory_length.
  destruct (Nat.leb_spec (length param_history) 1) as [Hle|Hgt].
  - destruct param_history as [|s [|s' rest]]; [done| |simpl in Hle; lia].
    exists [0%Qc]. repeat split; done.
  - rewrite (distances_loop tsqrt param_history d Hall) by lia. simpl.
    rewrite cumsum_from_zero, length_cumsum_from, length_fmap, length_seq.
    destruct (Nat.ltb_spec (length param_history)
                (S (length param_history - 1))) as [|_]; [lia|].
    destruct (Nat.ltb_spec (S (length param_history - 1))
                (length param_history)) as [|_]; [lia|].
    eexists. split; [done|].
    split; [simpl; rewrite length_cumsum_from, length_fmap, length_seq; lia|].
    split; [done|]. split; [|lia].
    intros i prev cur Hi Hsi.
    assert (S i < length param_history) as Hlt
      by (apply lookup_lt_is_Some_1; eauto).
    destruct (cumsum_from_step 0%Qc
                (step_distance tsqrt param_history
                   <$> seq 1 (length param_history - 1)) i
                (tsqrt (squared_distance d cur prev))) as (a & Ha & Hb).
    + rewrite list_lookup_fmap, lookup_seq_lt by lia. simpl.
      unfold step_distance. simpl.
      rewrite (list_lookup_total_correct _ _ _ Hsi).
      replace (i - 0) with i by lia.
      rewrite (list_lookup_total_correct _ _ _ Hi).
      rewrite Forall_forall in Hall. f_equal.
      apply norm_squared_distance; apply Hall;
        by eapply list_elem_of_lookup_2.
    + by exists a.
Qed.

Lemma compute_trajectory_length_cumulative_witness :
  ∃ lengths,
    compute_trajectory_length sqrt_exact
      (rationals <$> [[0; 0]; [3; 4]; [3; 4]; [0; 0]]%Z) = Ok lengths
    ∧ length lengths = 4
    ∧ this <$> lengths !! 1 = Some 5%Q
    ∧ this <$> lengths !! 2 = Some 5%Q
    ∧ this <$> lengths !! 3 = Some 10%Q.
Proof.
  destruct (compute_trajectory_length_cumulative sqrt_exact
              (rationals <$> [[0; 0]; [3; 4]; [3; 4]; [0; 0]]%Z) 2)
    as (lengths & H & Hlen & H0 & Hstep & _).
  - discriminate.
  - repeat constructor.
  - exists lengths. split; [exact H|]. split; [exact Hlen|].
    destruct (Hstep 0 (rationals [0; 0]%Z) (rationals [3; 4]%Z) eq_refl eq_refl)
      as (a0 & Ha0 & H1).
    rewrite H0 in Ha0. inversion Ha0; subst a0.
    destruct (Hstep 1 (rationals [3; 4]%Z) (rationals [3; 4]%Z) eq_refl eq_refl)
      as (a1 & Ha1 & H2).
    rewrite H1 in Ha1. inversion Ha1; subst a1.
    destruct (Hstep 2 (rationals [3; 4]%Z) (rationals [0; 0]%Z) eq_refl eq_refl)
      as (a2 & Ha2 & H3).
    rewrite H2 in Ha2. inversion Ha2; subst a2.
    rewrite H1, H2, H3. repeat split; vm_compute; reflexivity.
Defined.

End TrajectoryProps.

(** ** analysis/hessian.py: Hessian-vector products *)

Module HvpProps.
Import Hessian TrajectoryProps.

Local Open Scope nat_scope.

Example hvp_of_three_examples :
  values (compute_hvp sqrt_exact Z [[2]] (mean_loss sample_loss) full_graph
            [1; 2; 3]%Z (rationals [1; 2]%Z) None None)
  = Some [10%Q; 16%Q].
Proof. vm_compute. reflexivity. Qed.

Example hvp_preconditioned :
  values (compute_hvp sqrt_exact Z [[2]] (mean_loss sample_loss) full_graph
            [1; 2; 3]%Z (rationals [2; 3]%Z) (Some 2%Z)
            (Some (rationals [4; 9]%Z)))
  = Some [3%Q; 10 # 3].
Proof. vm_compute. reflexivity. Qed.

Example hvp_chunk_size_zero :
  compute_hvp sqrt_exact Z [[2]] (mean_loss sample_loss) full_graph
    [1; 2; 3]%Z (rationals [1; 2]%Z) (Some 0%Z) None
  = Err (Raise "ValueError" "batch_size should be a positive integer value").
Proof. reflexivity. Qed.

Example hvp_probe_too_long :
  compute_hvp sqrt_exact Z [[2]] (mean_loss sample_loss) full_graph
    [1; 2; 3]%Z (rationals [1; 2; 3]%Z) None None
  = Err (Raise "RuntimeError"
           "The size of tensor a must match the size of tensor b").
Proof. reflexivity. Qed.

Example hvp_of_diagonal_loss :
  values (compute_hvp sqrt_exact Z [[3]] (mean_loss diagonal_loss) full_graph
            [1; 2; 3]%Z (rationals [5; 7; 11]%Z) (Some 2%Z) None)
  = values (diagonal_operator (rationals [5; 7; 11]%Z)).
Proof. vm_compute. reflexivity. Qed.

Example hvp_of_linear_loss :
  compute_hvp sqrt_exact Z [[2]] (mean_loss sample_loss) linear_graph
    [1; 2; 3]%Z (rationals [1; 2]%Z) None None
  = Err (Raise "RuntimeError"
           "element 0 of tensors does not require grad and does not have a grad_fn").
Proof. reflexivity. Qed.

(** *** Exception classes *)

Lemma raises_only_Ok {A} (classes : list string) (a : A) :
  raises_only classes (Ok a).
Proof. intros cls msg H. discriminate. Qed.

Lemma raises_only_Err {A} (classes : list string) (cls msg : string) :
  cls ∈ classes → raises_only (A:=A) classes (Err (Raise cls msg)).
Proof. intros Hin cls' msg' H. by inversion H; subst. Qed.

Lemma raises_only_bind {A B} (classes : list string) (r : result A)
    (k : A → result B) :
  raises_only classes r → (∀ a, raises_only classes (k a)) →
  raises_only classes (r ≫= k).
Proof.
  intros Hr Hk. destruct r as [a|[cls msg]]; simpl; [apply Hk|].
  intros cls' msg' H. inversion H; subst. by eapply Hr.
Qed.

Lemma raises_only_for_each {A S} (classes : list string)
    (body : S → A → result S) (xs : list A) (s : S) :
  (∀ s x, raises_only classes (body s x)) →
  raises_only classes (for_each body xs s).
Proof.
  intros Hb. revert s. induction xs as [|x xs IH]; intros s.
  - apply raises_only_Ok.
  - rewrite for_each_cons. apply raises_only_bind; [apply Hb|apply IH].
Qed.

Lemma raises_only_broadcast2 {A B C} (f : A → B → C) (a : list A)
    (b : list B) :
  raises_only ["StopIteration"; "ValueError"; "RuntimeError"]%string
    (broadcast2 f a b).
Proof.
  unfold broadcast2. case_decide; [apply raises_only_Ok|].
  destruct a as [|x [|x' a]], b as [|y [|y' b]];
    try apply raises_only_Ok;
    apply raises_only_Err; in_list.
Qed.

Lemma raises_only_DataLoader {A} (dataset : list A) (batch_size : Z) :
  raises_only ["StopIteration"; "ValueError"; "RuntimeError"]%string
    (DataLoader dataset batch_size).
Proof.
  unfold DataLoader. destruct (batch_size <=? 0)%Z.
  - apply raises_only_Err. in_list.
  - apply raises_only_Ok.
Qed.

Lemma raises_only_autograd_grad {A} (error : option string) (a : A) :
  raises_only ["StopIteration"; "ValueError"; "RuntimeError"]%string
    (autograd_grad error a).
Proof.
  destruct error; [|apply raises_only_Ok].
  apply raises_only_Err. in_list.
Qed.

Create HintDb raises.
#[local] Hint Resolve raises_only_Ok raises_only_bind raises_only_for_each
  raises_only_broadcast2 raises_only_DataLoader raises_only_autograd_grad
  : raises.

(** *** One pass over a batch *)

Lemma zip_with_fmap_seq {A B C} (f : A → B → C) (g : nat → A) (n : nat)
    (l : list B) :
  zip_with f (g <$> seq 0 n) l
  = (λ ic, f (g (fst ic)) (snd ic)) <$> zip (seq 0 n) l.
Proof.
  generalize 0. revert l.
  induction n as [|n IH]; intros l m; destruct l as [|y l]; simpl; try done.
  by rewrite IH.
Qed.

Lemma broadcast2_flat_grad (num_params : nat) (loss : dscalar)
    (vector : list Qc) :
  broadcast2 dmul (flat_grad_of num_params loss) vector
  = match coefficients num_params vector with
    | Some cs =>
        Ok ((λ ic, dmul {| val := grad loss (fst ic);
                           dval := hess loss (fst ic) |} (snd ic)) <$> cs)
    | None =>
        Err (Raise "RuntimeError"
               "The size of tensor a must match the size of tensor b")
    end.
Proof.
  unfold broadcast2, coefficients, flat_grad_of.
  rewrite length_fmap, length_seq.
  case_decide as Hlen.
  - by rewrite zip_with_fmap_seq.
  - destruct vector as [|y [|y' vector]].
    + destruct num_params as [|[|n]]; simpl; try done.
    + transitivity
        (Ok (A:=list dvalue) ((λ x, dmul x y) <$>
               ((λ i, {| val := grad loss i; dval := hess loss i |})
                  <$> seq 0 num_params))).
      * set (l := (λ i, {| val := grad loss i; dval := hess loss i |})
                      <$> seq 0 num_params).
        by destruct l as [|? [|? ?]].
      * by rewrite <-!list_fmap_compose.
    + destruct num_params as [|[|n]]; [done| |done].
      rewrite decide_True by done.
      cbn [seq fmap list_fmap]. by rewrite <-list_fmap_compose.
Qed.

Lemma dval_dsum (loss : dscalar) (cs : list (nat * Qc)) (j : nat) :
  dval (dsum ((λ ic, dmul {| val := grad loss (fst ic);
                             dval := hess loss (fst ic) |} (snd ic)) <$> cs)) j
  = weighted cs (hess loss) j.
Proof.
  unfold dsum, weighted in *.
  induction cs as [|ic cs IH]; [done|].
  rewrite fmap_cons. cbn [foldr dadd dmul dval]. by rewrite IH.
Qed.

Section WithTorch.
Variable tsqrt : Qc → Qc.
Variable example : Type.

(** The three places where a pass can raise, in the order of the
    source: the gradient of the loss, the product with the probe, the
    gradient of the dot product. *)
Lemma hvp_of_batch_weighted (num_params : nat)
    (batch_loss : list example → dscalar) (graph : list example → autograd)
    (len : nat) (vector : list Qc) (batch : list example) :
  hvp_of_batch example num_params batch_loss graph len vector batch
  = match loss_error (graph batch) with
    | Some msg => Err (Raise "RuntimeError" msg)
    | None =>
        match coefficients num_params vector with
        | Some cs =>
            autograd_grad (grad_error (graph batch))
              ((λ j, weighted cs
                       (hess (mul_div (batch_loss batch) (length batch) len))
                       j)
                 <$> seq 0 num_params)
        | None =>
            Err (Raise "RuntimeError"
                   "The size of tensor a must match the size of tensor b")
        end
    end.
Proof.
  unfold hvp_of_batch.
  destruct (loss_error (graph batch)) as [msg|]; [done|].
  cbn [autograd_grad mbind result_bind]. rewrite broadcast2_flat_grad.
  destruct (coefficients num_params vector) as [cs|]; [|done].
  cbn [mbind result_bind]. unfold flat_hvp_of. f_equal.
  apply list_fmap_ext. intros _ j _. apply dval_dsum.
Qed.

Lemma hvp_of_batch_returns (num_params : nat)
    (batch_loss : list example → dscalar) (graph : list example → autograd)
    (len : nat) (vector : list Qc) (cs : list (nat * Qc))
    (batch : list example) :
  differentiable graph → batch ≠ [] →
  coefficients num_params vector = Some cs →
  hvp_of_batch example num_params batch_loss graph len vector batch
  = Ok ((λ j, weighted cs
                (hess (mul_div (batch_loss batch) (length batch) len)) j)
          <$> seq 0 num_params).
Proof.
  intros Hg Hne Hcs. rewrite hvp_of_batch_weighted, Hcs.
  destruct (Hg batch Hne) as [-> ->]. done.
Qed.

Lemma differentiable_uniform (graph : list example → autograd) :
  differentiable graph → uniform graph.
Proof.
  intros Hg batch1 batch2 H1 H2.
  destruct (Hg batch1 H1) as [Hl1 He1], (Hg batch2 H2) as [Hl2 He2].
  destruct (graph batch1), (graph batch2). simpl in *. congruence.
Qed.

Lemma raises_only_hvp_of_batch (num_params : nat)
    (batch_loss : list example → dscalar) (graph : list example → autograd)
    (len : nat) (vector : list Qc) (batch : list example) :
  raises_only ["StopIteration"; "ValueError"; "RuntimeError"]%string
    (hvp_of_batch example num_params batch_loss graph len vector batch).
Proof.
  rewrite hvp_of_batch_weighted.
  destruct (loss_error (graph batch)); [apply raises_only_Err; in_list|].
  destruct (coefficients num_params vector).
  - apply raises_only_autograd_grad.
  - apply raises_only_Err. in_list.
Qed.

Lemma raises_only_compute_hvp (parameters : list (list nat))
    (batch_loss : list example → dscalar) (graph : list example → autograd)
    (dataset : list example)
    (vector : list Qc) (physical_batch_size : option Z)
    (P : option (list Qc)) :
  raises_only ["StopIteration"; "ValueError"; "RuntimeError"]%string
    (compute_hvp tsqrt example parameters batch_loss graph dataset vector
       physical_batch_size P).
Proof.
  unfold compute_hvp.
  apply raises_only_bind.
  { destruct parameters; [|apply raises_only_Ok].
    apply raises_only_Err. in_list. }
  intros _. apply raises_only_bind.
  { destruct P; auto with raises. }
  intros vector'. apply raises_only_bind.
  - match goal with |- context [if ?c then _ else _] => destruct c end.
    + apply raises_only_bind; [auto with raises|].
      intros [|batch loader].
      * apply raises_only_Err. in_list.
      * apply raises_only_hvp_of_batch.
    + apply raises_only_bind; [auto with raises|].
      intros loader. apply raises_only_for_each.
      intros flat_hvp batch.
      apply raises_only_bind; [apply raises_only_hvp_of_batch|auto with raises].
  - intros flat_hvp. destruct P; auto with raises.
Qed.

(** *** Linearity in the Hessian *)

Lemma weighted_add (cs : list (nat * Qc)) (f g : nat → nat → Qc) (j : nat) :
  weighted cs (λ i j, f i j + g i j)%Qc j
  = (weighted cs f j + weighted cs g j)%Qc.
Proof.
  unfold weighted. induction cs as [|ic cs IH]; simpl.
  - by rewrite Qcplus_0_l.
  - rewrite IH. ring.
Qed.

Lemma weighted_ext (cs : list (nat * Qc)) (f g : nat → nat → Qc) (j : nat) :
  (∀ i, f i j = g i j) → weighted cs f j = weighted cs g j.
Proof.
  intros H. unfold weighted. induction cs as [|ic cs IH]; simpl; [done|].
  by rewrite IH, H.
Qed.

Lemma Qc_of_nat_nonzero (n : nat) :
  n ≠ 0 → Qc_of_Z (Z.of_nat n) ≠ 0%Qc.
Proof.
  intros Hn H. apply (f_equal (λ x : Qc, Qnum (this x))) in H.
  simpl in H. lia.
Qed.

Variable per_example : example → dscalar.

Lemma hess_sum_loss_app (b1 b2 : list example) (i j : nat) :
  hess (sum_loss per_example (b1 ++ b2)) i j
  = (hess (sum_loss per_example b1) i j
     + hess (sum_loss per_example b2) i j)%Qc.
Proof.
  simpl. induction b1 as [|e b1 IH]; simpl.
  - by rewrite Qcplus_0_l.
  - rewrite IH. ring.
Qed.

(** The weight [batch_size / len] turns the mean over the batch into
    the batch's share of the mean over the dataset. *)
Lemma hess_weighted_mean (batch : list example) (len i j : nat) :
  hess (mul_div (mean_loss per_example batch) (length batch) len) i j
  = (hess (sum_loss per_example batch) i j / Qc_of_Z (Z.of_nat len))%Qc.
Proof.
  destruct batch as [|e batch].
  - simpl. unfold Qcdiv. ring.
  - cbn [mul_div mean_loss hess].
    pose proof (Qc_of_nat_nonzero (length (e :: batch))) as Hb.
    specialize (Hb ltac:(done)).
    set (b := Qc_of_Z (Z.of_nat (length (e :: batch)))) in *.
    set (x := hess (sum_loss per_example (e :: batch)) i j).
    unfold Qcdiv. rewrite <-!Qcmult_assoc.
    rewrite (Qcmult_assoc (/ b)), (Qcmult_comm (/ b)), Qcmult_inv_r by done.
    by rewrite Qcmult_1_l.
Qed.

Lemma share_app (cs : list (nat * Qc)) (len : nat)
    (b1 b2 : list example) (j : nat) :
  share per_example cs len (b1 ++ b2) j
  = (share per_example cs len b1 j + share per_example cs len b2 j)%Qc.
Proof.
  unfold share. rewrite <-weighted_add. apply weighted_ext.
  intros i. rewrite hess_sum_loss_app. unfold Qcdiv. ring.
Qed.

Lemma share_nil (cs : list (nat * Qc)) (len j : nat) :
  share per_example cs len [] j = 0%Qc.
Proof.
  unfold share.
  rewrite (weighted_ext _ _ (λ _ _, 0%Qc)).
  - unfold weighted. induction cs as [|ic cs IH]; simpl; [done|].
    rewrite IH. ring.
  - intros i. simpl. unfold Qcdiv. ring.
Qed.

Lemma hvp_of_batch_mean (num_params len : nat) (vector : list Qc)
    (graph : list example → autograd)
    (cs : list (nat * Qc)) (batch : list example) :
  differentiable graph → batch ≠ [] →
  coefficients num_params vector = Some cs →
  hvp_of_batch example num_params (mean_loss per_example) graph len vector
    batch
  = Ok (share per_example cs len batch <$> seq 0 num_params).
Proof.
  intros Hg Hne Hcs. rewrite (hvp_of_batch_returns _ _ _ _ _ cs) by done.
  f_equal. apply list_fmap_ext. intros _ j _. unfold share.
  apply weighted_ext. intros i. apply hess_weighted_mean.
Qed.

(** *** The loop over the chunks *)

Lemma replicate_fmap_seq (n : nat) (x : Qc) :
  replicate n x = (λ _, x) <$> seq 0 n.
Proof.
  generalize 0. induction n as [|n IH]; intros m; simpl; [done|].
  by rewrite <-IH.
Qed.

Lemma zip_with_fmap_same {A B C D} (f : A → B → C) (g : D → A)
    (h : D → B) (l : list D) :
  zip_with f (g <$> l) (h <$> l) = (λ x, f (g x) (h x)) <$> l.
Proof.
  induction l as [|x l IH]; [done|].
  rewrite !fmap_cons. cbn [zip_with]. by rewrite IH.
Qed.

Lemma batches_fuel_nonempty (fuel batch_size : nat)
    (dataset : list example) :
  0 < batch_size →
  Forall (λ batch, batch ≠ []) (batches_fuel fuel batch_size dataset).
Proof.
  intros Hb. revert dataset.
  induction fuel as [|fuel IH]; intros dataset; [constructor|].
  destruct dataset as [|e dataset]; [constructor|].
  cbn [batches_fuel]. constructor; [|apply IH].
  destruct batch_size; [lia|done].
Qed.

Lemma chunk_loop (num_params len batch_size : nat) (vector : list Qc)
    (graph : list example → autograd)
    (cs : list (nat * Qc)) (fuel : nat) (dataset : list example)
    (a : nat → Qc) :
  differentiable graph →
  coefficients num_params vector = Some cs →
  0 < batch_size → length dataset ≤ fuel →
  for_each
    (λ flat_hvp batch,
       hvp_batch ← hvp_of_batch example num_params
                     (mean_loss per_example) graph len vector batch;
       Ok (zip_with Qcplus flat_hvp hvp_batch))
    (batches_fuel fuel batch_size dataset) (a <$> seq 0 num_params)
  = Ok ((λ j, a j + share per_example cs len dataset j)%Qc
          <$> seq 0 num_params).
Proof.
  intros Hg Hcs Hb. revert dataset a.
  induction fuel as [|fuel IH]; intros dataset a Hlen.
  - destruct dataset; [|simpl in Hlen; lia]. simpl. f_equal.
    apply list_fmap_ext. intros _ j _.
    by rewrite share_nil, Qcplus_0_r.
  - destruct dataset as [|e dataset].
    + simpl. f_equal. apply list_fmap_ext. intros _ j _.
      by rewrite share_nil, Qcplus_0_r.
    + cbn [batches_fuel]. rewrite for_each_cons.
      rewrite (hvp_of_batch_mean _ _ _ _ cs);
        [|done|by destruct batch_size; [lia|]|done].
      cbn [mbind result_bind]. rewrite zip_with_fmap_same.
      rewrite IH.
      * f_equal. apply list_fmap_ext. intros _ j _.
        rewrite <-(take_drop batch_size (e :: dataset)) at 3.
        rewrite share_app. ring.
      * rewrite length_drop. simpl in *. lia.
Qed.

(** The first chunk that raises ends the loop. *)
Lemma chunk_loop_raises (num_params len batch_size : nat)
    (vector : list Qc) (batch_loss : list example → dscalar)
    (graph : list example → autograd)
    (dataset : list example) (acc : list Qc) (e : exn) :
  dataset ≠ [] →
  hvp_of_batch example num_params batch_loss graph len vector
    (take batch_size dataset) = Err e →
  for_each
    (λ flat_hvp batch,
       hvp_batch ← hvp_of_batch example num_params batch_loss graph len
                     vector batch;
       Ok (zip_with Qcplus flat_hvp hvp_batch))
    (batches_fuel (length dataset) batch_size dataset) acc
  = Err e.
Proof.
  intros Hne He. destruct dataset as [|x dataset]; [done|].
  cbn [length batches_fuel]. rewrite for_each_cons. by rewrite He.
Qed.

Lemma chunk_loop_shape (num_params len : nat) (vector : list Qc)
    (cs : list (nat * Qc)) (batch_loss : list example → dscalar)
    (graph : list example → autograd)
    (loader : list (list example)) (a : nat → Qc) :
  differentiable graph → Forall (λ batch, batch ≠ []) loader →
  coefficients num_params vector = Some cs →
  ∃ f, for_each
         (λ flat_hvp batch,
            hvp_batch ← hvp_of_batch example num_params batch_loss graph len
                          vector batch;
            Ok (zip_with Qcplus flat_hvp hvp_batch))
         loader (a <$> seq 0 num_params)
       = Ok (f <$> seq 0 num_params).
Proof.
  intros Hg Hloader Hcs. revert a.
  induction Hloader as [|batch loader Hne _ IH]; intros a.
  - by exists a.
  - rewrite for_each_cons, (hvp_of_batch_returns _ _ _ _ _ cs) by done.
    cbn [mbind result_bind]. rewrite zip_with_fmap_same. apply IH.
Qed.

Lemma full_loader (dataset : list example) :
  dataset ≠ [] →
  ∃ rest, DataLoader dataset (Z.of_nat (length dataset))
          = Ok (dataset :: rest).
Proof.
  intros Hne. destruct dataset as [|e dataset]; [done|].
  unfold DataLoader.
  destruct (Z.leb_spec (Z.of_nat (length (e :: dataset))) 0) as [H|_];
    [simpl in H; lia|].
  rewrite Nat2Z.id. cbn [length batches_fuel].
  rewrite take_ge by (simpl; lia). by eexists.
Qed.

End WithTorch.

(** *** Well-formed calls return a vector of the model's size *)

Lemma coefficients_same_length (vector : list Qc) :
  coefficients (length vector) vector
  = Some (zip (seq 0 (length vector)) vector).
Proof. unfold coefficients. by rewrite decide_True. Qed.

Lemma compute_hvp_succeeds (tsqrt : Qc → Qc) (example : Type)
    (parameters : list (list nat)) (batch_loss : list example → dscalar)
    (graph : list example → autograd)
    (dataset : list example) (vector : list Qc)
    (physical_batch_size : option Z) (P : option (list Qc)) :
  differentiable graph →
  parameters ≠ [] → dataset ≠ [] →
  length vector = sum_list (EigenvectorAnalysis.numel <$> parameters) →
  (∀ p, P = Some p →
        length p = sum_list (EigenvectorAnalysis.numel <$> parameters)) →
  (∀ b, physical_batch_size = Some b → (0 < b)%Z) →
  ∃ flat_hvp,
    compute_hvp tsqrt example parameters batch_loss graph dataset vector
      physical_batch_size P = Ok flat_hvp
    ∧ length flat_hvp = sum_list (EigenvectorAnalysis.numel <$> parameters).
Proof.
  intros Hg Hpar Hdata Hvec HP Hb. unfold compute_hvp.
  destruct parameters as [|shape0 parameters]; [done|].
  cbn [mbind result_bind].
  set (n := sum_list (EigenvectorAnalysis.numel <$> shape0 :: parameters)) in *.
  assert (∃ scaled,
    match P with
    | Some p => broadcast2 Qcdiv vector (tsqrt <$> p)
    | None => Ok vector
    end = Ok scaled ∧ length scaled = n) as (scaled & -> & Hscaled).
  { destruct P as [p|]; [|by exists vector].
    rewrite broadcast2_same_length
      by (rewrite length_fmap, (HP p eq_refl); done).
    eexists. split; [done|].
    rewrite length_zip_with, length_fmap, (HP p eq_refl). lia. }
  cbn [mbind result_bind].
  pose proof (coefficients_same_length scaled) as Hcs.
  rewrite Hscaled in Hcs.
  assert (∃ f,
    (if match physical_batch_size with
        | Some b => (Z.of_nat (length dataset) <=? b)%Z
        | None => true
        end
     then
       loader ← DataLoader dataset (Z.of_nat (length dataset));
       match loader with
       | [] => Err (Raise "StopIteration" "")
       | batch :: _ =>
           hvp_of_batch example n batch_loss graph (length dataset) scaled
             batch
       end
     else
       loader ← DataLoader dataset (default 0%Z physical_batch_size);
       for_each
         (λ flat_hvp batch,
            hvp_batch ← hvp_of_batch example n batch_loss graph
                          (length dataset) scaled batch;
            Ok (zip_with Qcplus flat_hvp hvp_batch))
         loader (replicate n 0%Qc))
    = Ok (f <$> seq 0 n)) as (f & ->).
  { match goal with |- context [if ?c then _ else _] => destruct c eqn:Hc end.
    - destruct (full_loader example dataset Hdata) as [rest ->].
      cbn [mbind result_bind].
      rewrite (hvp_of_batch_returns _ _ _ _ _ _ _ _ Hg Hdata Hcs).
      by eexists.
    - destruct physical_batch_size as [b|]; [|done].
      specialize (Hb b eq_refl).
      change (default 0%Z (Some b)) with b. unfold DataLoader.
      destruct (Z.leb_spec b 0); [lia|]. cbn [mbind result_bind].
      rewrite replicate_fmap_seq.
      eapply chunk_loop_shape; [done| |done].
      apply batches_fuel_nonempty. lia. }
  cbn [mbind result_bind].
  destruct P as [p|].
  - rewrite broadcast2_same_length
      by (rewrite !length_fmap, length_seq, (HP p eq_refl); done).
    eexists. split; [done|].
    rewrite length_zip_with, !length_fmap, length_seq, (HP p eq_refl).
    fold n. lia.
  - eexists. split; [done|]. by rewrite length_fmap, length_seq.
Qed.

(** *** Chunked against unchunked *)

(** C1 (amended). When the loss of a batch is the mean of the losses of
    its examples, the model runs the same operations on every batch, and
    the chunk size is positive, the chunked computation and the unchunked
    one have the same outcome, in exact arithmetic, for the same probe,
    parameters and preconditioner; when the two calls of autograd return,
    on a non-empty dataset and a probe of the model's size this outcome
    is a vector of that size. *)
Theorem compute_hvp_chunked_agrees (tsqrt : Qc → Qc) (example : Type)
    (parameters : list (list nat)) (per_example : example → dscalar)
    (graph : list example → autograd)
    (dataset : list example) (vector : list Qc) (chunk_size : Z)
    (P : option (list Qc)) :
  (0 < chunk_size)%Z →
  uniform graph →
  compute_hvp tsqrt example parameters (mean_loss per_example) graph dataset
    vector (Some chunk_size) P
  = compute_hvp tsqrt example parameters (mean_loss per_example) graph
      dataset vector None P
  ∧ (differentiable graph →
     parameters ≠ [] → dataset ≠ [] →
     length vector = sum_list (EigenvectorAnalysis.numel <$> parameters) →
     (∀ p, P = Some p →
           length p = sum_list (EigenvectorAnalysis.numel <$> parameters)) →
     ∃ flat_hvp,
       compute_hvp tsqrt example parameters (mean_loss per_example) graph
         dataset vector None P = Ok flat_hvp
       ∧ length flat_hvp
         = sum_list (EigenvectorAnalysis.numel <$> parameters)).
Proof.
  intros Hchunk Huniform. split.
  2:{ intros. by apply compute_hvp_succeeds. }
  unfold compute_hvp.
  destruct parameters as [|shape0 parameters]; [done|].
  cbn [mbind result_bind].
  set (n := sum_list (EigenvectorAnalysis.numel <$> shape0 :: parameters)).
  destruct (match P with
            | Some p => broadcast2 Qcdiv vector (tsqrt <$> p)
            | None => Ok vector
            end) as [scaled|e]; [|done].
  cbn [mbind result_bind]. f_equal.
  destruct (Z.leb_spec (Z.of_nat (length dataset)) chunk_size) as [|Hlt];
    [done|].
  assert (dataset ≠ []) as Hdata by (intros ->; simpl in Hlt; lia).
  destruct (full_loader example dataset Hdata) as [rest ->].
  change (default 0%Z (Some chunk_size)) with chunk_size. unfold DataLoader.
  destruct (Z.leb_spec chunk_size 0); [lia|]. cbn [mbind result_bind].
  assert (take (Z.to_nat chunk_size) dataset ≠ []) as Hfirst.
  { destruct dataset as [|x dataset]; [done|].
    destruct (Z.to_nat chunk_size) eqn:Hc; [lia|done]. }
  pose proof (Huniform _ _ Hfirst Hdata) as Hsame.
  destruct (hvp_of_batch example n (mean_loss per_example) graph
              (length dataset) scaled dataset) as [whole|e] eqn:Hwhole.
  - (* the unchunked pass returns: every pass of the loop does *)
    rewrite hvp_of_batch_weighted in Hwhole.
    destruct (loss_error (graph dataset)) eqn:Hle; [done|].
    destruct (coefficients n scaled) as [cs|] eqn:Hcs; [|done].
    destruct (grad_error (graph dataset)) eqn:Hge; [done|].
    assert (differentiable graph) as Hg.
    { intros batch Hne. by rewrite (Huniform batch dataset Hne Hdata). }
    rewrite replicate_fmap_seq.
    rewrite (chunk_loop example per_example n _ _ scaled graph cs)
      by (done || lia).
    rewrite <-Hwhole. cbn [autograd_grad]. f_equal.
    apply list_fmap_ext. intros _ j _. rewrite Qcplus_0_l.
    unfold share. apply weighted_ext. intros i.
    symmetry. apply hess_weighted_mean.
  - (* it raises: the first chunk raises the same *)
    apply chunk_loop_raises; [done|].
    rewrite hvp_of_batch_weighted in Hwhole |- *.
    rewrite Hsame.
    destruct (loss_error (graph dataset)); [done|].
    destruct (coefficients n scaled); [|done].
    by destruct (grad_error (graph dataset)).
Qed.

Lemma compute_hvp_chunked_agrees_witness :
  compute_hvp sqrt_exact Z [[2]] (mean_loss sample_loss) full_graph
    [1; 2; 3]%Z (rationals [1; 2]%Z) (Some 2%Z) None
  = compute_hvp sqrt_exact Z [[2]] (mean_loss sample_loss) full_graph
      [1; 2; 3]%Z (rationals [1; 2]%Z) None None.
Proof.
  apply (compute_hvp_chunked_agrees sqrt_exact Z [[2]] sample_loss
           full_graph [1; 2; 3]%Z (rationals [1; 2]%Z) 2 None).
  - reflexivity.
  - intros batch1 batch2 _ _. reflexivity.
Defined.

(** C1 fails as stated: a loss that sums the losses of the examples of
    the batch.  Three examples in chunks of two give half of what the
    unchunked computation gives. *)
Lemma compute_hvp_sum_loss_chunks_differ :
  values (compute_hvp sqrt_exact Z [[2]] (sum_loss sample_loss) full_graph
            [1; 2; 3]%Z (rationals [1; 2]%Z) (Some 2%Z) None)
  = Some [15%Q; 24%Q]
  ∧ values (compute_hvp sqrt_exact Z [[2]] (sum_loss sample_loss) full_graph
              [1; 2; 3]%Z (rationals [1; 2]%Z) None None)
    = Some [30%Q; 48%Q].
Proof. split; vm_compute; reflexivity. Qed.

(** *** The preconditioner *)

Lemma sqrt_exact_positive (x : Qc) : (0 < x)%Qc → (0 < sqrt_exact x)%Qc.
Proof.
  unfold sqrt_exact, Qclt. cbn [this Q2Qc].
  change (Qred 0) with (0 # 1)%Q.
  rewrite Qred_correct. unfold Qlt. cbn [Qnum Qden]. intros Hx.
  assert (0 < Z.sqrt (Qnum x))%Z by (apply Z.sqrt_pos; lia). lia.
Qed.

Lemma compute_hvp_unfold_preconditioner (tsqrt : Qc → Qc) (example : Type)
    (parameters : list (list nat)) (batch_loss : list example → dscalar)
    (graph : list example → autograd)
    (dataset : list example) (vector : list Qc)
    (physical_batch_size : option Z) (p : list Qc) :
  parameters ≠ [] →
  compute_hvp tsqrt example parameters batch_loss graph dataset vector
    physical_batch_size (Some p)
  = (scaled ← broadcast2 Qcdiv vector (tsqrt <$> p);
     flat_hvp ← compute_hvp tsqrt example parameters batch_loss graph dataset
                  scaled physical_batch_size None;
     broadcast2 Qcdiv flat_hvp (tsqrt <$> p)).
Proof.
  intros Hpar. unfold compute_hvp.
  destruct parameters as [|shape0 parameters]; [done|].
  cbn [mbind result_bind].
  destruct (broadcast2 Qcdiv vector (tsqrt <$> p)) as [scaled|e]; [|done].
  cbn [mbind result_bind].
  match goal with
  | |- ?inner ≫= _ = _ => destruct inner as [flat_hvp|e]; done
  end.
Qed.




End HvpProps.

(** * Further properties *)

(** ** utils/activation.py and utils/initialization.py *)

Module UtilsProps.
Import Activation Initialization InitializeModel.

(** X1. [activation_exists] answers whether [get_activation] returns: it
    is true exactly for the names [get_activation] has a module for, and
    false exactly for those it raises [ValueError] on. *)
Theorem activation_exists_get_activation (activation_name : string) :
  (activation_exists activation_name = true
   ↔ succeeds (get_activation activation_name))
  ∧ (activation_exists activation_name = false
     ↔ fails_with "ValueError" (get_activation activation_name)).
Proof.
  unfold activation_exists, get_activation, get_activation_with.
  rewrite ActivationProps.lookup_activations.
  destruct (bool_decide_reflect
              (lower activation_name
               ∈ ["relu"; "sigmoid"; "tanh"; "softmax"; "leaky_relu"]))
    as [Hin|Hnin].
  - assert (succeeds
      (match
         (if decide (lower activation_name = "relu") then Some ReLU
          else if decide (lower activation_name = "sigmoid") then Some Sigmoid
          else if decide (lower activation_name = "tanh") then Some Tanh
          else if decide (lower activation_name = "softmax") then Some (Softmax 1)
          else if decide (lower activation_name = "leaky_relu")
               then Some (LeakyReLU (Q2Qc (1 # 100)))
          else None)
       with
       | Some m => Ok m
       | None =>
           Err (Raise "ValueError"
                  ("Activation function '" +:+ lower activation_name
                   +:+ "' not recognized"))
       end)) as Hs.
    { repeat case_decide; try by eexists.
      exfalso. repeat (apply elem_of_cons in Hin as [?|Hin]; [done|]).
      by apply elem_of_nil in Hin. }
    split; [done|]. split; [done|].
    intros Hf. destruct Hs as [m Hm]. rewrite Hm in Hf.
    by apply fails_with_Ok in Hf.
  - repeat (case_decide;
            [exfalso; apply Hnin;
             match goal with H : lower _ = _ |- _ => rewrite H end;
             in_list|]).
    split.
    + split; [done|]. intros [m Hm]. discriminate.
    + split; [|done]. intros _. by apply fails_with_Err.
Qed.

(** *** initialize_weights, case by case *)

Lemma initialize_weights_cases (nn_init : init_fn → tensor → result tensor)
    (l : layer) (method : string) :
  (weight l = NoAttr ∧ initialize_weights nn_init l method = (l, Ok ()))
  ∨ (weight l ≠ NoAttr ∧ initialization_exists method = false
     ∧ initialize_weights nn_init l method = (l, Err (not_recognized method)))
  ∨ (weight l = AttrNone ∧ initialization_exists method = true
     ∧ ∃ e, initialize_weights nn_init l method = (l, Err e))
  ∨ (∃ w f, weight l = Attr w ∧ initialization_exists method = true
     ∧ ((∃ e, nn_init f w = Err e
              ∧ initialize_weights nn_init l method = (l, Err e))
        ∨ (∃ w', nn_init f w = Ok w'
              ∧ initialize_weights nn_init l method
                = ({| weight := Attr w'; bias := zeroed (bias l) |}, Ok ())))).
Proof.
  unfold initialize_weights, initialization_exists, not_recognized.
  destruct (weight l) as [| |w] eqn:Hw; [by left| |].
  - right.
    repeat (match goal with
            | |- context [String.eqb (lower method) ?s] =>
                destruct (String.eqb_spec (lower method) s) as [->|?]
            end;
            [right; left; split; [done|]; split; [reflexivity|];
             unfold init_weight; rewrite Hw; eexists; reflexivity|]).
    left. split; [done|]. split; [|done].
    apply bool_decide_eq_false. intros Hin.
    repeat (apply elem_of_cons in Hin as [?|Hin]; [done|]).
    by apply elem_of_nil in Hin.
  - right.
    assert (∀ f,
      (∃ e, nn_init f w = Err e ∧
         (let '(l1, r) := init_weight nn_init f l in
          match r with
          | Err e => (l1, Err e)
          | Ok _ =>
              match bias l1 with
              | Attr b => ({| weight := weight l1; bias := Attr (fill 0%Qc b) |}, Ok ())
              | _ => (l1, Ok ())
              end
          end) = (l, Err e))
      ∨ (∃ w', nn_init f w = Ok w' ∧
         (let '(l1, r) := init_weight nn_init f l in
          match r with
          | Err e => (l1, Err e)
          | Ok _ =>
              match bias l1 with
              | Attr b => ({| weight := weight l1; bias := Attr (fill 0%Qc b) |}, Ok ())
              | _ => (l1, Ok ())
              end
          end) = ({| weight := Attr w'; bias := zeroed (bias l) |}, Ok ())))
      as Hinit.
    { intros f. unfold init_weight. rewrite Hw.
      destruct (nn_init f w) as [w'|e]; [right|left; by eexists].
      exists w'. split; [done|]. simpl. by destruct (bias l). }
    repeat (match goal with
            | |- context [String.eqb (lower method) ?s] =>
                destruct (String.eqb_spec (lower method) s) as [Hm|?]
            end;
            [right; right; eexists w, _; split; [done|]; split;
               [rewrite Hm; reflexivity|apply Hinit]|]).
    left. split; [done|]. split; [|done].
    apply bool_decide_eq_false. intros Hin.
    repeat (apply elem_of_cons in Hin as [?|Hin]; [done|]).
    by apply elem_of_nil in Hin.
Qed.

(** X2. A layer without a weight attribute is returned as it is for every
    method name, a supported one or not; for a layer with a weight
    attribute an unsupported method name raises the "not recognized"
    [ValueError] and leaves the layer, its bias included, untouched. *)
Theorem initialize_weights_unsupported
    (nn_init : init_fn → tensor → result tensor) (l : layer)
    (method : string) :
  (weight l = NoAttr → initialize_weights nn_init l method = (l, Ok ()))
  ∧ (weight l ≠ NoAttr → initialization_exists method = false →
     initialize_weights nn_init l method = (l, Err (not_recognized method))).
Proof.
  destruct (initialize_weights_cases nn_init l method)
    as [[Hw H]|[(Hw & Hm & H)|[(Hw & Hm & e & H)|(w & f & Hw & Hm & H)]]];
    split; intros; try done; congruence.
Qed.

Lemma initialize_weights_unsupported_witness :
  initialize_weights torch_init linear_layer "He"
  = (linear_layer, Err (not_recognized "He")).
Proof.
  apply (initialize_weights_unsupported torch_init linear_layer "He");
    [discriminate|reflexivity].
Defined.

(** *** initialize_model *)

Lemma module_eta (m : module) : {| kind := kind m; attrs := attrs m |} = m.
Proof. by destruct m. Qed.

Lemma initialize_model_cons (nn_init : init_fn → tensor → result tensor)
    (m : module) (rest : list module) (method : string) :
  initialize_model nn_init (m :: rest) method
  = if is_linear_or_conv (kind m) then
      match initialize_weights nn_init (attrs m) method with
      | (l, Ok _) =>
          ({| kind := kind m; attrs := l |}
             :: fst (initialize_model nn_init rest method),
           snd (initialize_model nn_init rest method))
      | (l, Err e) => ({| kind := kind m; attrs := l |} :: rest, Err e)
      end
    else (m :: fst (initialize_model nn_init rest method),
          snd (initialize_model nn_init rest method)).
Proof.
  simpl. destruct (is_linear_or_conv (kind m)).
  - destruct (initialize_weights nn_init (attrs m) method) as [l [[]|e]];
      [|done].
    by destruct (initialize_model nn_init rest method).
  - by destruct (initialize_model nn_init rest method).
Qed.

(** X3. With a method name that is not supported, [initialize_model]
    changes no module; it raises the "not recognized" [ValueError] when
    the model has a linear or convolution module with a weight attribute,
    and returns normally when it has none. *)
Theorem initialize_model_unsupported
    (nn_init : init_fn → tensor → result tensor) (modules : list module)
    (method : string) :
  initialization_exists method = false →
  initialize_model nn_init modules method
  = (modules,
     if existsb is_target modules then Err (not_recognized method)
     else Ok ()).
Proof.
  intros Hm. induction modules as [|m rest IH]; [done|].
  rewrite initialize_model_cons, IH.
  cbn [existsb fst snd].
  change (is_target m)
    with (is_linear_or_conv (kind m)
          && match weight (attrs m) with NoAttr => false | _ => true end).
  destruct (is_linear_or_conv (kind m)); [|done].
  destruct (initialize_weights_cases nn_init (attrs m) method)
    as [[Hw ->]|[(Hw & _ & ->)|[(_ & Hm' & _)|(w & f & _ & Hm' & _)]]];
    try congruence.
  - rewrite Hw, module_eta. done.
  - rewrite module_eta. by destruct (weight (attrs m)).
Qed.

Lemma initialize_model_unsupported_witness :
  initialize_model torch_init sample_modules "He"
  = (sample_modules, Err (not_recognized "He")).
Proof.
  apply (initialize_model_unsupported torch_init sample_modules "He").
  reflexivity.
Defined.

(** X4. When [initialize_model] returns, the list of modules has kept its
    length and classes, every module that is neither linear nor
    convolutional is as it was, and every linear or convolution module
    with a weight attribute and a bias tensor has a bias of zeros.  It
    returns whenever the method is supported, the initializers accept
    every weight, and no linear or convolution module has [None] for a
    weight. *)
Theorem initialize_model_returns
    (nn_init : init_fn → tensor → result tensor) (modules : list module)
    (method : string) :
  (∀ modules',
     initialize_model nn_init modules method = (modules', Ok ()) →
     Forall2
       (λ m m',
          kind m' = kind m
          ∧ (is_linear_or_conv (kind m) = false → m' = m)
          ∧ (is_target m = true → ∀ b,
               bias (attrs m) = Attr b →
               bias (attrs m') = Attr (fill 0%Qc b)))
       modules modules')
  ∧ (initialization_exists method = true →
     Forall (λ m, is_linear_or_conv (kind m) = true →
                  weight (attrs m) ≠ AttrNone
                  ∧ ∀ f w, weight (attrs m) = Attr w →
                           succeeds (nn_init f w)) modules →
     snd (initialize_model nn_init modules method) = Ok ()).
Proof.
  split.
  - induction modules as [|m rest IH]; intros modules' H.
    + inversion H. constructor.
    + rewrite initialize_model_cons in H. unfold is_target.
      destruct (is_linear_or_conv (kind m)) eqn:Hk.
      * destruct (initialize_weights_cases nn_init (attrs m) method)
          as [[Hw Hi]|[(Hw & _ & Hi)|[(Hw & _ & e & Hi)
              |(w & f & Hw & _ & [(e & _ & Hi)|(w' & _ & Hi)])]]];
          rewrite Hi in H; try discriminate; inversion H; subst modules';
          (constructor;
           [|apply IH; destruct (initialize_model nn_init rest method);
             simpl in *; congruence]).
        -- rewrite module_eta.
           split; [done|]. split; [done|].
           intros Ht. rewrite Hk, Hw in Ht. discriminate.
        -- simpl. split; [done|]. split; [congruence|].
           intros _ b Hb. by rewrite Hb.
      * inversion H; subst modules'.
        constructor;
          [|apply IH; destruct (initialize_model nn_init rest method);
             simpl in *; congruence].
        split; [done|]. split; [done|].
        intros Ht. rewrite Hk in Ht. discriminate.
  - intros Hm Hall. induction Hall as [|m rest Hweight _ IH]; [done|].
    rewrite initialize_model_cons.
    destruct (is_linear_or_conv (kind m)) eqn:Hk; [|done].
    destruct (Hweight eq_refl) as [Hnone Hinit].
    destruct (initialize_weights_cases nn_init (attrs m) method)
      as [[Hw ->]|[(Hw & Hm' & _)|[(Hw & _)
          |(w & f & Hw & _ & [(e & He & _)|(w' & _ & ->)])]]];
      try done; try congruence.
    destruct (Hinit f w Hw). congruence.
Qed.

Lemma initialize_model_returns_witness :
  snd (initialize_model torch_init sample_modules "XAVIER") = Ok ().
Proof.
  apply (initialize_model_returns torch_init sample_modules "XAVIER").
  - reflexivity.
  - repeat constructor; try discriminate.
    intros f w [= <-]. destruct f; by eexists.
Defined.

End UtilsProps.

(** ** analysis/eigenvector_analysis.py: layer sizes and layer sums *)

Module LayerProps.
Import EigenvectorAnalysis LayerInfo IndexProps AnalysisProps.

Local Open Scope nat_scope.

Lemma type_of_cases (nm : string) :
  (type_of nm = "weight" ∧ String.eqb (type_of nm) "weight" = true)
  ∨ (type_of nm = "bias" ∧ String.eqb (type_of nm) "weight" = false).
Proof. unfold type_of. destruct (endswith nm "bias"); [right|left]; done. Qed.

Lemma numel_of_snoc (model : named_parameters) (nm : string)
    (shp : list nat) (layer_name kind : string) :
  numel_of (model ++ [(nm, shp)]) layer_name kind
  = numel_of model layer_name kind
    + (if decide (layer_of nm = layer_name ∧ type_of nm = kind)
       then numel shp else 0).
Proof.
  unfold numel_of. rewrite filter_app, fmap_app, sum_list_with_app.
  f_equal. rewrite filter_cons, filter_nil. simpl.
  case_decide; simpl; lia.
Qed.

Lemma numel_of_absent (model : named_parameters) (layer_name kind : string) :
  layer_name ∉ (λ p, layer_of (fst p)) <$> model →
  numel_of model layer_name kind = 0.
Proof.
  intros Hnin. unfold numel_of.
  induction model as [|[nm shp] model IH]; [done|].
  rewrite fmap_cons in Hnin. apply not_elem_of_cons in Hnin as [Hne Hnin].
  rewrite filter_cons. simpl in *.
  rewrite decide_False by (intros [? ?]; done). by apply IH.
Qed.

Lemma add_layer_info_lookup
    (layer_info : gmap string layer_counts) (layer_sizes : gmap string nat)
    (nm : string) (shp : list nat) (layer_name : string) :
  fst (add_layer_info (layer_info, layer_sizes) (nm, shp)) !! layer_name
  = if decide (layer_of nm = layer_name)
    then
      let c := default {| weights := 0; biases := 0; total := 0 |}
                 (layer_info !! layer_name) in
      Some (if String.eqb (type_of nm) "weight"
            then {| weights := weights c + numel shp; biases := biases c;
                    total := total c + numel shp |}
            else {| weights := weights c; biases := biases c + numel shp;
                    total := total c + numel shp |})
    else layer_info !! layer_name.
Proof.
  unfold add_layer_info. cbn [fst].
  case_decide as Hl.
  - subst layer_name. rewrite lookup_insert_eq.
    destruct (layer_info !! layer_of nm) as [c|] eqn:Hc.
    + rewrite Hc. simpl. by destruct (String.eqb (type_of nm) "weight").
    + rewrite lookup_insert_eq. simpl.
      by destruct (String.eqb (type_of nm) "weight").
  - rewrite lookup_insert_ne by done.
    destruct (layer_info !! layer_of nm); [done|].
    by rewrite lookup_insert_ne.
Qed.

Lemma extract_layer_info_lookup (model : named_parameters)
    (layer_name : string) :
  fst (extract_layer_info model) !! layer_name = counts_of model layer_name.
Proof.
  unfold extract_layer_info.
  induction model as [|[nm shp] model IH] using rev_ind.
  - simpl. rewrite lookup_empty. unfold counts_of.
    rewrite decide_False; [done|]. simpl. apply not_elem_of_nil.
  - rewrite foldl_app. cbn [foldl].
    destruct (foldl add_layer_info (∅, ∅) model) as [info sizes].
    rewrite add_layer_info_lookup. cbn [fst] in IH. rewrite IH.
    unfold counts_of. rewrite fmap_app. cbn [fmap list_fmap fst].
    rewrite !numel_of_snoc.
    case_decide as Hl.
    + subst layer_name. rewrite (decide_True (P:=_ ∈ _ ++ _)).
      2:{ apply elem_of_app. right. by left. }
      assert (Hnew : layer_of nm ∉ (λ p, layer_of p.1) <$> model →
                     numel_of model (layer_of nm) "weight" = 0
                     ∧ numel_of model (layer_of nm) "bias" = 0)
        by (intros; split; by apply numel_of_absent).
      destruct (type_of_cases nm) as [[Ht ->]|[Ht ->]]; rewrite Ht.
      * rewrite (decide_True (P:=_ ∧ "weight" = "weight")) by done.
        rewrite (decide_False (P:=_ ∧ "weight" = "bias")) by (intros [? ?]; done).
        case_decide as Hin; simpl; f_equal.
        -- f_equal; lia.
        -- destruct (Hnew Hin) as [-> ->]. f_equal; lia.
      * rewrite (decide_True (P:=_ ∧ "bias" = "bias")) by done.
        rewrite (decide_False (P:=_ ∧ "bias" = "weight")) by (intros [? ?]; done).
        case_decide as Hin; simpl; f_equal.
        -- f_equal; lia.
        -- destruct (Hnew Hin) as [-> ->]. f_equal; lia.
    + repeat (rewrite (decide_False (P:=_ ∧ _)) by (intros [? ?]; done)).
      rewrite !Nat.add_0_r.
      destruct (decide (layer_name ∈ (λ p, layer_of p.1) <$> model)) as [Hin|Hnin].
      * rewrite decide_True; [done|]. apply elem_of_app. by left.
      * rewrite decide_False; [done|]. intros Hin.
        apply elem_of_app in Hin as [?|Hin]; [done|].
        apply list_elem_of_singleton in Hin. done.
Qed.

Lemma extract_layer_sizes_snoc (model : named_parameters) (nm : string)
    (shp : list nat) :
  snd (extract_layer_info (model ++ [(nm, shp)]))
  = <[nm := numel shp]> (snd (extract_layer_info model)).
Proof.
  unfold extract_layer_info. rewrite foldl_app. cbn [foldl].
  by destruct (foldl add_layer_info (∅, ∅) model).
Qed.

(** X5. [extract_layer_info] gives every layer of the model, and no other
    name, a record whose [weights] and [biases] are the element counts of
    the layer's weight and bias tensors and whose [total] is their sum;
    when the parameter names are distinct, [layer_sizes] maps every
    parameter name to the element count of its tensor. *)
Theorem extract_layer_info_counts (model : named_parameters) :
  (∀ layer_name c,
     fst (extract_layer_info model) !! layer_name = Some c →
     total c = weights c + biases c
     ∧ weights c = numel_of model layer_name "weight"
     ∧ biases c = numel_of model layer_name "bias"
     ∧ ∃ nm shp, (nm, shp) ∈ model ∧ layer_of nm = layer_name)
  ∧ (∀ nm shp, (nm, shp) ∈ model →
       is_Some (fst (extract_layer_info model) !! layer_of nm))
  ∧ (NoDup (fst <$> model) →
     ∀ nm shp, (nm, shp) ∈ model →
       snd (extract_layer_info model) !! nm = Some (numel shp)).
Proof.
  split; [|split].
  - intros layer_name c. rewrite extract_layer_info_lookup. unfold counts_of.
    case_decide as Hin; [|done]. intros [= <-]. simpl.
    repeat split; try done.
    apply list_elem_of_fmap in Hin as ([nm shp] & -> & Hin). by exists nm, shp.
  - intros nm shp Hin. rewrite extract_layer_info_lookup. unfold counts_of.
    rewrite decide_True; [done|].
    apply list_elem_of_fmap. by exists (nm, shp).
  - induction model as [|[nm' shp'] model IH] using rev_ind;
      intros Hnd nm shp Hin.
    + by apply elem_of_nil in Hin.
    + rewrite extract_layer_sizes_snoc.
      rewrite fmap_app in Hnd. apply NoDup_app in Hnd as (Hnd & Hdis & _).
      apply elem_of_app in Hin as [Hin|Hin].
      * rewrite lookup_insert_ne; [by apply IH|].
        intros <-. apply (Hdis nm').
        -- apply list_elem_of_fmap. by exists (nm', shp).
        -- by left.
      * apply list_elem_of_singleton in Hin. inversion Hin; subst.
        apply lookup_insert_eq.
Qed.

Lemma extract_layer_info_counts_witness :
  snd (extract_layer_info small_model) !! "fc.bias" = Some 1.
Proof.
  destruct (extract_layer_info_counts small_model) as (_ & _ & H).
  apply (H ltac:(by vm_compute; apply (bool_decide_unpack _)) "fc.bias" [1]).
  right. left.
Defined.

(** X6. Every entry of the parameter index has its layer in [layer_info],
    with a positive total: the division by the layer total that the
    heatmap makes for the layers of [layer_contributions] finds its key
    and a non-zero divisor. *)
Theorem index_layer_has_positive_total (model : named_parameters)
    (mapping : gmap nat param_info) (k : nat) (info : param_info) :
  create_parameter_mapping model = Ok mapping →
  mapping !! k = Some info →
  ∃ c, fst (extract_layer_info model) !! layer info = Some c
       ∧ 0 < total c.
Proof.
  intros Hc Hk.
  destruct (create_parameter_mapping_lookup model) as (m & Hm & Hl).
  rewrite Hm in Hc. inversion Hc; subst m. rewrite Hl in Hk.
  apply locate_Some in Hk as (t & nm & shp & Ht & Hr & ->). simpl.
  apply list_elem_of_lookup_2 in Ht.
  rewrite extract_layer_info_lookup. unfold counts_of.
  rewrite decide_True by (apply list_elem_of_fmap; by exists (nm, shp)).
  eexists. split; [done|]. simpl.
  assert (numel shp ≤ numel_of model (layer_of nm) (type_of nm)) as Hle.
  { unfold numel_of.
    apply (sum_list_with_in (numel shp) id).
    apply list_elem_of_fmap. exists (nm, shp). split; [done|].
    apply list_elem_of_filter. done. }
  destruct (type_of_cases nm) as [[Ht' _]|[Ht' _]]; rewrite Ht' in Hle; lia.
Qed.

Lemma index_layer_has_positive_total_witness :
  ∃ c, fst (extract_layer_info small_model) !! "fc" = Some c ∧ 0 < total c.
Proof.
  apply (index_layer_has_positive_total small_model small_index 2
           {| name := "fc.bias"; layer := "fc"; coordinates := [0];
              shape := [1]; type := "bias" |});
    reflexivity.
Defined.

(** *** The per-layer sums *)

Local Open Scope Qc_scope.

Lemma add_layer_contribution_insert (param_mapping : gmap nat param_info)
    (d : gmap string Qc) (idx : nat) (v : Qc) (info : param_info) :
  param_mapping !! idx = Some info →
  add_layer_contribution param_mapping d (idx, v)
  = Ok (<[layer info := default 0 (d !! layer info) + v]> d).
Proof.
  intros Hi. unfold add_layer_contribution, getitem. rewrite Hi.
  cbn [mbind result_bind].
  destruct (d !! layer info) as [x|] eqn:Hd.
  - by rewrite Hd.
  - by rewrite lookup_insert_eq, insert_insert_eq.
Qed.

Lemma dict_sum_insert (d : gmap string Qc) (k : string) (y : Qc) :
  d !! k = None → dict_sum (<[k := y]> d) = y + dict_sum d.
Proof.
  intros Hk. unfold dict_sum. rewrite map_fold_insert_L; [done| |done].
  intros. ring.
Qed.

Lemma dict_sum_update (d : gmap string Qc) (k : string) (v : Qc) :
  dict_sum (<[k := default 0 (d !! k) + v]> d) = dict_sum d + v.
Proof.
  destruct (d !! k) as [x|] eqn:Hk; simpl.
  - rewrite <-insert_delete_eq.
    rewrite dict_sum_insert by apply lookup_delete_eq.
    unfold dict_sum at 2.
    rewrite (map_fold_delete_L _ _ k x d); [|intros; ring|done].
    fold (dict_sum (delete k d)). ring.
  - rewrite dict_sum_insert by done. ring.
Qed.

Lemma has_layer_cons (param_mapping : gmap nat param_info)
    (idx : nat) (v : Qc) (l : list (nat * Qc)) (layer_name : string) :
  has_layer param_mapping ((idx, v) :: l) layer_name
  = bool_decide (layer <$> param_mapping !! idx = Some layer_name)
    || has_layer param_mapping l layer_name.
Proof. reflexivity. Qed.

Lemma layer_mass_cons (param_mapping : gmap nat param_info)
    (idx : nat) (v : Qc) (l : list (nat * Qc)) (layer_name : string) :
  layer_mass param_mapping ((idx, v) :: l) layer_name
  = if decide (layer <$> param_mapping !! idx = Some layer_name)
    then v + layer_mass param_mapping l layer_name
    else layer_mass param_mapping l layer_name.
Proof. reflexivity. Qed.

Lemma layer_mass_absent (param_mapping : gmap nat param_info)
    (l : list (nat * Qc)) (layer_name : string) :
  has_layer param_mapping l layer_name = false →
  layer_mass param_mapping l layer_name = 0.
Proof.
  induction l as [|iv l IH]; [done|]. simpl.
  intros H. apply orb_false_iff in H as [H1 H2].
  apply bool_decide_eq_false in H1. rewrite decide_False by done. auto.
Qed.

Lemma layer_mass_nonneg (param_mapping : gmap nat param_info)
    (l : list (nat * Qc)) (layer_name : string) :
  Forall (λ iv, 0 ≤ snd iv) l →
  0 ≤ layer_mass param_mapping l layer_name.
Proof.
  induction 1 as [|iv l Hv _ IH]; simpl; [apply Qcle_refl|].
  case_decide; [|done].
  replace 0 with (0 + 0) by ring. by apply Qcplus_le_compat.
Qed.

Lemma layer_loop (param_mapping : gmap nat param_info)
    (l : list (nat * Qc)) (d : gmap string Qc) :
  Forall (λ iv, is_Some (param_mapping !! fst iv)) l →
  ∃ d', for_each (add_layer_contribution param_mapping) l d = Ok d'
        ∧ (∀ layer_name,
             d' !! layer_name
             = if has_layer param_mapping l layer_name
               then Some (default 0 (d !! layer_name)
                          + layer_mass param_mapping l layer_name)
               else d !! layer_name)
        ∧ dict_sum d' = dict_sum d + qsum (snd <$> l).
Proof.
  intros Hl. revert d.
  induction Hl as [|[idx v] l [info Hi] _ IH]; intros d.
  - exists d. split; [done|]. split; [done|]. simpl. unfold qsum. simpl. ring.
  - cbn [fst] in Hi.
    rewrite for_each_cons, (add_layer_contribution_insert _ _ _ _ _ Hi).
    cbn [mbind result_bind].
    destruct (IH (<[layer info := default 0 (d !! layer info) + v]> d))
      as (d' & -> & Hlook & Hsum).
    exists d'. split; [done|]. split.
    + intros layer_name. rewrite Hlook, has_layer_cons, layer_mass_cons, Hi.
      cbn [fmap option_fmap option_map].
      destruct (decide (layer info = layer_name)) as [->|Hne].
      * rewrite bool_decide_eq_true_2 by done. rewrite decide_True by done.
        rewrite lookup_insert_eq. cbn [orb default].
        destruct (has_layer param_mapping l layer_name) eqn:Hh.
        -- apply (f_equal Some). unfold id. ring.
        -- rewrite (layer_mass_absent _ _ _ Hh). apply (f_equal Some).
           unfold id. ring.
      * rewrite bool_decide_eq_false_2 by congruence.
        rewrite decide_False by congruence.
        rewrite lookup_insert_ne by done. done.
    + rewrite Hsum, dict_sum_update. rewrite fmap_cons. unfold qsum.
      cbn [foldr snd]. ring.
Qed.

Lemma enumerate_in_index (model : named_parameters)
    (mapping : gmap nat param_info) (abs_contrib : list Qc) :
  create_parameter_mapping model = Ok mapping →
  (length abs_contrib ≤ total_numel model)%nat →
  Forall (λ iv : nat * Qc, is_Some (mapping !! fst iv))
    (zip (seq 0 (length abs_contrib)) abs_contrib).
Proof.
  intros Hc Hlen. apply Forall_forall. intros [i x] Hin. simpl.
  apply elem_of_zip_l, elem_of_seq in Hin.
  apply (mapping_dom model mapping Hc). lia.
Qed.

Lemma enumerate_nonneg (eigenvector : list Qc) :
  Forall (λ iv : nat * Qc, 0 ≤ snd iv)
    (zip (seq 0 (length (Qcabs <$> eigenvector))) (Qcabs <$> eigenvector)).
Proof.
  apply Forall_forall. intros [i x] Hin. simpl.
  apply elem_of_zip_r, list_elem_of_fmap in Hin as (y & -> & _).
  apply Qcabs_nonneg.
Qed.

Lemma has_layer_enumerate (mapping : gmap nat param_info)
    (abs_contrib : list Qc) (layer_name : string) :
  has_layer mapping (zip (seq 0 (length abs_contrib)) abs_contrib) layer_name
  = true
  ↔ ∃ idx info, (idx < length abs_contrib)%nat ∧ mapping !! idx = Some info
                ∧ layer info = layer_name.
Proof.
  unfold has_layer. rewrite existsb_exists. split.
  - intros ([i x] & Hin & Hd). apply bool_decide_eq_true in Hd. simpl in Hd.
    apply list_elem_of_In, elem_of_zip_l, elem_of_seq in Hin.
    destruct (mapping !! i) as [info|] eqn:Hi; [|done].
    exists i, info. split; [lia|]. split; [done|]. by inversion Hd.
  - intros (i & info & Hlt & Hi & HL).
    destruct (lookup_lt_is_Some_2 abs_contrib i Hlt) as [x Hx].
    exists (i, x). split.
    + apply list_elem_of_In, list_elem_of_lookup. exists i.
      apply lookup_zip_with_Some. exists i, x. split; [done|].
      split; [|done]. apply lookup_seq. lia.
    + apply bool_decide_eq_true. simpl. by rewrite Hi, <-HL.
Qed.

(** X7. With [by_layer] set, and an eigenvector no longer than the index of
    the model, [analyze_eigenvector] returns a dict whose keys are exactly
    the layers of the flat offsets the eigenvector has; the value of a layer
    is the sum of the absolute components at the offsets of that layer,
    and is not negative. *)
Theorem analyze_eigenvector_layer_sums (argsort : list Qc → list nat)
    (model : named_parameters)
    (mapping : gmap nat param_info) (eigenvector : list Qc) (top_k : Z) :
  create_parameter_mapping model = Ok mapping →
  (length eigenvector ≤ total_numel model)%nat →
  ∃ d, analyze_eigenvector argsort eigenvector mapping top_k true
       = Ok (LayerContributions d)
       ∧ (∀ layer_name x,
            d !! layer_name = Some x →
            x = layer_mass mapping
                  (zip (seq 0 (length eigenvector)) (Qcabs <$> eigenvector))
                  layer_name
            ∧ 0 ≤ x
            ∧ ∃ idx info, (idx < length eigenvector)%nat
                          ∧ mapping !! idx = Some info
                          ∧ layer info = layer_name)
       ∧ (∀ idx info,
            (idx < length eigenvector)%nat → mapping !! idx = Some info →
            is_Some (d !! layer info)).
Proof.
  intros Hc Hlen. unfold analyze_eigenvector.
  destruct (layer_loop mapping
              (zip (seq 0 (length (Qcabs <$> eigenvector)))
                   (Qcabs <$> eigenvector)) ∅)
    as (d & -> & Hlook & _).
  { apply (enumerate_in_index model); [done|]. by rewrite length_fmap. }
  exists d. split; [done|].
  pose proof (enumerate_nonneg eigenvector) as Hnn.
  rewrite length_fmap in Hlook, Hnn.
  split.
  - intros layer_name x Hx. rewrite Hlook in Hx.
    destruct (has_layer mapping _ layer_name) eqn:Hh; [|by rewrite lookup_empty in Hx].
    rewrite lookup_empty in Hx. simpl in Hx. inversion Hx as [Hx'].
    split; [ring|]. split.
    + replace (0 + layer_mass mapping
                     (zip (seq 0 (length eigenvector)) (Qcabs <$> eigenvector))
                     layer_name)
        with (layer_mass mapping
                (zip (seq 0 (length eigenvector)) (Qcabs <$> eigenvector))
                layer_name) by ring.
      by apply layer_mass_nonneg.
    + rewrite <-(length_fmap Qcabs eigenvector) in Hh.
      apply has_layer_enumerate in Hh as (idx & info & Hlt & Hi & HL).
      rewrite length_fmap in Hlt. eauto.
  - intros idx info Hlt Hi. rewrite Hlook.
    assert (has_layer mapping
              (zip (seq 0 (length eigenvector)) (Qcabs <$> eigenvector))
              (layer info) = true) as ->; [|eauto].
    rewrite <-(length_fmap Qcabs eigenvector).
    apply has_layer_enumerate. exists idx, info. by rewrite length_fmap.
Qed.

Lemma analyze_eigenvector_layer_sums_witness :
  ∃ d, analyze_eigenvector argsort_stable (rationals [3; -4; 5]%Z) small_index 10 true
       = Ok (LayerContributions d)
       ∧ d !! "fc" = Some (layer_mass small_index
                             (zip (seq 0 3) (Qcabs <$> rationals [3; -4; 5]%Z))
                             "fc").
Proof.
  destruct (analyze_eigenvector_layer_sums argsort_stable small_model small_index
              (rationals [3; -4; 5]%Z) 10)
    as (d & Hd & Hsome & Hall).
  - reflexivity.
  - vm_compute. lia.
  - exists d. split; [exact Hd|].
    destruct (Hall 0%nat {| name := "fc.weight"; layer := "fc";
                            coordinates := [0; 0]%nat; shape := [1; 2]%nat;
                            type := "weight" |}) as [x Hx].
    + vm_compute. lia.
    + reflexivity.
    + simpl in Hx. rewrite Hx. f_equal.
      by destruct (Hsome "fc" x Hx) as [-> _].
Defined.

(** X8. With [by_layer] set, the values of the returned dict add up to the
    sum of the absolute values of all components of the eigenvector:
    every component is counted in exactly one layer. *)
Theorem analyze_eigenvector_layer_total (argsort : list Qc → list nat)
    (model : named_parameters)
    (mapping : gmap nat param_info) (eigenvector : list Qc) (top_k : Z) :
  create_parameter_mapping model = Ok mapping →
  (length eigenvector ≤ total_numel model)%nat →
  ∃ d, analyze_eigenvector argsort eigenvector mapping top_k true
       = Ok (LayerContributions d)
       ∧ dict_sum d = qsum (Qcabs <$> eigenvector).
Proof.
  intros Hc Hlen. unfold analyze_eigenvector.
  destruct (layer_loop mapping
              (zip (seq 0 (length (Qcabs <$> eigenvector)))
                   (Qcabs <$> eigenvector)) ∅)
    as (d & -> & _ & Hsum).
  { apply (enumerate_in_index model); [done|]. by rewrite length_fmap. }
  exists d. split; [done|].
  rewrite Hsum. rewrite snd_zip by (rewrite length_seq; lia).
  unfold dict_sum. rewrite map_fold_empty. ring.
Qed.

Lemma analyze_eigenvector_layer_total_witness :
  ∃ d, analyze_eigenvector argsort_stable (rationals [3; -4; 5]%Z) small_index 10 true
       = Ok (LayerContributions d)
       ∧ dict_sum d = qsum (Qcabs <$> rationals [3; -4; 5]%Z).
Proof.
  apply (analyze_eigenvector_layer_total argsort_stable small_model).
  - reflexivity.
  - vm_compute. lia.
Defined.

End LayerProps.

(** ** analysis/eigenvector_analysis.py: how many contributors, and which *)

Module TopProps.
Import EigenvectorAnalysis IndexProps AnalysisProps.

Local Open Scope nat_scope.

Lemma argsort_length (argsort : list Qc → list nat) (a : list Qc) :
  argsort_spec argsort → length (argsort a) = length a.
Proof. intros Hs. destruct (Hs a) as [Hp _]. by rewrite Hp, length_seq. Qed.

Lemma select_top_length (argsort : list Qc → list nat) (a : list Qc)
    (top_k : Z) :
  argsort_spec argsort →
  length (select_top argsort a top_k)
  = if (0 <? top_k)%Z then Z.to_nat top_k `min` length a
    else length a - Z.to_nat (- top_k).
Proof.
  intros Hs. unfold select_top, slice_from.
  rewrite length_reverse, length_drop, (argsort_length _ _ Hs).
  destruct (Z.ltb_spec 0 top_k), (Z.ltb_spec (- top_k) 0); lia.
Qed.

Lemma select_top_dominates (argsort : list Qc → list nat) (a : list Qc)
    (top_k : Z) (i j : nat) :
  argsort_spec argsort →
  i < length a →
  i ∉ select_top argsort a top_k →
  j ∈ select_top argsort a top_k →
  (a !!! i ≤ a !!! j)%Qc.
Proof.
  intros Hs Hi Hni Hj.
  destruct (select_top_sublist argsort a top_k) as [n Hn].
  rewrite Hn in Hni, Hj. rewrite elem_of_reverse in Hni, Hj.
  destruct (Hs a) as [Hp Hsorted].
  assert (i ∈ take n (argsort a)) as Hi'.
  { assert (i ∈ argsort a) as Hin
      by (rewrite Hp; apply elem_of_seq; lia).
    rewrite <-(take_drop n (argsort a)) in Hin.
    apply elem_of_app in Hin as [?|?]; done. }
  rewrite <-(take_drop n (argsort a)), fmap_app in Hsorted.
  eapply (StronglySorted_app_1_elem_of _ _ _ _ _ Hsorted).
  - apply list_elem_of_fmap. by exists i.
  - apply list_elem_of_fmap. by exists j.
Qed.

Lemma select_top_prefix (argsort : list Qc → list nat) (a : list Qc)
    (k1 k2 : Z) :
  (0 < k1 ≤ k2)%Z →
  ∃ more, select_top argsort a k2 = select_top argsort a k1 ++ more.
Proof.
  intros Hk. unfold select_top, slice_from.
  destruct (Z.ltb_spec (- k1) 0), (Z.ltb_spec (- k2) 0); try lia.
  set (l := argsort a).
  set (s1 := Z.to_nat (Z.max (- k1 + Z.of_nat (length l)) 0)).
  set (s2 := Z.to_nat (Z.max (- k2 + Z.of_nat (length l)) 0)).
  exists (reverse (take (s1 - s2) (drop s2 l))).
  rewrite <-reverse_app. f_equal.
  rewrite <-(take_drop (s1 - s2) (drop s2 l)) at 1. f_equal.
  rewrite drop_drop. f_equal. lia.
Qed.

(** X9. For an eigenvector as long as the index, the number of top
    contributors is [min top_k N] for a positive [top_k]; [top_k = 0]
    returns all [N], and a negative [top_k] returns all but the [-top_k]
    smallest.  No offset left out has a larger absolute component than a
    listed one. *)
Theorem analyze_eigenvector_top_count
    (argsort : list Qc → list nat) (model : named_parameters)
    (mapping : gmap nat param_info) (eigenvector : list Qc) (top_k : Z) :
  argsort_spec argsort →
  create_parameter_mapping model = Ok mapping →
  length eigenvector = total_numel model →
  ∃ out,
    analyze_eigenvector argsort eigenvector mapping top_k false
      = Ok (TopContributors out)
    ∧ length out
      = (if (0 <? top_k)%Z then Z.to_nat top_k `min` total_numel model
         else total_numel model - Z.to_nat (- top_k))
    ∧ ∀ i x c, eigenvector !! i = Some x → i ∉ index <$> out → c ∈ out →
               (Qcabs x ≤ abs_contribution c)%Qc.
Proof.
  intros Hspec Hmap Hlen.
  pose proof (mapping_dom model mapping Hmap) as Hdom.
  unfold analyze_eigenvector.
  destruct (add_contributors eigenvector mapping
              (select_top argsort (Qcabs <$> eigenvector) top_k) [])
    as (out & -> & Hidx & Hout).
  { apply Forall_forall. intros idx Hin.
    apply (select_top_lt argsort Hspec) in Hin.
    rewrite length_fmap in Hin. split.
    - apply Hdom. lia.
    - by apply lookup_lt_is_Some_2. }
  exists out. split; [done|]. split.
  - rewrite <-(length_fmap index out), Hidx.
    rewrite (select_top_length _ _ _ Hspec), length_fmap. by rewrite Hlen.
  - intros i x c Hx Hni Hc. rewrite Hidx in Hni.
    assert (index c ∈ select_top argsort (Qcabs <$> eigenvector) top_k) as Hj.
    { rewrite <-Hidx. apply list_elem_of_fmap. by exists c. }
    pose proof (select_top_dominates argsort (Qcabs <$> eigenvector) top_k
                  i (index c) Hspec) as Hle.
    rewrite length_fmap in Hle.
    specialize (Hle (lookup_lt_Some _ _ _ Hx) Hni Hj).
    rewrite Forall_forall in Hout.
    destruct (Hout c Hc) as (Hxc & Ha & _).
    rewrite (list_lookup_total_correct (Qcabs <$> eigenvector) i (Qcabs x))
      in Hle by (by rewrite list_lookup_fmap, Hx).
    rewrite (list_lookup_total_correct (Qcabs <$> eigenvector) (index c)
               (Qcabs (contribution c)))
      in Hle by (by rewrite list_lookup_fmap, Hxc).
    by rewrite Ha.
Qed.

Lemma analyze_eigenvector_top_count_witness :
  ∃ out,
    analyze_eigenvector argsort_stable (rationals [1; -3; 2]%Z) small_index 2
      false
      = Ok (TopContributors out)
    ∧ length out = 2.
Proof.
  destruct (analyze_eigenvector_top_count argsort_stable small_model
              small_index (rationals [1; -3; 2]%Z) 2 argsort_stable_spec)
    as (out & H & Hcount & _).
  - reflexivity.
  - vm_compute. reflexivity.
  - exists out. split; [exact H|]. rewrite Hcount. vm_compute. reflexivity.
Defined.

(** X10. Asking for more contributors only extends the list: for
    [0 < k1 ≤ k2] the result for [k1] is a prefix of the result for
    [k2]. *)
Theorem analyze_eigenvector_top_prefix
    (argsort : list Qc → list nat) (model : named_parameters)
    (mapping : gmap nat param_info) (eigenvector : list Qc) (k1 k2 : Z) :
  argsort_spec argsort →
  create_parameter_mapping model = Ok mapping →
  length eigenvector = total_numel model →
  (0 < k1 ≤ k2)%Z →
  ∃ out more,
    analyze_eigenvector argsort eigenvector mapping k1 false
      = Ok (TopContributors out)
    ∧ analyze_eigenvector argsort eigenvector mapping k2 false
      = Ok (TopContributors (out ++ more)).
Proof.
  intros Hspec Hmap Hlen Hk.
  pose proof (mapping_dom model mapping Hmap) as Hdom.
  assert (∀ k, Forall (λ idx, is_Some (mapping !! idx)
                              ∧ is_Some (eigenvector !! idx))
                 (select_top argsort (Qcabs <$> eigenvector) k)) as Hall.
  { intros k. apply Forall_forall. intros idx Hin.
    apply (select_top_lt argsort Hspec) in Hin.
    rewrite length_fmap in Hin. split.
    - apply Hdom. lia.
    - by apply lookup_lt_is_Some_2. }
  destruct (select_top_prefix argsort (Qcabs <$> eigenvector) k1 k2 Hk)
    as [rest Hrest].
  unfold analyze_eigenvector.
  pose proof (Hall k2) as H2. rewrite Hrest in H2 |- *.
  apply Forall_app in H2 as [H1 Hr].
  destruct (add_contributors eigenvector mapping _ [] H1)
    as (out & Ho & _ & _).
  rewrite app_nil_l in Ho.
  rewrite for_each_app, Ho. cbn [mbind result_bind].
  destruct (add_contributors eigenvector mapping _ out Hr)
    as (more & Hm & _ & _).
  exists out, more. by rewrite Hm.
Qed.

Lemma analyze_eigenvector_top_prefix_witness :
  ∃ out more,
    analyze_eigenvector argsort_stable (rationals [1; -3; 2]%Z) small_index 1
      false
      = Ok (TopContributors out)
    ∧ analyze_eigenvector argsort_stable (rationals [1; -3; 2]%Z) small_index 2
        false
      = Ok (TopContributors (out ++ more)).
Proof.
  apply (analyze_eigenvector_top_prefix argsort_stable small_model).
  - exact argsort_stable_spec.
  - reflexivity.
  - vm_compute. reflexivity.
  - lia.
Defined.

End TopProps.

(** ** analysis/hessian.py: [compute_hvp] as a matrix *)

Module OperatorProps.
Import EigenvectorAnalysis Hessian HessianOperator AnalysisProps SolverProps
  TrajectoryProps HvpProps.

Local Open Scope Qc_scope.

(** *** Sums over index lists *)

Lemma lsum_ext (l : list nat) (f g : nat → Qc) :
  (∀ i, i ∈ l → f i = g i) → lsum l f = lsum l g.
Proof.
  unfold lsum. induction l as [|i l IH]; intros H; [done|]. simpl.
  rewrite IH, H; [done|left|]. intros k Hk. apply H. by right.
Qed.

Lemma lsum_add (l : list nat) (f g : nat → Qc) :
  lsum l (λ i, f i + g i) = lsum l f + lsum l g.
Proof.
  unfold lsum. induction l as [|i l IH]; simpl; [ring|]. rewrite IH. ring.
Qed.

Lemma lsum_scale (l : list nat) (c : Qc) (f : nat → Qc) :
  lsum l (λ i, c * f i) = c * lsum l f.
Proof.
  unfold lsum. induction l as [|i l IH]; simpl; [ring|]. rewrite IH. ring.
Qed.

Lemma lsum_div (l : list nat) (c : Qc) (f : nat → Qc) :
  lsum l f / c = lsum l (λ i, f i / c).
Proof.
  unfold Qcdiv. rewrite Qcmult_comm, <-lsum_scale. apply lsum_ext.
  intros. ring.
Qed.

Lemma lsum_zero (l : list nat) : lsum l (λ _, 0) = 0.
Proof. unfold lsum. induction l as [|i l IH]; simpl; [done|]. rewrite IH. ring. Qed.

Lemma lsum_swap (l1 l2 : list nat) (f : nat → nat → Qc) :
  lsum l1 (λ i, lsum l2 (λ j, f i j)) = lsum l2 (λ j, lsum l1 (λ i, f i j)).
Proof.
  induction l1 as [|i l1 IH].
  - cbn [lsum foldr]. by rewrite lsum_zero.
  - change (lsum (i :: l1) (λ i, lsum l2 (λ j, f i j)))
      with (lsum l2 (λ j, f i j) + lsum l1 (λ i, lsum l2 (λ j, f i j))).
    rewrite IH, <-lsum_add. done.
Qed.

Lemma weighted_zero (cs : list (nat * Qc)) (j : nat) :
  weighted cs (λ _ _, 0) j = 0.
Proof.
  unfold weighted. induction cs as [|ic cs IH]; simpl; [done|].
  rewrite IH. ring.
Qed.

Lemma weighted_zip_seq (m : nat) (xs : list Qc) (g : nat → Qc)
    (h : nat → nat → Qc) (j : nat) :
  (∀ k x, xs !! k = Some x → g (m + k)%nat = x) →
  weighted (zip (seq m (length xs)) xs) h j
  = lsum (seq m (length xs)) (λ i, h i j * g i).
Proof.
  revert m. induction xs as [|x xs IH]; intros m Hg; [done|].
  cbn [length seq zip zip_with]. unfold weighted, lsum. cbn [foldr fst snd].
  fold (weighted (zip (seq (S m) (length xs)) xs) h j).
  fold (lsum (seq (S m) (length xs)) (λ i, h i j * g i)).
  rewrite IH.
  - f_equal. f_equal. symmetry. rewrite <-(Nat.add_0_r m). by apply Hg.
  - intros k y Hk. replace (S m + k)%nat with (m + S k)%nat by lia.
    by apply Hg.
Qed.

Lemma weighted_dot (n : nat) (vector : list Qc) (h : nat → nat → Qc)
    (j : nat) :
  length vector = n →
  weighted (zip (seq 0 n) vector) h j = dot n (λ i, h i j) vector.
Proof.
  intros <-. unfold dot. apply weighted_zip_seq.
  intros k x Hk. by apply list_lookup_total_correct.
Qed.

Lemma dot_ext (n : nat) (f g : nat → Qc) (x y : list Qc) :
  (∀ i, (i < n)%nat → f i * x !!! i = g i * y !!! i) →
  dot n f x = dot n g y.
Proof.
  intros H. apply lsum_ext. intros i Hi. apply elem_of_seq in Hi.
  apply H. lia.
Qed.

(** *** The loop over the chunks, for any loss *)

Section WithTorch.
Variable tsqrt : Qc → Qc.
Variable example : Type.

Lemma chunk_hessian_loop (num_params len : nat) (vector : list Qc)
    (cs : list (nat * Qc)) (batch_loss : list example → dscalar)
    (graph : list example → autograd)
    (loader : list (list example)) (a : nat → Qc) :
  differentiable graph → Forall (λ batch, batch ≠ []) loader →
  coefficients num_params vector = Some cs →
  for_each
    (λ flat_hvp batch,
       hvp_batch ← hvp_of_batch example num_params batch_loss graph len
                     vector batch;
       Ok (zip_with Qcplus flat_hvp hvp_batch))
    loader (a <$> seq 0 num_params)
  = Ok ((λ j, a j + weighted cs (chunk_hessian example batch_loss len loader) j)
          <$> seq 0 num_params).
Proof.
  intros Hg Hloader Hcs. revert a.
  induction Hloader as [|batch loader Hne _ IH]; intros a.
  - cbn [for_each]. f_equal. apply list_fmap_ext. intros _ j _.
    rewrite (weighted_ext _ _ (λ _ _, 0)) by done.
    rewrite weighted_zero. ring.
  - rewrite for_each_cons.
    rewrite (hvp_of_batch_returns _ _ _ _ _ _ cs) by done.
    cbn [mbind result_bind]. rewrite zip_with_fmap_same, IH.
    f_equal. apply list_fmap_ext. intros _ j _.
    rewrite <-Qcplus_assoc, <-weighted_add. done.
Qed.

Lemma compute_hvp_scaled (parameters : list (list nat))
    (batch_loss : list example → dscalar) (graph : list example → autograd)
    (dataset : list example)
    (vector : list Qc) (physical_batch_size : option Z) (p : list Qc) :
  parameters ≠ [] →
  compute_hvp tsqrt example parameters batch_loss graph dataset vector
    physical_batch_size (Some p)
  = (scaled ← broadcast2 Qcdiv vector (tsqrt <$> p);
     flat_hvp ← compute_hvp tsqrt example parameters batch_loss graph dataset
                  scaled physical_batch_size None;
     broadcast2 Qcdiv flat_hvp (tsqrt <$> p)).
Proof.
  intros Hpar. unfold compute_hvp.
  destruct parameters as [|shape0 parameters]; [done|].
  cbn [mbind result_bind].
  destruct (broadcast2 Qcdiv vector (tsqrt <$> p)) as [scaled|e]; [|done].
  cbn [mbind result_bind].
  match goal with
  | |- ?inner ≫= _ = _ => destruct inner as [flat_hvp|e]; done
  end.
Qed.

Lemma compute_hvp_plain (parameters : list (list nat))
    (batch_loss : list example → dscalar) (graph : list example → autograd)
    (dataset : list example)
    (vector : list Qc) (physical_batch_size : option Z) :
  differentiable graph →
  parameters ≠ [] → dataset ≠ [] →
  length vector = sum_list (numel <$> parameters) →
  (∀ b, physical_batch_size = Some b → (0 < b)%Z) →
  compute_hvp tsqrt example parameters batch_loss graph dataset vector
    physical_batch_size None
  = Ok ((λ j, dot (sum_list (numel <$> parameters))
                (λ i, hvp_matrix tsqrt example batch_loss dataset
                        physical_batch_size None i j) vector)
          <$> seq 0 (sum_list (numel <$> parameters))).
Proof.
  intros Hg Hpar Hdata Hvec Hb. unfold compute_hvp, hvp_matrix, batches_of.
  destruct parameters as [|shape0 parameters]; [done|].
  cbn [mbind result_bind].
  set (n := sum_list (numel <$> shape0 :: parameters)) in *.
  pose proof (coefficients_same_length vector) as Hcs. rewrite Hvec in Hcs.
  destruct physical_batch_size as [b|].
  - specialize (Hb b eq_refl).
    destruct (Z.leb_spec (Z.of_nat (length dataset)) b).
    + destruct (full_loader example dataset Hdata) as [rest ->].
      cbn [mbind result_bind].
      rewrite (hvp_of_batch_returns _ _ _ _ _ _ _ _ Hg Hdata Hcs).
      cbn [mbind result_bind].
      f_equal. apply list_fmap_ext. intros _ j _.
      rewrite <-weighted_dot by done. apply weighted_ext.
      intros i. cbn [chunk_hessian foldr]. ring.
    + change (default 0%Z (Some b)) with b. unfold DataLoader.
      destruct (Z.leb_spec b 0); [lia|]. cbn [mbind result_bind].
      rewrite replicate_fmap_seq.
      assert (Forall (λ batch, batch ≠ [])
                (batches_fuel (length dataset) (Z.to_nat b) dataset))
        as Hloader by (apply batches_fuel_nonempty; lia).
      rewrite (chunk_hessian_loop _ _ _ _ _ _ _ _ Hg Hloader Hcs).
      cbn [mbind result_bind].
      f_equal. apply list_fmap_ext. intros _ j _.
      rewrite <-weighted_dot by done. ring.
  - destruct (full_loader example dataset Hdata) as [rest ->].
    cbn [mbind result_bind].
    rewrite (hvp_of_batch_returns _ _ _ _ _ _ _ _ Hg Hdata Hcs).
    cbn [mbind result_bind].
    f_equal. apply list_fmap_ext. intros _ j _.
    rewrite <-weighted_dot by done. apply weighted_ext.
    intros i. cbn [chunk_hessian foldr]. ring.
Qed.

Lemma list_as_fmap_seq (l : list Qc) :
  l = (λ i, l !!! i) <$> seq 0 (length l).
Proof.
  apply list_eq. intros i. rewrite list_lookup_fmap.
  destruct (l !! i) as [x|] eqn:Hx.
  - rewrite lookup_seq_lt by (by eapply lookup_lt_Some). simpl. f_equal.
    symmetry. by apply list_lookup_total_correct.
  - rewrite lookup_seq_ge by (by apply lookup_ge_None). done.
Qed.

Lemma compute_hvp_dot (parameters : list (list nat))
    (batch_loss : list example → dscalar) (graph : list example → autograd)
    (dataset : list example)
    (vector : list Qc) (physical_batch_size : option Z)
    (P : option (list Qc)) :
  differentiable graph →
  parameters ≠ [] → dataset ≠ [] →
  length vector = sum_list (numel <$> parameters) →
  (∀ p, P = Some p → length p = sum_list (numel <$> parameters)) →
  (∀ b, physical_batch_size = Some b → (0 < b)%Z) →
  compute_hvp tsqrt example parameters batch_loss graph dataset vector
    physical_batch_size P
  = Ok ((λ j, dot (sum_list (numel <$> parameters))
                (λ i, hvp_matrix tsqrt example batch_loss dataset
                        physical_batch_size P i j) vector)
          <$> seq 0 (sum_list (numel <$> parameters))).
Proof.
  intros Hg Hpar Hdata Hvec HP Hb.
  destruct P as [p|]; [|by apply compute_hvp_plain].
  specialize (HP p eq_refl).
  rewrite compute_hvp_scaled by done.
  set (n := sum_list (numel <$> parameters)) in *.
  rewrite broadcast2_same_length by (rewrite length_fmap; congruence).
  cbn [mbind result_bind].
  rewrite compute_hvp_plain; try done.
  2:{ rewrite length_zip_with, length_fmap. fold n. lia. }
  fold n. cbn [mbind result_bind].
  rewrite broadcast2_same_length
    by (rewrite !length_fmap, length_seq; congruence).
  f_equal.
  set (F := λ j : nat,
        dot n
          (λ i, hvp_matrix tsqrt example batch_loss dataset
                  physical_batch_size None i j)
          (zip_with Qcdiv vector (tsqrt <$> p))).
  rewrite (list_as_fmap_seq (tsqrt <$> p)).
  rewrite length_fmap, HP, zip_with_fmap_same. subst F.
  apply list_fmap_ext. intros k j Hj. apply lookup_seq in Hj as [-> Hj].
  cbn [Nat.add] in Hj |- *.
  rewrite (list_lookup_total_fmap tsqrt p k) by lia.
  unfold dot. rewrite lsum_div. apply lsum_ext.
  intros i Hi. apply elem_of_seq in Hi.
  rewrite (lookup_total_zip_with Qcdiv vector (tsqrt <$> p) i)
    by (rewrite ?length_fmap; lia).
  rewrite (list_lookup_total_fmap tsqrt p i) by lia.
  unfold hvp_matrix, Qcdiv. ring.
Qed.

End WithTorch.

(** The sample preconditioner and the sample graph meet the conditions
    of the theorems below. *)
Lemma sample_preconditioner (p : list Qc) :
  Some (rationals [4; 9]%Z) = Some p →
  length p = 2%nat ∧ Forall (λ x, 0 < x) p.
Proof. intros [= <-]. split; [done|]. repeat constructor. Qed.

Lemma full_graph_differentiable {A} : differentiable (@full_graph A).
Proof. intros batch _. by split. Qed.

(** X11. A well-formed call of [compute_hvp] whose gradients autograd
    can give, with a preconditioner (if any) of positive entries,
    multiplies the probe by a matrix that does not depend on the probe:
    entry [j] of the result is the sum over [i] of [M i j * vector[i]],
    where [M] adds up the second derivatives of the weighted losses of
    the batches and, with a preconditioner, has row [i] and column [j]
    divided by the square roots of its entries [i] and [j]. *)
Theorem compute_hvp_matrix (tsqrt : Qc → Qc) (example : Type)
    (parameters : list (list nat)) (batch_loss : list example → dscalar)
    (graph : list example → autograd)
    (dataset : list example) (vector : list Qc)
    (physical_batch_size : option Z) (P : option (list Qc)) :
  differentiable graph →
  (∀ x, 0 < x → 0 < tsqrt x) →
  parameters ≠ [] → dataset ≠ [] →
  length vector = sum_list (numel <$> parameters) →
  (∀ p, P = Some p →
        length p = sum_list (numel <$> parameters)
        ∧ Forall (λ x, 0 < x) p) →
  (∀ b, physical_batch_size = Some b → (0 < b)%Z) →
  compute_hvp tsqrt example parameters batch_loss graph dataset vector
    physical_batch_size P
  = Ok ((λ j, dot (sum_list (numel <$> parameters))
                (λ i, hvp_matrix tsqrt example batch_loss dataset
                        physical_batch_size P i j) vector)
          <$> seq 0 (sum_list (numel <$> parameters))).
Proof.
  intros Hg _ Hpar Hdata Hvec HP Hb. apply compute_hvp_dot; try done.
  intros p Hp. by destruct (HP p Hp).
Qed.

Lemma compute_hvp_matrix_witness :
  compute_hvp sqrt_exact Z [[2%nat]%list]%list (mean_loss sample_loss)
    full_graph [1; 2; 3]%Z
    (rationals [2; 3]%Z) (Some 2%Z) (Some (rationals [4; 9]%Z))
  = Ok ((λ j, dot 2
                (λ i, hvp_matrix sqrt_exact Z (mean_loss sample_loss)
                        [1; 2; 3]%Z (Some 2%Z) (Some (rationals [4; 9]%Z))
                        i j)
                (rationals [2; 3]%Z))
          <$> seq 0 2).
Proof.
  apply (compute_hvp_matrix sqrt_exact Z [[2%nat]%list]%list
           (mean_loss sample_loss) full_graph
           [1; 2; 3]%Z (rationals [2; 3]%Z) (Some 2%Z)
           (Some (rationals [4; 9]%Z))).
  - apply full_graph_differentiable.
  - exact sqrt_exact_positive.
  - discriminate.
  - discriminate.
  - reflexivity.
  - apply sample_preconditioner.
  - intros b [= <-]. lia.
Defined.

(** *** Linearity and symmetry *)

Lemma length_axpy (a : Qc) (v w : list Qc) (n : nat) :
  length v = n → length w = n → length (axpy a v w) = n.
Proof. intros Hv Hw. unfold axpy. rewrite length_zip_with. lia. Qed.

Lemma dot_axpy (n : nat) (f : nat → Qc) (a : Qc) (v w : list Qc) :
  length v = n → length w = n →
  dot n f (axpy a v w) = a * dot n f v + dot n f w.
Proof.
  intros Hv Hw. unfold dot. rewrite <-lsum_scale, <-lsum_add.
  apply lsum_ext. intros i Hi. apply elem_of_seq in Hi.
  unfold axpy.
  rewrite (lookup_total_zip_with (λ x y, a * x + y) v w i) by lia.
  ring.
Qed.

Lemma lookup_total_fmap_seq (f : nat → Qc) (n j : nat) :
  (j < n)%nat → (f <$> seq 0 n) !!! j = f j.
Proof.
  intros Hj. rewrite (list_lookup_total_fmap f (seq 0 n) j)
    by (by rewrite length_seq).
  by rewrite lookup_total_seq_lt.
Qed.

Lemma inner_matrix (n : nat) (m : nat → nat → Qc) (v w : list Qc) :
  inner n ((λ j, dot n (λ i, m i j) v) <$> seq 0 n) w
  = lsum (seq 0 n) (λ j, lsum (seq 0 n) (λ i, m i j * v !!! i * w !!! j)).
Proof.
  unfold inner, dot. apply lsum_ext. intros j Hj. apply elem_of_seq in Hj.
  rewrite lookup_total_fmap_seq by lia.
  rewrite Qcmult_comm, <-lsum_scale. apply lsum_ext. intros. ring.
Qed.

Lemma chunk_hessian_symmetric (example : Type)
    (batch_loss : list example → dscalar) (len : nat)
    (loader : list (list example)) (i j : nat) :
  (∀ batch i j, hess (batch_loss batch) i j = hess (batch_loss batch) j i) →
  chunk_hessian example batch_loss len loader i j
  = chunk_hessian example batch_loss len loader j i.
Proof.
  intros Hsym. induction loader as [|batch loader IH]; [done|].
  change (hess (mul_div (batch_loss batch) (length batch) len) i j
          + chunk_hessian example batch_loss len loader i j
          = hess (mul_div (batch_loss batch) (length batch) len) j i
            + chunk_hessian example batch_loss len loader j i).
  rewrite IH. cbn [mul_div hess]. by rewrite Hsym.
Qed.

Lemma hvp_matrix_symmetric (tsqrt : Qc → Qc) (example : Type)
    (batch_loss : list example → dscalar) (dataset : list example)
    (physical_batch_size : option Z) (P : option (list Qc)) (i j : nat) :
  (∀ batch i j, hess (batch_loss batch) i j = hess (batch_loss batch) j i) →
  hvp_matrix tsqrt example batch_loss dataset physical_batch_size P i j
  = hvp_matrix tsqrt example batch_loss dataset physical_batch_size P j i.
Proof.
  intros Hsym. unfold hvp_matrix.
  rewrite (chunk_hessian_symmetric _ _ _ _ i j Hsym).
  destruct P; [|done]. unfold Qcdiv. ring.
Qed.

(** X12. [compute_hvp] is linear in the probe: on well-formed calls
    whose gradients autograd can give, with a preconditioner (if any) of
    positive entries, the result for [a * v + w] is [a] times the result
    for [v] plus the result for [w], whatever the chunk size. *)
Theorem compute_hvp_linear (tsqrt : Qc → Qc) (example : Type)
    (parameters : list (list nat)) (batch_loss : list example → dscalar)
    (graph : list example → autograd)
    (dataset : list example) (a : Qc) (v w : list Qc)
    (physical_batch_size : option Z) (P : option (list Qc)) :
  differentiable graph →
  (∀ x, 0 < x → 0 < tsqrt x) →
  parameters ≠ [] → dataset ≠ [] →
  length v = sum_list (numel <$> parameters) →
  length w = sum_list (numel <$> parameters) →
  (∀ p, P = Some p →
        length p = sum_list (numel <$> parameters)
        ∧ Forall (λ x, 0 < x) p) →
  (∀ b, physical_batch_size = Some b → (0 < b)%Z) →
  ∃ hv hw,
    compute_hvp tsqrt example parameters batch_loss graph dataset v
      physical_batch_size P = Ok hv
    ∧ compute_hvp tsqrt example parameters batch_loss graph dataset w
        physical_batch_size P = Ok hw
    ∧ compute_hvp tsqrt example parameters batch_loss graph dataset
        (axpy a v w) physical_batch_size P = Ok (axpy a hv hw).
Proof.
  intros Hg _ Hpar Hdata Hv Hw HP Hb.
  assert (∀ p, P = Some p → length p = sum_list (numel <$> parameters))
    as HP' by (intros p Hp; by destruct (HP p Hp)).
  rewrite !compute_hvp_dot by (done || by apply length_axpy).
  eexists _, _. split; [done|]. split; [done|]. f_equal.
  unfold axpy at 2. rewrite zip_with_fmap_same.
  apply list_fmap_ext. intros _ j _. by apply dot_axpy.
Qed.

Lemma compute_hvp_linear_witness :
  ∃ hv hw,
    compute_hvp sqrt_exact Z [[2%nat]%list]%list (sum_loss sample_loss)
      full_graph [1; 2; 3]%Z (rationals [2; 3]%Z) (Some 2%Z) None = Ok hv
    ∧ compute_hvp sqrt_exact Z [[2%nat]%list]%list (sum_loss sample_loss)
        full_graph [1; 2; 3]%Z (rationals [5; -1]%Z) (Some 2%Z) None = Ok hw
    ∧ compute_hvp sqrt_exact Z [[2%nat]%list]%list (sum_loss sample_loss)
        full_graph [1; 2; 3]%Z
        (axpy 2 (rationals [2; 3]%Z) (rationals [5; -1]%Z))
        (Some 2%Z) None
      = Ok (axpy 2 hv hw).
Proof.
  apply (compute_hvp_linear sqrt_exact Z [[2%nat]%list]%list
           (sum_loss sample_loss) full_graph [1; 2; 3]%Z 2
           (rationals [2; 3]%Z) (rationals [5; -1]%Z) (Some 2%Z) None).
  - apply full_graph_differentiable.
  - exact sqrt_exact_positive.
  - discriminate.
  - discriminate.
  - reflexivity.
  - reflexivity.
  - discriminate.
  - intros b [= <-]. lia.
Defined.

(** X13. When the second derivatives of every batch loss are symmetric,
    the operator [compute_hvp] hands to the eigensolver is symmetric on
    well-formed calls whose gradients autograd can give, with a
    preconditioner (if any) of positive entries: the inner product of the
    result for [v] with [w] equals that of the result for [w] with [v],
    with or without chunks. *)
Theorem compute_hvp_self_adjoint (tsqrt : Qc → Qc) (example : Type)
    (parameters : list (list nat)) (batch_loss : list example → dscalar)
    (graph : list example → autograd)
    (dataset : list example) (v w : list Qc)
    (physical_batch_size : option Z) (P : option (list Qc)) :
  (∀ batch i j, hess (batch_loss batch) i j = hess (batch_loss batch) j i) →
  differentiable graph →
  (∀ x, 0 < x → 0 < tsqrt x) →
  parameters ≠ [] → dataset ≠ [] →
  length v = sum_list (numel <$> parameters) →
  length w = sum_list (numel <$> parameters) →
  (∀ p, P = Some p →
        length p = sum_list (numel <$> parameters)
        ∧ Forall (λ x, 0 < x) p) →
  (∀ b, physical_batch_size = Some b → (0 < b)%Z) →
  ∃ hv hw,
    compute_hvp tsqrt example parameters batch_loss graph dataset v
      physical_batch_size P = Ok hv
    ∧ compute_hvp tsqrt example parameters batch_loss graph dataset w
        physical_batch_size P = Ok hw
    ∧ inner (sum_list (numel <$> parameters)) hv w
      = inner (sum_list (numel <$> parameters)) hw v.
Proof.
  intros Hsym Hg _ Hpar Hdata Hv Hw HP Hb.
  assert (∀ p, P = Some p → length p = sum_list (numel <$> parameters))
    as HP' by (intros p Hp; by destruct (HP p Hp)).
  rewrite !compute_hvp_dot by done.
  eexists _, _. split; [done|]. split; [done|].
  rewrite !inner_matrix. rewrite lsum_swap.
  apply lsum_ext. intros i _. apply lsum_ext. intros j _.
  rewrite (hvp_matrix_symmetric _ _ _ _ _ _ i j Hsym). ring.
Qed.

Lemma compute_hvp_self_adjoint_witness :
  ∃ hv hw,
    compute_hvp sqrt_exact Z [[2%nat]%list]%list (mean_loss sample_loss)
      full_graph [1; 2; 3]%Z (rationals [2; 3]%Z) (Some 2%Z)
      (Some (rationals [4; 9]%Z)) = Ok hv
    ∧ compute_hvp sqrt_exact Z [[2%nat]%list]%list (mean_loss sample_loss)
        full_graph [1; 2; 3]%Z (rationals [5; -1]%Z) (Some 2%Z)
        (Some (rationals [4; 9]%Z)) = Ok hw
    ∧ inner 2 hv (rationals [5; -1]%Z) = inner 2 hw (rationals [2; 3]%Z).
Proof.
  apply (compute_hvp_self_adjoint sqrt_exact Z [[2%nat]%list]%list
           (mean_loss sample_loss) full_graph [1; 2; 3]%Z
           (rationals [2; 3]%Z) (rationals [5; -1]%Z) (Some 2%Z)
           (Some (rationals [4; 9]%Z))).
  - intros batch i j. cbn [mean_loss hess]. f_equal.
    induction batch as [|e batch IH]; [done|].
    cbn [sum_loss hess foldr] in *. rewrite IH. f_equal.
    unfold sample_loss. cbn [hess]. f_equal. lia.
  - apply full_graph_differentiable.
  - exact sqrt_exact_positive.
  - discriminate.
  - discriminate.
  - reflexivity.
  - reflexivity.
  - apply sample_preconditioner.
  - intros b [= <-]. lia.
Defined.

(** *** Calls that raise *)

Lemma coefficients_mismatch (num_params : nat) (vector : list Qc) :
  length vector ≠ num_params → length vector ≠ 1%nat → num_params ≠ 1%nat →
  coefficients num_params vector = None.
Proof.
  intros Hn H1 Hp. unfold coefficients.
  rewrite decide_False by congruence.
  destruct vector as [|x [|y vector]]; try done;
    by rewrite decide_False by done.
Qed.

(** X14. [compute_hvp] on a model without parameters raises
    [StopIteration], whatever the other arguments.  On a model with
    parameters, and a preconditioner (if any) as long as the probe, it
    raises [ValueError] when the dataset is empty and when the chunk size
    is zero or negative: both reach [DataLoader] with a batch size that is
    not positive. *)
Theorem compute_hvp_raises (tsqrt : Qc → Qc) (example : Type)
    (parameters : list (list nat)) (batch_loss : list example → dscalar)
    (graph : list example → autograd)
    (dataset : list example) (vector : list Qc)
    (physical_batch_size : option Z) (P : option (list Qc)) :
  (parameters = [] →
   compute_hvp tsqrt example parameters batch_loss graph dataset vector
     physical_batch_size P = Err (Raise "StopIteration" ""))
  ∧ (parameters ≠ [] →
     (∀ p, P = Some p → length p = length vector) →
     dataset = [] ∨ (∃ b, physical_batch_size = Some b ∧ (b ≤ 0)%Z) →
     compute_hvp tsqrt example parameters batch_loss graph dataset vector
       physical_batch_size P
     = Err (Raise "ValueError"
              "batch_size should be a positive integer value")).
Proof.
  split.
  - by intros ->.
  - intros Hpar HP Hbad. unfold compute_hvp.
    destruct parameters as [|shape0 parameters]; [done|].
    cbn [mbind result_bind].
    assert (∃ scaled,
      match P with
      | Some p => broadcast2 Qcdiv vector (tsqrt <$> p)
      | None => Ok vector
      end = Ok scaled) as [scaled ->].
    { destruct P as [p|]; [|by eexists].
      rewrite broadcast2_same_length
        by (rewrite length_fmap, (HP p eq_refl); done).
      by eexists. }
    cbn [mbind result_bind].
    destruct Hbad as [->|(b & -> & Hb)].
    + cbn [length]. change (Z.of_nat 0) with 0%Z.
      destruct physical_batch_size as [b|]; [|done].
      destruct (Z.leb_spec 0 b) as [|Hneg]; [done|].
      change (default 0%Z (Some b)) with b. unfold DataLoader.
      destruct (Z.leb_spec b 0); [done|lia].
    + destruct (Z.leb_spec (Z.of_nat (length dataset)) b) as [Hle|Hlt].
      * assert (length dataset = 0%nat) as Hlen by lia.
        rewrite Hlen. unfold DataLoader. done.
      * change (default 0%Z (Some b)) with b. unfold DataLoader.
        destruct (Z.leb_spec b 0); [done|lia].
Qed.

Lemma compute_hvp_raises_witness :
  compute_hvp sqrt_exact Z [[2%nat]%list]%list (mean_loss sample_loss)
    full_graph [] (rationals [1; 2]%Z) (Some 2%Z) (Some (rationals [4; 9]%Z))
  = Err (Raise "ValueError" "batch_size should be a positive integer value").
Proof.
  apply (compute_hvp_raises sqrt_exact Z [[2%nat]%list]%list
           (mean_loss sample_loss) full_graph [] (rationals [1; 2]%Z)
           (Some 2%Z) (Some (rationals [4; 9]%Z))).
  - discriminate.
  - intros p [= <-]. reflexivity.
  - by left.
Defined.

(** X15. A probe whose length is neither the number of parameters nor
    one, for a model with more than one parameter, makes [compute_hvp]
    raise [RuntimeError] on a non-empty dataset, chunked or not: the
    probe's length is never compared with the model's beforehand.  When
    autograd gives the gradient of the loss, it is the product
    [flat_grad * vector] that fails. *)
Theorem compute_hvp_probe_mismatch (tsqrt : Qc → Qc) (example : Type)
    (parameters : list (list nat)) (batch_loss : list example → dscalar)
    (graph : list example → autograd)
    (dataset : list example) (vector : list Qc)
    (physical_batch_size : option Z) :
  dataset ≠ [] →
  length vector ≠ sum_list (numel <$> parameters) →
  length vector ≠ 1%nat →
  sum_list (numel <$> parameters) ≠ 1%nat →
  parameters ≠ [] →
  (∀ b, physical_batch_size = Some b → (0 < b)%Z) →
  ∃ msg,
    compute_hvp tsqrt example parameters batch_loss graph dataset vector
      physical_batch_size None
    = Err (Raise "RuntimeError" msg)
    ∧ ((∀ batch, batch ≠ [] → loss_error (graph batch) = None) →
       msg = "The size of tensor a must match the size of tensor b"%string).
Proof.
  intros Hdata Hlen H1 Hn Hpar Hb.
  pose proof (coefficients_mismatch _ _ Hlen H1 Hn) as Hcs.
  unfold compute_hvp.
  destruct parameters as [|shape0 parameters]; [done|].
  cbn [mbind result_bind].
  set (n := sum_list (numel <$> shape0 :: parameters)) in *.
  assert (∀ batch, batch ≠ [] →
    ∃ msg,
      hvp_of_batch example n batch_loss graph (length dataset) vector batch
      = Err (Raise "RuntimeError" msg)
      ∧ ((∀ batch, batch ≠ [] → loss_error (graph batch) = None) →
         msg = "The size of tensor a must match the size of tensor b"%string))
    as Hbatch.
  { intros batch Hne. rewrite hvp_of_batch_weighted, Hcs.
    destruct (loss_error (graph batch)) as [msg|] eqn:Hle.
    - exists msg. split; [done|]. intros Hg. by rewrite Hg in Hle.
    - by eexists. }
  destruct physical_batch_size as [b|].
  - specialize (Hb b eq_refl).
    destruct (Z.leb_spec (Z.of_nat (length dataset)) b).
    + destruct (full_loader example dataset Hdata) as [rest ->].
      cbn [mbind result_bind].
      destruct (Hbatch dataset Hdata) as (msg & -> & Hmsg). by exists msg.
    + change (default 0%Z (Some b)) with b. unfold DataLoader.
      destruct (Z.leb_spec b 0); [lia|]. cbn [mbind result_bind].
      destruct (Hbatch (take (Z.to_nat b) dataset)) as (msg & Hf & Hmsg).
      { destruct dataset as [|x dataset]; [done|].
        destruct (Z.to_nat b) eqn:Hnat; [lia|done]. }
      exists msg. split; [|done].
      by rewrite (chunk_loop_raises example _ _ _ _ _ _ _ _ _ Hdata Hf).
  - destruct (full_loader example dataset Hdata) as [rest ->].
    cbn [mbind result_bind].
    destruct (Hbatch dataset Hdata) as (msg & -> & Hmsg). by exists msg.
Qed.

Lemma compute_hvp_probe_mismatch_witness :
  compute_hvp sqrt_exact Z [[2%nat]%list]%list (mean_loss sample_loss)
    full_graph [1; 2; 3]%Z (rationals [1; 2; 3]%Z) (Some 2%Z) None
  = Err (Raise "RuntimeError"
           "The size of tensor a must match the size of tensor b").
Proof.
  destruct (compute_hvp_probe_mismatch sqrt_exact Z [[2%nat]%list]%list
              (mean_loss sample_loss) full_graph [1; 2; 3]%Z
              (rationals [1; 2; 3]%Z) (Some 2%Z))
    as (msg & H & Hmsg).
  - discriminate.
  - vm_compute. lia.
  - vm_compute. lia.
  - vm_compute. lia.
  - discriminate.
  - intros b [= <-]. lia.
  - rewrite H. by rewrite Hmsg.
Defined.

(** *** A probe of one entry *)

Lemma for_each_ext {A S} (f g : S → A → result S) (xs : list A) (s : S) :
  (∀ s x, f s x = g s x) → for_each f xs s = for_each g xs s.
Proof.
  intros H. revert s. induction xs as [|x xs IH]; intros s; [done|].
  rewrite !for_each_cons, H. destruct (g s x); [apply IH|done].
Qed.

Lemma zip_seq_replicate (m n : nat) (y : Qc) :
  zip (seq m n) (replicate n y) = (λ i, (i, y)) <$> seq m n.
Proof.
  revert m. induction n as [|n IH]; intros m; [done|].
  simpl. by rewrite IH.
Qed.

Lemma coefficients_broadcast (num_params : nat) (y : Qc) :
  coefficients num_params [y] = coefficients num_params (replicate num_params y).
Proof.
  unfold coefficients. rewrite length_replicate.
  rewrite (decide_True (P := num_params = num_params)) by done.
  rewrite zip_seq_replicate.
  case_decide as H1; [|done].
  simpl in H1. by subst num_params.
Qed.

(** X30. A probe of a single entry is not rejected: without a
    preconditioner, [compute_hvp] treats it as the probe of [N] equal
    entries, in the chunked and in the unchunked branch, and has the
    same outcome for the two. *)
Theorem compute_hvp_broadcast_probe (tsqrt : Qc → Qc) (example : Type)
    (parameters : list (list nat)) (batch_loss : list example → dscalar)
    (graph : list example → autograd)
    (dataset : list example) (y : Qc) (physical_batch_size : option Z) :
  compute_hvp tsqrt example parameters batch_loss graph dataset [y]
    physical_batch_size None
  = compute_hvp tsqrt example parameters batch_loss graph dataset
      (replicate (sum_list (numel <$> parameters)) y)
      physical_batch_size None.
Proof.
  assert (∀ len batch,
    hvp_of_batch example (sum_list (numel <$> parameters)) batch_loss graph
      len [y] batch
    = hvp_of_batch example (sum_list (numel <$> parameters)) batch_loss graph
        len (replicate (sum_list (numel <$> parameters)) y) batch)
    as Hbatch.
  { intros len batch.
    by rewrite !hvp_of_batch_weighted, coefficients_broadcast. }
  unfold compute_hvp.
  destruct parameters as [|shape0 parameters]; [done|].
  cbn [mbind result_bind].
  set (n := sum_list (numel <$> shape0 :: parameters)) in *.
  f_equal.
  match goal with |- context [if ?c then _ else _] => destruct c end.
  - destruct (DataLoader dataset (Z.of_nat (length dataset)))
      as [[|batch loader]|e]; [done| |done].
    cbn [mbind result_bind]. apply Hbatch.
  - destruct (DataLoader dataset (default 0%Z physical_batch_size))
      as [loader|e]; [|done].
    cbn [mbind result_bind]. apply for_each_ext.
    intros flat_hvp batch. by rewrite Hbatch.
Qed.

(** *** The spectrum functions *)

(** X16. [get_hessian_eigenvalues] sends the zero vector through
    [compute_hvp] when it builds the operator, before the solver runs:
    what [compute_hvp] raises there is raised by the call, whatever the
    solver.  On a well-formed call whose gradients autograd can give,
    with a preconditioner (if any) of positive entries, the operator is
    built; what the solver raises is raised by the call, and when the
    solver answers with eigenvalues in ascending order the call returns
    them in descending order. *)
Theorem get_hessian_eigenvalues_descending (tsqrt : Qc → Qc)
    (example generator : Type)
    (eigsh : generator → (list Qc → result (list Qc)) → nat → nat
             → result (list Qc * list (list Qc)))
    (g : generator)
    (parameters : list (list nat)) (batch_loss : list example → dscalar)
    (graph : list example → autograd)
    (dataset : list example) (neigs : nat)
    (physical_batch_size : option Z) (P : option (list Qc)) :
  (∀ e,
     compute_hvp tsqrt example parameters batch_loss graph dataset
       (replicate (sum_list (numel <$> parameters)) 0)
       physical_batch_size P = Err e →
     get_hessian_eigenvalues tsqrt example generator eigsh g parameters
       batch_loss graph dataset neigs physical_batch_size P = Err e)
  ∧ (differentiable graph →
     (∀ x, 0 < x → 0 < tsqrt x) →
     parameters ≠ [] → dataset ≠ [] →
     (∀ p, P = Some p →
           length p = sum_list (numel <$> parameters)
           ∧ Forall (λ x, 0 < x) p) →
     (∀ b, physical_batch_size = Some b → (0 < b)%Z) →
     ∃ operator,
       LinearOperator (sum_list (numel <$> parameters))
         (λ delta, compute_hvp tsqrt example parameters batch_loss graph
                     dataset delta physical_batch_size P)
       = Ok operator
       ∧ (∀ e,
            eigsh g operator (sum_list (numel <$> parameters)) neigs = Err e →
            get_hessian_eigenvalues tsqrt example generator eigsh g
              parameters batch_loss graph dataset neigs physical_batch_size P
            = Err e)
       ∧ (∀ eigenvalues eigenvectors,
            eigsh g operator (sum_list (numel <$> parameters)) neigs
            = Ok (eigenvalues, eigenvectors) →
            StronglySorted Qcle eigenvalues →
            ∃ descending,
              get_hessian_eigenvalues tsqrt example generator eigsh g
                parameters batch_loss graph dataset neigs
                physical_batch_size P
              = Ok descending
              ∧ descending = reverse eigenvalues
              ∧ StronglySorted (flip Qcle) descending)).
Proof.
  split.
  - intros e He. unfold get_hessian_eigenvalues.
    by rewrite (lanczos_propagates_probe _ _ _ _ _ _ _ He).
  - intros Hg _ Hpar Hdata HP Hb.
    destruct (compute_hvp_succeeds tsqrt example parameters batch_loss graph
                dataset (replicate (sum_list (numel <$> parameters)) 0)
                physical_batch_size P) as (y & Hy & Hlen); try done.
    { by rewrite length_replicate. }
    { intros p Hp. by destruct (HP p Hp). }
    pose proof (LinearOperator_probe _
                  (λ delta, compute_hvp tsqrt example parameters batch_loss
                              graph dataset delta physical_batch_size P)
                  y Hy Hlen) as Hop.
    eexists. split; [exact Hop|]. split.
    + intros e He. unfold get_hessian_eigenvalues.
      by rewrite (lanczos_propagates_failure _ _ _ _ _ _ _ _ Hop He).
    + intros eigenvalues eigenvectors Hsolve Hsorted.
      exists (reverse eigenvalues). split; [|split; [done|]].
      * unfold get_hessian_eigenvalues, lanczos.
        rewrite Hop. cbn [mbind result_bind]. by rewrite Hsolve.
      * by apply StronglySorted_reverse.
Qed.

Lemma get_hessian_eigenvalues_descending_witness :
  ∃ descending,
    get_hessian_eigenvalues sqrt_exact Z () eigsh_diagonal ()
      [[3%nat]%list]%list (mean_loss diagonal_loss) full_graph [1; 2; 3]%Z 2
      None None
    = Ok descending
    ∧ this <$> descending = [3%Q; 2%Q]%list.
Proof.
  destruct (get_hessian_eigenvalues_descending sqrt_exact Z () eigsh_diagonal
              () [[3%nat]%list]%list (mean_loss diagonal_loss) full_graph
              [1; 2; 3]%Z 2 None None) as [_ H].
  destruct H as (operator & _ & _ & H).
  - apply full_graph_differentiable.
  - exact sqrt_exact_positive.
  - discriminate.
  - discriminate.
  - discriminate.
  - discriminate.
  - destruct (H (rationals [2; 3]%Z)
                ((λ row, rationals row) <$> [[0; 0]; [1; 0]; [0; 1]]%Z)%list)
      as (descending & Hd & -> & _).
    + reflexivity.
    + repeat constructor. by vm_compute.
    + eexists. split; [exact Hd|]. vm_compute. reflexivity.
Defined.

End OperatorProps.

(** ** analysis/hessian.py and experiment.py: trajectory lengths *)

Module TrajectoryMore.
Import Hessian Experiment TrajectoryProps.

Local Open Scope nat_scope.

Lemma compute_trajectory_length_closed (tsqrt : Qc → Qc)
    (param_history : list (list Qc)) (d : nat) :
  param_history ≠ [] →
  Forall (λ s, length s = d) param_history →
  compute_trajectory_length tsqrt param_history
  = Ok (0%Qc :: cumsum_from 0%Qc
                  (step_distance tsqrt param_history
                     <$> seq 1 (length param_history - 1))).
Proof.
  intros Hne Hall. unfold compute_trajectory_length.
  destruct (Nat.leb_spec (length param_history) 1) as [Hle|Hgt].
  - by destruct param_history as [|s [|s' rest]]; [done| |simpl in Hle; lia].
  - rewrite (distances_loop tsqrt param_history d Hall) by lia.
    cbn [mbind result_bind app].
    rewrite cumsum_from_zero. cbn [length].
    rewrite length_cumsum_from, length_fmap, length_seq.
    destruct (Nat.ltb_spec (length param_history)
                (S (length param_history - 1))) as [|_]; [lia|].
    destruct (Nat.ltb_spec (S (length param_history - 1))
                (length param_history)) as [|_]; [lia|].
    done.
Qed.

Lemma cumsum_from_sorted (acc : Qc) (xs : list Qc) :
  Forall (λ x, 0 ≤ x)%Qc xs →
  StronglySorted Qcle (acc :: cumsum_from acc xs)
  ∧ Forall (Qcle acc) (cumsum_from acc xs).
Proof.
  intros Hxs. revert acc.
  induction Hxs as [|x xs Hx _ IH]; intros acc.
  - split; repeat constructor.
  - cbn [cumsum_from].
    destruct (IH (acc + x)%Qc) as [Hs Hf].
    assert (acc ≤ acc + x)%Qc as Hle.
    { rewrite <-(Qcplus_0_r acc) at 1. apply Qcplus_le_compat; [apply Qcle_refl|done]. }
    assert (Forall (Qcle acc) ((acc + x)%Qc :: cumsum_from (acc + x)%Qc xs))
      as Hall.
    { constructor; [done|].
      eapply Forall_impl; [exact Hf|]. intros y Hy. simpl in Hy.
      by eapply Qcle_trans. }
    split; [by constructor|done].
Qed.

(** X17. With a square root that is never negative, the cumulative
    lengths [compute_trajectory_length] returns for snapshots of one
    size never decrease along the history, and none is negative. *)
Theorem compute_trajectory_length_monotone (tsqrt : Qc → Qc)
    (param_history : list (list Qc)) (d : nat) :
  (∀ x, 0 ≤ tsqrt x)%Qc →
  Forall (λ s, length s = d) param_history →
  ∃ lengths,
    compute_trajectory_length tsqrt param_history = Ok lengths
    ∧ StronglySorted Qcle lengths
    ∧ Forall (λ x, 0 ≤ x)%Qc lengths.
Proof.
  intros Hsqrt Hall.
  destruct (decide (param_history = [])) as [->|Hne].
  - exists []. repeat split; constructor.
  - rewrite (compute_trajectory_length_closed tsqrt param_history d Hne Hall).
    eexists. split; [done|].
    destruct (cumsum_from_sorted 0%Qc
                (step_distance tsqrt param_history
                   <$> seq 1 (length param_history - 1))) as [Hs Hf].
    + apply Forall_fmap, Forall_forall. intros i _. apply Hsqrt.
    + split; [done|]. constructor; [apply Qcle_refl|done].
Qed.

Lemma sqrt_exact_nonneg (x : Qc) : (0 ≤ sqrt_exact x)%Qc.
Proof.
  unfold sqrt_exact, Qcle. cbn [this Q2Qc].
  change (Qred 0) with (0 # 1)%Q.
  rewrite Qred_correct. unfold Qle. cbn [Qnum Qden].
  pose proof (Z.sqrt_nonneg (Qnum x)). lia.
Qed.

Lemma compute_trajectory_length_monotone_witness :
  ∃ lengths,
    compute_trajectory_length sqrt_exact
      (rationals <$> [[0; 0]; [3; 4]; [3; 4]; [0; 0]]%Z) = Ok lengths
    ∧ StronglySorted Qcle lengths.
Proof.
  destruct (compute_trajectory_length_monotone sqrt_exact
              (rationals <$> [[0; 0]; [3; 4]; [3; 4]; [0; 0]]%Z) 2)
    as (lengths & H & Hs & _).
  - exact sqrt_exact_nonneg.
  - repeat constructor.
  - exists lengths. split; [exact H|exact Hs].
Defined.

(** *** Snapshots of different sizes *)

Lemma distances_loop_prefix (tsqrt : Qc → Qc)
    (param_history : list (list Qc)) (d k : nat) (acc : list Qc) :
  k < length param_history →
  (∀ i s, i ≤ k → param_history !! i = Some s → length s = d) →
  succeeds
    (for_each
       (λ distances i,
          cur ← history_item param_history i;
          prev ← history_item param_history (i - 1);
          diff ← broadcast2 Qcminus cur prev;
          Ok (distances ++ [norm tsqrt diff]))
       (seq 1 k) acc).
Proof.
  revert acc. induction k as [|k IH]; intros acc Hk Hd.
  - by exists acc.
  - rewrite seq_S, for_each_app.
    destruct (IH acc) as [acc' ->]; [lia|intros; eapply Hd; [|done]; lia|].
    cbn [mbind result_bind for_each]. unfold history_item.
    destruct (lookup_lt_is_Some_2 param_history (1 + k)) as [cur Hcur]; [lia|].
    destruct (lookup_lt_is_Some_2 param_history (1 + k - 1)) as [prev Hprev];
      [lia|].
    rewrite Hcur, Hprev. cbn [mbind result_bind].
    rewrite broadcast2_same_length.
    + by eexists.
    + rewrite (Hd _ _ (Nat.le_refl _) Hcur).
      symmetry. eapply Hd; [|exact Hprev]. lia.
Qed.

Lemma broadcast2_mismatch {A B C} (f : A → B → C) (a : list A) (b : list B) :
  length a ≠ length b → length a ≠ 1 → length b ≠ 1 →
  broadcast2 f a b
  = Err (Raise "RuntimeError"
           "The size of tensor a must match the size of tensor b").
Proof.
  intros Hab Ha Hb. unfold broadcast2. rewrite decide_False by done.
  destruct a as [|x [|x' a]], b as [|y [|y' b]]; done.
Qed.

(** X18. [compute_trajectory_length] does not check that the snapshots
    have one size: when snapshot [k + 1] is the first of another size
    than those before it, and neither size is one, the subtraction
    raises [RuntimeError]. *)
Theorem compute_trajectory_length_mismatch (tsqrt : Qc → Qc)
    (param_history : list (list Qc)) (k d : nat) (cur : list Qc) :
  (∀ i s, i ≤ k → param_history !! i = Some s → length s = d) →
  param_history !! S k = Some cur →
  length cur ≠ d → d ≠ 1 → length cur ≠ 1 →
  compute_trajectory_length tsqrt param_history
  = Err (Raise "RuntimeError"
           "The size of tensor a must match the size of tensor b").
Proof.
  intros Hd Hcur Hne Hd1 Hc1.
  pose proof (lookup_lt_Some _ _ _ Hcur) as Hlt.
  unfold compute_trajectory_length.
  destruct (Nat.leb_spec (length param_history) 1) as [|_]; [lia|].
  replace (length param_history - 1)
    with (k + S (length param_history - 1 - S k)) by lia.
  rewrite seq_app, for_each_app.
  destruct (distances_loop_prefix tsqrt param_history d k []) as [acc ->];
    [lia|done|].
  cbn [mbind result_bind seq for_each]. unfold history_item.
  destruct (lookup_lt_is_Some_2 param_history (1 + k - 1)) as [prev Hprev];
    [lia|].
  change (1 + k) with (S k) in *. rewrite Hcur, Hprev.
  cbn [mbind result_bind].
  assert (length prev = d) as Hp by (eapply Hd; [|exact Hprev]; lia).
  rewrite broadcast2_mismatch by congruence. done.
Qed.

Lemma compute_trajectory_length_mismatch_witness :
  compute_trajectory_length sqrt_exact
    (rationals <$> [[0; 0]; [3; 4]; [1; 2; 3]]%Z)
  = Err (Raise "RuntimeError"
           "The size of tensor a must match the size of tensor b").
Proof.
  apply (compute_trajectory_length_mismatch sqrt_exact
           (rationals <$> [[0; 0]; [3; 4]; [1; 2; 3]]%Z) 1 2
           (rationals [1; 2; 3]%Z)).
  - intros [|[|i]] s Hi Hs; [| |lia]; by inversion Hs.
  - reflexivity.
  - vm_compute. lia.
  - lia.
  - vm_compute. lia.
Defined.

(** *** The metric of a run *)

Section WithTraining.
Variable tsqrt : Qc → Qc.
Variable run : Type.
Variable iteration : run → run.
Variable parameters_to_vector : run → list Qc.
Variable d : nat.
Hypothesis one_model : ∀ r, length (parameters_to_vector r) = d.

Lemma training_loop_history (iterations : nat) (r : run)
    (parameter_history : list (list Qc)) :
  Forall (λ s, length s = d) parameter_history →
  length (training_loop run iteration parameters_to_vector iterations r
            parameter_history)
  = length parameter_history + iterations
  ∧ Forall (λ s, length s = d)
      (training_loop run iteration parameters_to_vector iterations r
         parameter_history).
Proof.
  revert r parameter_history.
  induction iterations as [|k IH]; intros r h Hh.
  - split; [simpl; lia|done].
  - cbn [training_loop].
    destruct (IH (iteration r) (h ++ [parameters_to_vector (iteration r)]))
      as [Hlen Hall].
    + apply Forall_app. split; [done|]. by repeat constructor.
    + split; [|done]. rewrite Hlen, length_app. simpl. lia.
Qed.

End WithTraining.

(** X19. In a run whose iterations return, [parameter_history] holds
    [max_iterations + 1] snapshots, so the trajectory lengths are always
    cut, never padded: the metric has [max_iterations] entries, the first
    [max_iterations] cumulative lengths; the length after the last
    iteration is dropped. *)
Theorem trajectory_length_metric_cut (tsqrt : Qc → Qc) (run : Type)
    (iteration : run → run) (parameters_to_vector : run → list Qc)
    (d : nat) (initial : run) (max_iterations : Z) :
  (∀ r, length (parameters_to_vector r) = d) →
  (0 ≤ max_iterations)%Z →
  ∃ traj_length,
    compute_trajectory_length tsqrt
      (training_loop run iteration parameters_to_vector
         (Z.to_nat max_iterations) initial [parameters_to_vector initial])
    = Ok traj_length
    ∧ length traj_length = S (Z.to_nat max_iterations)
    ∧ trajectory_length_metric tsqrt run iteration parameters_to_vector
        initial max_iterations
      = Ok (take (Z.to_nat max_iterations) traj_length).
Proof.
  intros Hone Hmax. unfold trajectory_length_metric.
  set (h := training_loop run iteration parameters_to_vector
              (Z.to_nat max_iterations) initial
              [parameters_to_vector initial]).
  destruct (training_loop_history run iteration parameters_to_vector d Hone
              (Z.to_nat max_iterations) initial
              [parameters_to_vector initial]) as [Hlen Hall].
  { by repeat constructor. }
  fold h in Hlen, Hall. cbn [length] in Hlen.
  rewrite (compute_trajectory_length_closed tsqrt h d);
    [|intros Hnil; rewrite Hnil in Hlen; simpl in Hlen; lia|done].
  eexists. split; [done|].
  assert (length (0%Qc :: cumsum_from 0%Qc
                     (step_distance tsqrt h <$> seq 1 (length h - 1)))
          = S (Z.to_nat max_iterations)) as Hl.
  { cbn [length]. rewrite length_cumsum_from, length_fmap, length_seq. lia. }
  split; [done|].
  cbn [mbind result_bind]. unfold fit_trajectory_length. rewrite Hl.
  destruct (Z.ltb_spec max_iterations
              (Z.of_nat (S (Z.to_nat max_iterations)))) as [_|]; [|lia].
  unfold slice_to. rewrite Hl.
  destruct (Z.ltb_spec max_iterations 0); [lia|].
  do 2 f_equal. lia.
Qed.

Lemma trajectory_length_metric_cut_witness :
  ∃ traj_length,
    compute_trajectory_length sqrt_exact
      (training_loop Qc (λ x, x + 1)%Qc (λ x, [x; x]) 2 0%Qc [[0%Qc; 0%Qc]])
    = Ok traj_length
    ∧ length traj_length = 3
    ∧ trajectory_length_metric sqrt_exact Qc (λ x, x + 1)%Qc (λ x, [x; x])
        0%Qc 2
      = Ok (take 2 traj_length).
Proof.
  apply (trajectory_length_metric_cut sqrt_exact Qc (λ x, x + 1)%Qc
           (λ x, [x; x]) 2 0%Qc 2%Z).
  - reflexivity.
  - lia.
Defined.

End TrajectoryMore.

(** ** optimizers *)

Module OptimizerProps.
Import Optimizers.

Local Open Scope Qc_scope.

(** *** Tensors as functions of the position *)

Lemma tensor_as_seq (x : list Qc) (n : nat) :
  length x = n → x = (λ i, x !!! i) <$> seq 0 n.
Proof. intros <-. apply OperatorProps.list_as_fmap_seq. Qed.

Lemma add_seq (f g : nat → Qc) (n : nat) (alpha : Qc) :
  add (f <$> seq 0 n) (g <$> seq 0 n) alpha
  = (λ i, f i + alpha * g i) <$> seq 0 n.
Proof.
  exact (HvpProps.zip_with_fmap_same (λ a b, a + alpha * b) f g (seq 0 n)).
Qed.

Lemma mul_seq (f : nat → Qc) (n : nat) (c : Qc) :
  mul (f <$> seq 0 n) c = (λ i, f i * c) <$> seq 0 n.
Proof. unfold mul. by rewrite <-list_fmap_compose. Qed.

Lemma zeros_like_seq (f : nat → Qc) (n : nat) :
  zeros_like (f <$> seq 0 n) = (λ _, 0) <$> seq 0 n.
Proof. unfold zeros_like. by rewrite <-list_fmap_compose. Qed.

Lemma zip_with_pair {A B C} (f : A → C) (l : list A) (k : list B) :
  zip_with (λ a b, (f a, b)) l k = zip (f <$> l) k.
Proof.
  revert k. induction l as [|a l IH]; intros [|b k]; simpl; [done..|].
  by rewrite IH.
Qed.

(** *** SGD and gradient descent *)

Lemma sgd_update_plain (o : SGD.t) (p : parameter)
    (buffer : option (list Qc)) :
  SGD.momentum o = 0 → SGD.weight_decay o = 0 →
  SGD.update o p buffer = (GradientDescent.update (SGD.lr o) p, buffer).
Proof.
  intros Hm Hw. unfold SGD.update, GradientDescent.update.
  destruct (grad p) as [g|]; [|done].
  rewrite !decide_False by (intros H; by apply H). done.
Qed.

(** X20. An [SGD] optimizer with zero momentum and zero weight decay,
    which is what [create_sgd] builds by default, takes the step of
    [GradientDescent] with the same learning rate, whatever its
    dampening and its nesterov flag, and creates no momentum buffer. *)
Theorem sgd_step_is_gradient_descent (o : SGD.t) :
  SGD.momentum o = 0 → SGD.weight_decay o = 0 →
  (length (SGD.state o) ≤ length (SGD.params o))%nat →
  SGD.params (SGD.step o)
  = GradientDescent.params
      (GradientDescent.step
         {| GradientDescent.lr := SGD.lr o;
            GradientDescent.params := SGD.params o |})
  ∧ SGD.state (SGD.step o)
    = SGD.state o
      ++ replicate (length (SGD.params o) - length (SGD.state o)) None.
Proof.
  intros Hm Hw Hlen. unfold SGD.step, GradientDescent.step.
  cbn [SGD.params SGD.state GradientDescent.params GradientDescent.lr].
  rewrite (zip_with_ext _ (λ p b, (GradientDescent.update (SGD.lr o) p, b))
             _ _ _ _ (λ p b, sgd_update_plain o p b Hm Hw) eq_refl eq_refl).
  rewrite zip_with_pair. split.
  - apply fst_zip.
    rewrite length_fmap, length_app, length_replicate. lia.
  - apply snd_zip.
    rewrite length_fmap, length_app, length_replicate. lia.
Qed.

Lemma sgd_step_is_gradient_descent_witness :
  SGD.params (SGD.step (sample_sgd 0))
  = GradientDescent.params
      (GradientDescent.step
         {| GradientDescent.lr := Q2Qc (1 # 2);
            GradientDescent.params := [sample_parameter] |}).
Proof.
  apply (sgd_step_is_gradient_descent (sample_sgd 0)).
  - reflexivity.
  - reflexivity.
  - simpl. lia.
Defined.

(** *** Momentum *)

Ltac as_seq n :=
  repeat match goal with
         | H : length ?x = n |- _ =>
             rewrite (tensor_as_seq x n H); clear H;
             generalize (λ i : nat, x !!! i); clear x; intros x
         end;
  repeat first [rewrite add_seq | rewrite mul_seq | rewrite zeros_like_seq].

(** X21. With dampening zero and without nesterov, which is what
    [create_sgd] and [create_polyak_momentum] build, two consecutive
    steps of [SGD] follow the heavy-ball recurrence: the new values are
    the old ones, minus the learning rate times the gradient (with the
    weight decay term), plus the momentum times the previous
    displacement. *)
Theorem sgd_step_heavy_ball (o : SGD.t) (p0 : parameter)
    (g0 g1 : list Qc) (buffer : option (list Qc)) (n : nat) :
  SGD.dampening o = 0 → SGD.nesterov o = false →
  length (data p0) = n → length g0 = n → length g1 = n →
  (∀ b, buffer = Some b → length b = n) →
  let '(p1, buffer1) := SGD.update o (with_grad p0 g0) buffer in
  let '(p2, _) := SGD.update o (with_grad p1 g1) buffer1 in
  data p2
  = add (add (data p1) (add g1 (data p1) (SGD.weight_decay o)) (- SGD.lr o))
        (add (data p1) (data p0) (- (1))) (SGD.momentum o).
Proof.
  intros Hd Hn Hx Hg0 Hg1 Hb.
  destruct p0 as [x0 gr rg sx]. cbn [data] in Hx.
  unfold SGD.update, with_grad, with_data.
  cbn [grad data requires_grad is_simplex]. rewrite Hd, Hn.
  destruct buffer as [b|]; [specialize (Hb b eq_refl)|clear Hb];
    destruct (decide (SGD.weight_decay o ≠ 0)) as [Hw|Hw];
    destruct (decide (SGD.momentum o ≠ 0)) as [Hm|Hm];
    cbn [grad data requires_grad is_simplex];
    rewrite ?(decide_True _ _ Hw), ?(decide_False _ _ Hw),
      ?(decide_True _ _ Hm), ?(decide_False _ _ Hm);
    cbn [grad data requires_grad is_simplex];
    try (apply dec_stable in Hw); try (apply dec_stable in Hm);
    as_seq n; apply list_fmap_ext; intros _ i _;
    rewrite ?Hw, ?Hm; ring.
Qed.

Lemma sgd_step_heavy_ball_witness :
  let '(p1, buffer1) :=
    SGD.update (sample_sgd 2)
      (with_grad sample_parameter (rationals [1; 0; -1]%Z)) None in
  let '(p2, _) :=
    SGD.update (sample_sgd 2) (with_grad p1 (rationals [2; 2; 2]%Z))
      buffer1 in
  data p2
  = add (add (data p1)
           (add (rationals [2; 2; 2]%Z) (data p1)
              (SGD.weight_decay (sample_sgd 2)))
           (- SGD.lr (sample_sgd 2)))
        (add (data p1) (data sample_parameter) (- (1)))
        (SGD.momentum (sample_sgd 2)).
Proof.
  apply (sgd_step_heavy_ball (sample_sgd 2) sample_parameter
           (rationals [1; 0; -1]%Z) (rationals [2; 2; 2]%Z) None 3).
  - reflexivity.
  - reflexivity.
  - reflexivity.
  - reflexivity.
  - reflexivity.
  - discriminate.
Defined.

(** *** Mirror descent *)

Section WithTorch.
Variable texp : Qc → Qc.
Variable div_sum_dim0 : list Qc → list Qc.

Lemma mirror_update_squared_l2 (o : MirrorDescent.t) (p : parameter)
    (dual : option (list Qc)) :
  MirrorDescent.dgf o = "squared_l2"%string →
  MirrorDescent.update texp div_sum_dim0 o p dual
  = Ok (GradientDescent.update (MirrorDescent.lr o) p,
        match grad p with
        | Some _ => Some (data (GradientDescent.update (MirrorDescent.lr o) p))
        | None => dual
        end).
Proof.
  intros Hd. unfold MirrorDescent.update, GradientDescent.update.
  rewrite Hd. by destruct (grad p).
Qed.

Lemma mirror_update_all_squared_l2 (o : MirrorDescent.t)
    (todo : list (parameter * option (list Qc))) :
  MirrorDescent.dgf o = "squared_l2"%string →
  MirrorDescent.update_all texp div_sum_dim0 o todo
  = ((λ pd, (GradientDescent.update (MirrorDescent.lr o) (fst pd),
             match grad (fst pd) with
             | Some _ =>
                 Some (data (GradientDescent.update (MirrorDescent.lr o)
                              (fst pd)))
             | None => snd pd
             end)) <$> todo,
     Ok ()).
Proof.
  intros Hd. induction todo as [|[p dual] todo IH]; [done|].
  cbn [MirrorDescent.update_all]. rewrite mirror_update_squared_l2 by done.
  rewrite IH. done.
Qed.

End WithTorch.

(** X22. With the distance generating function ['squared_l2'],
    [MirrorDescent.step] returns without an exception, changes the
    parameters as the step of [GradientDescent] with the same learning
    rate does, and leaves as the dual of every parameter that has a
    gradient the new values of that parameter. *)
Theorem mirror_step_squared_l2 (texp : Qc → Qc)
    (div_sum_dim0 : list Qc → list Qc) (o : MirrorDescent.t) :
  MirrorDescent.dgf o = "squared_l2"%string →
  (length (MirrorDescent.state o) ≤ length (MirrorDescent.params o))%nat →
  ∃ o',
    MirrorDescent.step texp div_sum_dim0 o = (o', Ok ())
    ∧ MirrorDescent.params o'
      = GradientDescent.params
          (GradientDescent.step
             {| GradientDescent.lr := MirrorDescent.lr o;
                GradientDescent.params := MirrorDescent.params o |})
    ∧ ∀ i p p',
        MirrorDescent.params o !! i = Some p → grad p ≠ None →
        MirrorDescent.params o' !! i = Some p' →
        MirrorDescent.state o' !! i = Some (Some (data p')).
Proof.
  intros Hd Hlen. unfold MirrorDescent.step.
  rewrite mirror_update_all_squared_l2 by done.
  eexists. split; [done|].
  cbn [MirrorDescent.params MirrorDescent.state GradientDescent.step
       GradientDescent.params GradientDescent.lr].
  set (duals := MirrorDescent.state o
                ++ replicate (length (MirrorDescent.params o)
                              - length (MirrorDescent.state o)) None).
  assert (length duals = length (MirrorDescent.params o)) as Hduals.
  { unfold duals. rewrite length_app, length_replicate. lia. }
  assert ((λ pd : parameter * option (list Qc),
             GradientDescent.update (MirrorDescent.lr o) (fst pd))
          <$> zip (MirrorDescent.params o) duals
          = GradientDescent.update (MirrorDescent.lr o)
            <$> MirrorDescent.params o) as Hparams.
  { rewrite <-(fst_zip (MirrorDescent.params o) duals) at 2 by lia.
    by rewrite <-list_fmap_compose. }
  rewrite <-!list_fmap_compose. split; [exact Hparams|].
  intros i p p' Hp Hg Hp'.
  change (((λ pd : parameter * option (list Qc),
              GradientDescent.update (MirrorDescent.lr o) (fst pd))
           <$> zip (MirrorDescent.params o) duals) !! i = Some p') in Hp'.
  rewrite Hparams, list_lookup_fmap, Hp in Hp'. inversion Hp'; subst p'.
  rewrite list_lookup_fmap.
  destruct (lookup_lt_is_Some_2 duals i) as [dual Hdual].
  { rewrite Hduals. by eapply lookup_lt_Some. }
  rewrite (proj2 (lookup_zip_with_Some pair _ _ i (p, dual))
             (ex_intro _ p (ex_intro _ dual (conj eq_refl (conj Hp Hdual))))).
  simpl. by destruct (grad p).
Qed.

Lemma mirror_step_squared_l2_witness :
  ∃ o',
    MirrorDescent.step (λ x, x) (λ x, x) sample_mirror = (o', Ok ())
    ∧ MirrorDescent.params o'
      = GradientDescent.params
          (GradientDescent.step
             {| GradientDescent.lr := Q2Qc (1 # 2);
                GradientDescent.params := [sample_parameter] |}).
Proof.
  destruct (mirror_step_squared_l2 (λ x, x) (λ x, x) sample_mirror)
    as (o' & H & Hp & _).
  - reflexivity.
  - simpl. lia.
  - exists o'. split; [exact H|exact Hp].
Defined.

(** *** Constructors *)

(** X23. [create_nesterov_momentum] raises [ValueError] for every
    [beta] that is not positive, before the parameters are looked at;
    for a positive [beta] it builds, when the base class accepts the
    parameters, an [SGD] with momentum [beta], zero dampening, the
    nesterov flag and an empty state.  [create_polyak_momentum] builds
    the same without the flag and has no check that can fail. *)
Theorem create_nesterov_momentum_checks
    (optimizer_init : list parameter → result ())
    (params : list parameter) (lr beta weight_decay : Qc) :
  (beta ≤ 0 →
   create_nesterov_momentum optimizer_init params lr beta weight_decay
   = Err (Raise "ValueError"
            "Nesterov momentum requires a momentum and zero dampening"))
  ∧ (0 < beta →
     create_nesterov_momentum optimizer_init params lr beta weight_decay
     = (_ ← optimizer_init params;
        Ok {| SGD.lr := lr; SGD.momentum := beta; SGD.dampening := 0;
              SGD.weight_decay := weight_decay; SGD.nesterov := true;
              SGD.params := params; SGD.state := [] |}))
  ∧ create_polyak_momentum optimizer_init params lr beta weight_decay
    = (_ ← optimizer_init params;
       Ok {| SGD.lr := lr; SGD.momentum := beta; SGD.dampening := 0;
             SGD.weight_decay := weight_decay; SGD.nesterov := false;
             SGD.params := params; SGD.state := [] |}).
Proof.
  unfold create_nesterov_momentum, create_polyak_momentum, SGD_init.
  split; [|split; [|done]].
  - intros Hb. by rewrite (bool_decide_eq_true_2 _ Hb).
  - intros Hb. rewrite bool_decide_eq_false_2 by (by apply Qclt_not_le).
    rewrite bool_decide_eq_false_2 by (intros H; by apply H). done.
Qed.

Lemma create_nesterov_momentum_checks_witness :
  create_nesterov_momentum accept_nonempty [sample_parameter] 1 0 0
  = Err (Raise "ValueError"
           "Nesterov momentum requires a momentum and zero dampening").
Proof.
  destruct (create_nesterov_momentum_checks accept_nonempty
              [sample_parameter] 1 0 0) as [H _].
  apply H. apply Qcle_refl.
Defined.

(** X29. [create_mirror_descent] raises [ValueError] for a negative
    learning rate and, the rate not being negative, for a distance
    generating function that is neither ['squared_l2'] nor
    ['neg_entropy'], in both cases before the parameters are looked at.
    With ['squared_l2'], the optimizer it builds holds as dual of every
    parameter that requires a gradient a copy of its values, and no dual
    for the others. *)
Theorem create_mirror_descent_checks
    (optimizer_init : list parameter → result ()) (tlog : Qc → Qc)
    (params : list parameter) (lr : Qc) (dgf : string) :
  (lr < 0 →
   fails_with "ValueError"
     (create_mirror_descent optimizer_init tlog params lr dgf))
  ∧ (0 ≤ lr → dgf ∉ ["squared_l2"; "neg_entropy"]%string →
     create_mirror_descent optimizer_init tlog params lr dgf
     = Err (Raise "ValueError"
              ("Invalid dgf: " +:+ dgf
               +:+ ". Must be one of ['squared_l2', 'neg_entropy']")))
  ∧ (0 ≤ lr → dgf = "squared_l2"%string →
     ∀ o, create_mirror_descent optimizer_init tlog params lr dgf = Ok o →
          MirrorDescent.params o = params
          ∧ MirrorDescent.state o
            = (λ p, if requires_grad p then Some (data p) else None)
              <$> params).
Proof.
  unfold create_mirror_descent, MirrorDescent_init.
  split; [|split].
  - intros Hlr. rewrite (bool_decide_eq_true_2 _ Hlr). by eexists.
  - intros Hlr Hdgf.
    rewrite bool_decide_eq_false_2 by (by apply Qcle_not_lt).
    by rewrite (bool_decide_eq_false_2 _ Hdgf).
  - intros Hlr -> o.
    rewrite bool_decide_eq_false_2 by (by apply Qcle_not_lt).
    rewrite bool_decide_eq_true_2 by in_list. cbn [negb].
    destruct (optimizer_init params) as [[]|e]; [|done].
    cbn [mbind result_bind]. intros [= <-]. done.
Qed.

Lemma create_mirror_descent_checks_witness :
  create_mirror_descent accept_nonempty (λ x, x) [sample_parameter] 1 "l1"
  = Err (Raise "ValueError"
           "Invalid dgf: l1. Must be one of ['squared_l2', 'neg_entropy']").
Proof.
  destruct (create_mirror_descent_checks accept_nonempty (λ x, x)
              [sample_parameter] 1 "l1") as (_ & H & _).
  apply H.
  - by vm_compute.
  - intros Hin. repeat (apply elem_of_cons in Hin as [Hin|Hin]; [done|]).
    by apply elem_of_nil in Hin.
Defined.

(** *** create_optimizer *)

Section WithOptimizer.
Variable optimizer_init : list parameter → result ().
Variable tlog : Qc → Qc.
Variable adam : Type.
Variable Adam : list parameter → Qc → Qc * Qc → Qc → Qc → result adam.

Lemma create_optimizer_lower (optimizer_type : string)
    (params : list parameter) (kw : kwargs) :
  create_optimizer optimizer_init tlog adam Adam optimizer_type params kw
  = create_optimizer optimizer_init tlog adam Adam (lower optimizer_type)
      params kw.
Proof. unfold create_optimizer. by rewrite lower_idemp. Qed.

End WithOptimizer.

(** X24. For a type that [optimizer_exists] rejects, [create_optimizer]
    raises the "not recognized" [ValueError] with the lowercased type in
    its message, whatever the parameters and keyword arguments; both
    functions treat a type and its lowercased form alike. *)
Theorem create_optimizer_unknown
    (optimizer_init : list parameter → result ()) (tlog : Qc → Qc)
    (adam : Type)
    (Adam : list parameter → Qc → Qc * Qc → Qc → Qc → result adam)
    (optimizer_type : string) (params : list parameter) (kw : kwargs) :
  (optimizer_exists optimizer_type = false →
   create_optimizer optimizer_init tlog adam Adam optimizer_type params kw
   = Err (Raise "ValueError"
            ("Optimizer type '" +:+ lower optimizer_type
             +:+ "' not recognized")))
  ∧ create_optimizer optimizer_init tlog adam Adam optimizer_type params kw
    = create_optimizer optimizer_init tlog adam Adam (lower optimizer_type)
        params kw
  ∧ optimizer_exists optimizer_type = optimizer_exists (lower optimizer_type).
Proof.
  split; [|split].
  - intros He. apply bool_decide_eq_false in He.
    unfold create_optimizer.
    repeat match goal with
           | |- context [String.eqb (lower optimizer_type) ?s] =>
               destruct (String.eqb_spec (lower optimizer_type) s) as [Heq|_];
               [exfalso; apply He; rewrite Heq; in_list|]
           end.
    done.
  - apply create_optimizer_lower.
  - unfold optimizer_exists. by rewrite lower_idemp.
Qed.

Lemma create_optimizer_unknown_witness :
  create_optimizer accept_nonempty (λ x, x) unit (λ _ _ _ _ _, Ok ()) "RMSprop"
    [sample_parameter] no_kwargs
  = Err (Raise "ValueError" "Optimizer type 'rmsprop' not recognized").
Proof.
  destruct (create_optimizer_unknown accept_nonempty (λ x, x) unit
              (λ _ _ _ _ _, Ok ()) "RMSprop" [sample_parameter] no_kwargs)
    as [H _].
  apply H. reflexivity.
Defined.

(** X25. A type that [optimizer_exists] accepts need not give an
    optimizer: ['sgd'] with [nesterov=True] and a momentum that is absent
    (the default is zero) or not positive makes [create_optimizer] raise
    the [ValueError] of the [SGD] constructor, whatever the
    parameters. *)
Theorem create_optimizer_sgd_nesterov
    (optimizer_init : list parameter → result ()) (tlog : Qc → Qc)
    (adam : Type)
    (Adam : list parameter → Qc → Qc * Qc → Qc → Qc → result adam)
    (optimizer_type : string) (params : list parameter) (kw : kwargs) :
  lower optimizer_type = "sgd"%string →
  kw_nesterov kw = Some true →
  default 0 (kw_momentum kw) ≤ 0 →
  optimizer_exists optimizer_type = true
  ∧ create_optimizer optimizer_init tlog adam Adam optimizer_type params kw
    = Err (Raise "ValueError"
             "Nesterov momentum requires a momentum and zero dampening").
Proof.
  intros Ht Hn Hm. split.
  - unfold optimizer_exists. rewrite Ht. reflexivity.
  - unfold create_optimizer. rewrite Ht, Hn.
    cbn [String.eqb Ascii.eqb Bool.eqb andb default returned].
    unfold create_sgd, SGD_init.
    rewrite (bool_decide_eq_true_2 _ Hm). done.
Qed.

Lemma create_optimizer_sgd_nesterov_witness :
  create_optimizer accept_nonempty (λ x, x) unit (λ _ _ _ _ _, Ok ()) "SGD"
    [sample_parameter]
    {| learning_rate := None; batch_size := None; kw_momentum := None;
       kw_weight_decay := None; kw_nesterov := Some true; beta1 := None;
       beta2 := None; kw_epsilon := None; kw_dgf := None; beta := None |}
  = Err (Raise "ValueError"
           "Nesterov momentum requires a momentum and zero dampening").
Proof.
  apply (create_optimizer_sgd_nesterov accept_nonempty (λ x, x) unit
           (λ _ _ _ _ _, Ok ()) "SGD" [sample_parameter]).
  - reflexivity.
  - reflexivity.
  - apply Qcle_refl.
Defined.

End OptimizerProps.

(** ** models/architectures.py *)

Module ArchitectureProps.
Import Activation Initialization InitializeModel Architectures.

Local Open Scope nat_scope.

Lemma get_activation_unsupported (activation : string) :
  activation_exists activation = false →
  get_activation activation
  = Err (Raise "ValueError"
           ("Activation function '" +:+ lower activation
            +:+ "' not recognized")).
Proof.
  intros He. apply bool_decide_eq_false in He.
  unfold get_activation, get_activation_with.
  rewrite ActivationProps.lookup_activations.
  repeat (case_decide as Heq;
          [exfalso; apply He; rewrite Heq; in_list|clear Heq]).
  done.
Qed.

Lemma length_fc_hidden (built : nat → layer) (act : Activation.module)
    (l : list nat) :
  length (flat_map (λ i, [OfLinear (built i); OfActivation act]) l)
  = 2 * length l.
Proof. induction l as [|i l IH]; simpl in *; lia. Qed.

Section WithTorch.
Variable nn_Linear : Z → Z → result layer.
Variable nn_init : init_fn → tensor → result tensor.
Variable layer_sizes : list Z.
Variable activation init_method : string.

Lemma add_fc_layer_built (layers : list sequential_item) (i : nat)
    (l l' : layer) :
  nn_Linear (layer_sizes !!! i) (layer_sizes !!! (i + 1)) = Ok l →
  initialize_weights nn_init l init_method = (l', Ok ()) →
  add_fc_layer nn_Linear nn_init layer_sizes activation init_method layers i
  = if i <? length layer_sizes - 2 then
      act ← get_activation activation;
      Ok ((layers ++ [OfLinear l']) ++ [OfActivation act])
    else Ok (layers ++ [OfLinear l']).
Proof.
  intros Hl Hi. unfold add_fc_layer. rewrite Hl. cbn [mbind result_bind].
  rewrite Hi. done.
Qed.

Variable built : nat → layer.
Hypothesis construction :
  ∀ i, i < length layer_sizes - 1 →
       ∃ l, nn_Linear (layer_sizes !!! i) (layer_sizes !!! (i + 1)) = Ok l
            ∧ initialize_weights nn_init l init_method = (built i, Ok ()).

Lemma fc_hidden_loop (act : Activation.module) (k : nat) :
  get_activation activation = Ok act →
  k ≤ length layer_sizes - 2 →
  1 < length layer_sizes →
  for_each (add_fc_layer nn_Linear nn_init layer_sizes activation init_method)
    (seq 0 k) []
  = Ok (flat_map (λ i, [OfLinear (built i); OfActivation act]) (seq 0 k)).
Proof.
  intros Ha Hk Hlen. induction k as [|k IH]; [done|].
  rewrite seq_S, for_each_app, IH by lia.
  cbn [mbind result_bind for_each Nat.add].
  destruct (construction k) as (l & Hl & Hi); [lia|].
  rewrite (add_fc_layer_built _ _ l (built k) Hl Hi).
  destruct (Nat.ltb_spec k (length layer_sizes - 2)); [|lia].
  rewrite Ha. cbn [mbind result_bind].
  rewrite flat_map_app. cbn [flat_map]. by rewrite app_nil_r, <-app_assoc.
Qed.

End WithTorch.

(** X26. With a supported activation, and layers that [nn.Linear]
    builds and [initialize_weights] accepts, [create_fc_network]
    returns, for [k] hidden sizes, [2 k + 1] modules: each of the first
    [k] linear layers followed by the activation, then the output layer
    with nothing after it; layer [i] maps [layer_sizes[i]] inputs to
    [layer_sizes[i + 1]] outputs. *)
Theorem create_fc_network_items (nn_Linear : Z → Z → result layer)
    (nn_init : init_fn → tensor → result tensor)
    (input_size output_size : Z) (hidden_sizes : list Z)
    (activation init_method : string) (built : nat → layer)
    (act : Activation.module) :
  get_activation activation = Ok act →
  (∀ i, i ≤ length hidden_sizes →
     ∃ l, nn_Linear (([input_size] ++ hidden_sizes ++ [output_size]) !!! i)
            (([input_size] ++ hidden_sizes ++ [output_size]) !!! (i + 1))
          = Ok l
          ∧ initialize_weights nn_init l init_method = (built i, Ok ())) →
  create_fc_network nn_Linear nn_init input_size output_size hidden_sizes
    activation init_method
  = Ok (fc_items built act (length hidden_sizes))
  ∧ length (fc_items built act (length hidden_sizes))
    = 2 * length hidden_sizes + 1.
Proof.
  intros Ha Hc. unfold create_fc_network, fc_items.
  set (layer_sizes := [input_size] ++ hidden_sizes ++ [output_size]) in *.
  assert (length layer_sizes = length hidden_sizes + 2) as Hlen.
  { unfold layer_sizes. rewrite !length_app. simpl. lia. }
  split.
  - replace (length layer_sizes - 1) with (S (length hidden_sizes)) by lia.
    rewrite seq_S, for_each_app.
    rewrite (fc_hidden_loop nn_Linear nn_init layer_sizes activation
               init_method built) with (act := act); try done; try lia.
    2:{ intros i Hi. apply Hc. lia. }
    cbn [mbind result_bind for_each Nat.add].
    destruct (Hc (length hidden_sizes)) as (l & Hl & Hi); [lia|].
    rewrite (add_fc_layer_built _ _ _ _ _ _ _ l (built (length hidden_sizes))
               Hl Hi).
    destruct (Nat.ltb_spec (length hidden_sizes) (length layer_sizes - 2));
      [lia|done].
  - rewrite length_app, length_fc_hidden, length_seq. simpl. lia.
Qed.

Lemma create_fc_network_items_witness :
  create_fc_network sample_Linear torch_init 4 2 [3%Z] "ReLU" "kaiming"
  = Ok (fc_items (sample_built [4; 3; 2]%Z "kaiming") ReLU 1).
Proof.
  apply (create_fc_network_items sample_Linear torch_init 4 2 [3%Z] "ReLU"
           "kaiming" (sample_built [4; 3; 2]%Z "kaiming") ReLU).
  - reflexivity.
  - intros i Hi. eexists. split; [reflexivity|].
    destruct i as [|[|i]]; [reflexivity|reflexivity|simpl in Hi; lia].
Defined.

Lemma create_fc_network_first (nn_Linear : Z → Z → result layer)
    (nn_init : init_fn → tensor → result tensor)
    (input_size output_size : Z) (hidden_sizes : list Z)
    (activation init_method : string) :
  create_fc_network nn_Linear nn_init input_size output_size hidden_sizes
    activation init_method
  = (layers ← add_fc_layer nn_Linear nn_init
                ([input_size] ++ hidden_sizes ++ [output_size])
                activation init_method [] 0;
     for_each
       (add_fc_layer nn_Linear nn_init
          ([input_size] ++ hidden_sizes ++ [output_size])
          activation init_method)
       (seq 1 (length hidden_sizes)) layers).
Proof.
  unfold create_fc_network.
  replace (length ([input_size] ++ hidden_sizes ++ [output_size]) - 1)
    with (S (length hidden_sizes)); [done|].
  rewrite !length_app. simpl. lia.
Qed.

(** X27. The activation is looked up only after a hidden layer: with a
    name [activation_exists] rejects, [create_fc_network] returns the
    single output layer when there are no hidden sizes, and raises the
    [ValueError] of [get_activation] as soon as there is one. *)
Theorem create_fc_network_unsupported_activation
    (nn_Linear : Z → Z → result layer)
    (nn_init : init_fn → tensor → result tensor)
    (input_size output_size : Z) (hidden_sizes : list Z)
    (activation init_method : string) (l l' : layer) :
  activation_exists activation = false →
  nn_Linear input_size (default output_size (head hidden_sizes)) = Ok l →
  initialize_weights nn_init l init_method = (l', Ok ()) →
  (hidden_sizes = [] →
   create_fc_network nn_Linear nn_init input_size output_size hidden_sizes
     activation init_method = Ok [OfLinear l'])
  ∧ (hidden_sizes ≠ [] →
     create_fc_network nn_Linear nn_init input_size output_size hidden_sizes
       activation init_method
     = Err (Raise "ValueError"
              ("Activation function '" +:+ lower activation
               +:+ "' not recognized"))).
Proof.
  intros Ha Hl Hi. rewrite create_fc_network_first.
  assert (([input_size] ++ hidden_sizes ++ [output_size]) !!! (0 + 1)
          = default output_size (head hidden_sizes)) as Hsecond
    by (by destruct hidden_sizes).
  rewrite (add_fc_layer_built nn_Linear nn_init _ activation init_method
             [] 0 l l'); [|by rewrite Hsecond|done].
  split.
  - intros ->. done.
  - intros Hne. destruct hidden_sizes as [|h hidden_sizes]; [done|].
    destruct (Nat.ltb_spec 0
                (length ([input_size] ++ (h :: hidden_sizes) ++ [output_size])
                 - 2)) as [_|Hlen].
    + by rewrite (get_activation_unsupported _ Ha).
    + rewrite !length_app in Hlen. simpl in Hlen. lia.
Qed.

Lemma create_fc_network_unsupported_activation_witness :
  create_fc_network sample_Linear torch_init 4 2 [3%Z] "GELU" "kaiming"
  = Err (Raise "ValueError" "Activation function 'gelu' not recognized").
Proof.
  destruct (create_fc_network_unsupported_activation sample_Linear torch_init
              4 2 [3%Z] "GELU" "kaiming"
              {| weight := Attr {| shape := [3; 4];
                                   data := replicate 12 1%Qc |};
                 bias := Attr {| shape := [3]; data := replicate 3 1%Qc |} |}
              (sample_built [4; 3; 2]%Z "kaiming" 0)) as [_ H].
  - reflexivity.
  - reflexivity.
  - reflexivity.
  - apply H. discriminate.
Defined.

(** X28. With a method [initialization_exists] rejects,
    [create_fc_network] raises the "not recognized" [ValueError] at its
    first layer, whatever the hidden sizes and the activation, as soon
    as [nn.Linear] gives that layer a weight attribute. *)
Theorem create_fc_network_unsupported_method
    (nn_Linear : Z → Z → result layer)
    (nn_init : init_fn → tensor → result tensor)
    (input_size output_size : Z) (hidden_sizes : list Z)
    (activation init_method : string) (l : layer) :
  initialization_exists init_method = false →
  nn_Linear input_size (default output_size (head hidden_sizes)) = Ok l →
  weight l ≠ NoAttr →
  create_fc_network nn_Linear nn_init input_size output_size hidden_sizes
    activation init_method
  = Err (not_recognized init_method).
Proof.
  intros Hm Hl Hw. rewrite create_fc_network_first.
  assert (([input_size] ++ hidden_sizes ++ [output_size]) !!! (0 + 1)
          = default output_size (head hidden_sizes)) as Hsecond
    by (by destruct hidden_sizes).
  unfold add_fc_layer. rewrite Hsecond.
  change (([input_size] ++ hidden_sizes ++ [output_size]) !!! 0)
    with input_size.
  rewrite Hl. cbn [mbind result_bind].
  destruct (UtilsProps.initialize_weights_cases nn_init l init_method)
    as [[Hw' _]|[(_ & _ & ->)|[(_ & Hm' & _)|(w & f & _ & Hm' & _)]]];
    [done|done|congruence..].
Qed.

Lemma create_fc_network_unsupported_method_witness :
  create_fc_network sample_Linear torch_init 4 2 [3%Z] "GELU" "He"
  = Err (not_recognized "He").
Proof.
  apply (create_fc_network_unsupported_method sample_Linear torch_init 4 2
           [3%Z] "GELU" "He"
           {| weight := Attr {| shape := [3; 4];
                                data := replicate 12 1%Qc |};
              bias := Attr {| shape := [3]; data := replicate 3 1%Qc |} |}).
  - reflexivity.
  - reflexivity.
  - discriminate.
Defined.

End ArchitectureProps.
